(** * noclip.website: skeletal (J3D) and world (Source engine BSP) rendering cores

    A shallow embedding of the parts of
    - [src/SourceEngine/Main.ts]  (BSP walk, PVS computation),
    - the J3D model renderer       ([Command_Shape.draw], [updateMatrixArray]),
    - the Source engine entity system ([EntitySystem], [func_door],
      [math_counter])
    that the specification talks about, and the properties it states.

    Conventions.
    - A JavaScript [number] that is an index or an id is a [Z] (or a [nat]
      where the code only ever uses it as an array position).
    - A JavaScript [number] that is a quantity (a time, a coordinate, a
      weight, a counter value) is an exact rational [Qc]: rounding, NaN and
      the infinities are outside the model, and where the code divides, the
      statements say what they assume about the divisor.
    - An array is a [list]; reading [a[i]] is [a !! i], and the places where
      JavaScript would throw a [TypeError] on [undefined] are written out.
    - Mutation is explicit state passing. *)

From stdpp Require Import base option list gmap strings numbers.
From Stdlib Require Import ZArith QArith Qcanon Lia Lqa.

Local Open Scope Z_scope.

(** ** Outcomes of a JavaScript call *)

(** A call either returns, throws (reading a property of [undefined]), or
    has not returned yet within the recursion budget of the model. *)
Inductive Res (A : Type) : Type :=
  | Done (a : A)
  | TypeError
  | OutOfFuel.
Arguments Done {A} a.
Arguments TypeError {A}.
Arguments OutOfFuel {A}.

#[global] Instance Res_eq_dec {A} `{EqDecision A} : EqDecision (Res A).
Proof. solve_decision. Defined.

Definition res_bind {A B} (m : Res A) (k : A → Res B) : Res B :=
  match m with
  | Done a => k a
  | TypeError => TypeError
  | OutOfFuel => OutOfFuel
  end.

(** [a[i]] for a JavaScript array and a numeric index: [undefined] (here
    [None]) outside the array. *)
Definition lookupZ {A} (a : list A) (i : Z) : option A :=
  if i <? 0 then None else a !! Z.to_nat i.

Declare Scope res_scope.
Delimit Scope res_scope with res.
Notation "x ←r m ; k" := (res_bind m (λ x, k))
  (at level 100, m at next level, right associativity) : res_scope.

(** ** PVS bitmap *)

Module BitMap.

(** Modelled from the spec: the [BitMap] class is imported from
    [../BitMap], which is not among the sources. The spec describes it as
    a fixed-size bitset with one bit per cluster; it is a list of bits
    whose length is fixed at construction. *)
Abbreviation t := (list bool).

Definition create (numBits : nat) : t := replicate numBits false.

(** [fill(v)]: every bit becomes [v]; the size does not change. *)
Definition fill (v : bool) (m : t) : t := replicate (length m) v.

(** [getBit(n)]: positions outside the bitmap read as unset. *)
Definition getBit (m : t) (bitNum : Z) : bool :=
  if bitNum <? 0 then false else default false (m !! Z.to_nat bitNum).

(** [or(o)]: in-place union with [o]; the size does not change. *)
Definition or (m o : t) : t :=
  imap (λ i b, b || getBit o (Z.of_nat i)) m.

End BitMap.

(** ** BSP tree walk: [BSPModelRenderer.gatherSurfaces] *)

Module BSP.

(** The sign encoding of tree-walk values: a non-negative value is an
    index into [nodelist], a negative value [-(i) - 1] is leaf [i]. *)
Definition encodeLeaf (i : Z) : Z := - i - 1.
Definition decodeLeaf (nodeid : Z) : Z := - nodeid - 1.

Section Walk.

(** Collaborators that are not among the sources: the bounding-box type
    of [../Geometry] with its [transform], the matrices of [gl-matrix],
    and the view with its frustum test. *)
Variable AABB : Type.
Variable Mat4 : Type.
Variable Vec3 : Type.
Variable View : Type.
Variable transform : AABB → Mat4 → AABB.
Variable frustum_contains : View → AABB → bool.
Variable cameraPos : View → Vec3.

Record BSPNode := {
  node_bbox : AABB;
  child0 : Z;
  child1 : Z;
}.

Record BSPLeaf := {
  leaf_bbox : AABB;
  cluster : Z;
  surfaces : list Z;
}.

Record BSPFile := {
  nodelist : list BSPNode;
  leaflist : list BSPLeaf;
  visibility_pvs : list BitMap.t;
}.

(** [BSPFile.findLeafForPoint] lives in [./BSPFile], which is not among the
    sources: it returns the leaf containing a point, or [null]. *)
Variable findLeafForPoint : BSPFile → Vec3 → option BSPLeaf.

Record BSPModelRenderer := {
  bsp : BSPFile;
  modelMatrix : Mat4;
  headnode : Z;
}.

(** The two tests the walk asks of its collaborators, tagged with the
    tree-walk value at which they are made. *)
Inductive Call :=
  | CallFrustum (nodeid : Z) (box : AABB)
  | CallGetBit (nodeid : Z) (clusterId : Z).

(** What a walk mutates: the two caller-supplied sets (either may be
    [null]), and the sequence of tests made so far, oldest first. *)
Record Gather := {
  liveSurfaceSet : option (gset Z);
  liveLeafSet : option (gset Z);
  calls : list Call;
}.

Definition note (c : Call) (g : Gather) : Gather :=
  {| liveSurfaceSet := liveSurfaceSet g;
     liveLeafSet := liveLeafSet g;
     calls := calls g ++ [c] |}.

Definition addLeaf (leafnum : Z) (g : Gather) : Gather :=
  {| liveSurfaceSet := liveSurfaceSet g;
     liveLeafSet := (λ s, {[leafnum]} ∪ s) <$> liveLeafSet g;
     calls := calls g |}.

Definition addSurfaces (l : list Z) (g : Gather) : Gather :=
  {| liveSurfaceSet := (λ s, list_to_set l ∪ s) <$> liveSurfaceSet g;
     liveLeafSet := liveLeafSet g;
     calls := calls g |}.

Fixpoint gatherSurfaces (fuel : nat) (this : BSPModelRenderer)
    (pvs : BitMap.t) (view : View) (nodeid : Z) (g : Gather) : Res Gather :=
  match fuel with
  | O => OutOfFuel
  | S fuel =>
    if 0 <=? nodeid then
      (* node *)
      match lookupZ (nodelist (bsp this)) nodeid with
      | None => TypeError
      | Some node =>
        let box := transform (node_bbox node) (modelMatrix this) in
        let g := note (CallFrustum nodeid box) g in
        if negb (frustum_contains view box) then Done g
        else
          (g ←r gatherSurfaces fuel this pvs view (child0 node) g;
           gatherSurfaces fuel this pvs view (child1 node) g)%res
      end
    else
      (* leaf *)
      let leafnum := - nodeid - 1 in
      match lookupZ (leaflist (bsp this)) leafnum with
      | None => TypeError
      | Some leaf =>
        let g := note (CallGetBit nodeid (cluster leaf)) g in
        if negb (BitMap.getBit pvs (cluster leaf)) then Done g
        else
          let box := transform (leaf_bbox leaf) (modelMatrix this) in
          let g := note (CallFrustum nodeid box) g in
          if negb (frustum_contains view box) then Done g
          else Done (addSurfaces (surfaces leaf) (addLeaf leafnum g))
      end
  end.

(** The discipline the walk follows at leaves, as a check on a sequence of
    tests: a PVS test is only ever made at a leaf, and a frustum test at a
    leaf comes directly after that leaf's PVS test, which succeeded. *)
Definition callOk (pvs : BitMap.t) (prev : option Call) (c : Call) : bool :=
  match c with
  | CallGetBit nodeid _ => nodeid <? 0
  | CallFrustum nodeid _ =>
    (0 <=? nodeid) ||
    match prev with
    | Some (CallGetBit nodeid' clusterId) =>
      (nodeid' =? nodeid) && BitMap.getBit pvs clusterId
    | _ => false
    end
  end.

Fixpoint leafOrder (pvs : BitMap.t) (prev : option Call) (l : list Call) : bool :=
  match l with
  | [] => true
  | c :: l => callOk pvs prev c && leafOrder pvs (Some c) l
  end.

(** *** [SourceRenderer.calcPVS] and its main-view caller *)

(** [calcPVS] returns a boolean and may have written to the bitmap it was
    given; [pvs.or(undefined)] throws after the bitmap was cleared. *)
Inductive Outcome :=
  | Returned (b : bool) (pvs : BitMap.t)
  | Threw (pvs : BitMap.t).

Definition calcPVS (pvsEnabled : bool) (bsp : BSPFile) (pvs : BitMap.t)
    (view : View) : Outcome :=
  if negb pvsEnabled then Returned false pvs
  else
    (* Compute PVS from view. *)
    let leaf := findLeafForPoint bsp (cameraPos view) in
    match leaf with
    | Some leaf =>
      if negb (cluster leaf =? 0xFFFF) then
        (* Has valid visibility. *)
        let pvs := BitMap.fill false pvs in
        match lookupZ (visibility_pvs bsp) (cluster leaf) with
        | Some o => Returned true (BitMap.or pvs o)
        | None => Threw pvs
        end
      else Returned false pvs
    | None => Returned false pvs
    end.

(** No valid cluster for the camera position: the point is in no leaf, or
    its leaf carries the invalid cluster id. *)
Definition noValidCluster (bsp : BSPFile) (view : View) : Prop :=
  match findLeafForPoint bsp (cameraPos view) with
  | None => True
  | Some leaf => cluster leaf = 0xFFFF
  end.

(** The main-view branch of [SourceRenderer.prepareToRender], for one BSP
    renderer: the state of [pvsScratch] that is handed on to
    [prepareToRenderView]. *)
Definition mainViewPVS (pvsEnabled : bool) (bsp : BSPFile)
    (pvsScratch : BitMap.t) (mainView : View) : Res BitMap.t :=
  match calcPVS pvsEnabled bsp pvsScratch mainView with
  | Returned false pvsScratch =>
    (* No valid PVS, mark everything visible. *)
    Done (BitMap.fill true pvsScratch)
  | Returned true pvsScratch => Done pvsScratch
  | Threw _ => TypeError
  end.

End Walk.

Arguments Build_BSPNode {AABB}.
Arguments Build_BSPLeaf {AABB}.
Arguments Build_BSPFile {AABB}.
Arguments Build_BSPModelRenderer {AABB Mat4}.
Arguments node_bbox {AABB}.
Arguments child0 {AABB}.
Arguments child1 {AABB}.
Arguments leaf_bbox {AABB}.
Arguments cluster {AABB}.
Arguments surfaces {AABB}.
Arguments nodelist {AABB}.
Arguments leaflist {AABB}.
Arguments visibility_pvs {AABB}.
Arguments bsp {AABB Mat4}.
Arguments modelMatrix {AABB Mat4}.
Arguments CallFrustum {AABB}.
Arguments CallGetBit {AABB}.
Arguments liveSurfaceSet {AABB}.
Arguments liveLeafSet {AABB}.
Arguments calls {AABB}.
Arguments Build_Gather {AABB}.
Arguments note {AABB}.
Arguments addLeaf {AABB}.
Arguments addSurfaces {AABB}.
Arguments gatherSurfaces {AABB Mat4 View}.
Arguments leafOrder {AABB}.
Arguments callOk {AABB}.
Arguments calcPVS {AABB Vec3 View}.
Arguments mainViewPVS {AABB Vec3 View}.
Arguments noValidCluster {AABB Vec3 View}.

(** *** What the walk can reach *)

Section Reach.

Variable AABB : Type.
Variable Mat4 : Type.
Variable View : Type.
Variable transform : AABB → Mat4 → AABB.
Variable frustum_contains : View → AABB → bool.

(** A leaf passes both tests of the walk: its cluster is in the PVS and its
    box is in the frustum. *)
Definition leafVisible (this : BSPModelRenderer AABB Mat4) (pvs : BitMap.t)
    (view : View) (leaf : BSPLeaf AABB) : Prop :=
  BitMap.getBit pvs (cluster leaf) = true ∧
  frustum_contains view (transform (leaf_bbox leaf) (modelMatrix this)) = true.

(** [reaches this view nodeid leafnum leaf]: from the tree-walk value
    [nodeid] there is a path to leaf number [leafnum] along which the box of
    every node is in the frustum. *)
Inductive reaches (this : BSPModelRenderer AABB Mat4) (view : View)
    : Z → Z → BSPLeaf AABB → Prop :=
  | reaches_leaf nodeid leaf :
      nodeid < 0 →
      lookupZ (leaflist (bsp this)) (- nodeid - 1) = Some leaf →
      reaches this view nodeid (- nodeid - 1) leaf
  | reaches_child0 nodeid node leafnum leaf :
      0 ≤ nodeid →
      lookupZ (nodelist (bsp this)) nodeid = Some node →
      frustum_contains view (transform (node_bbox node) (modelMatrix this)) = true →
      reaches this view (child0 node) leafnum leaf →
      reaches this view nodeid leafnum leaf
  | reaches_child1 nodeid node leafnum leaf :
      0 ≤ nodeid →
      lookupZ (nodelist (bsp this)) nodeid = Some node →
      frustum_contains view (transform (node_bbox node) (modelMatrix this)) = true →
      reaches this view (child1 node) leafnum leaf →
      reaches this view nodeid leafnum leaf.

(** The leaves, and the surfaces, that a walk from [nodeid] is to gather. *)
Definition liveLeaf (this : BSPModelRenderer AABB Mat4) (pvs : BitMap.t)
    (view : View) (nodeid leafnum : Z) : Prop :=
  ∃ leaf, reaches this view nodeid leafnum leaf ∧ leafVisible this pvs view leaf.

Definition liveSurface (this : BSPModelRenderer AABB Mat4) (pvs : BitMap.t)
    (view : View) (nodeid surfaceIdx : Z) : Prop :=
  ∃ leafnum leaf, reaches this view nodeid leafnum leaf ∧
                  leafVisible this pvs view leaf ∧ surfaceIdx ∈ surfaces leaf.

(** [g'] holds what [g] held and, in each set that is not [null], what
    satisfies the given predicates besides. *)
Definition grown (g g' : Gather AABB) (PL PS : Z → Prop) : Prop :=
  option_Forall2 (λ s s' : gset Z, ∀ l, l ∈ s' ↔ l ∈ s ∨ PL l)
    (liveLeafSet g) (liveLeafSet g') ∧
  option_Forall2 (λ s s' : gset Z, ∀ x, x ∈ s' ↔ x ∈ s ∨ PS x)
    (liveSurfaceSet g) (liveSurfaceSet g').

End Reach.

Arguments grown {AABB}.
Arguments leafVisible {AABB Mat4 View}.
Arguments reaches {AABB Mat4 View}.
Arguments liveLeaf {AABB Mat4 View}.
Arguments liveSurface {AABB Mat4 View}.

(** *** The views of one frame *)

Section Views.

Variable AABB : Type.
Variable Vec3 : Type.
Variable View : Type.
Variable cameraPos : View → Vec3.
Variable findLeafForPoint : BSPFile AABB → Vec3 → option (BSPLeaf AABB).

(** The 3D skybox branch of [SourceRenderer.prepareToRender], for one BSP
    renderer: the state of [pvsScratch] afterwards, and whether the skybox
    view is handed to [prepareToRenderView] ("If our skybox is not in a
    useful spot, then don't render it."). *)
Definition skyboxViewPVS (pvsEnabled : bool) (bsp : BSPFile AABB)
    (pvsScratch : BitMap.t) (skyboxView : View) : Res (BitMap.t * bool) :=
  match calcPVS cameraPos findLeafForPoint pvsEnabled bsp pvsScratch skyboxView with
  | Returned b pvsScratch => Done (pvsScratch, b)
  | Threw _ => TypeError
  end.

(** The PVS work of [SourceRenderer.prepareToRender] for one BSP renderer:
    first the 3D skybox view, if skyboxes are drawn and the level has a sky
    camera, then the main view, both through the one [pvsScratch]. The
    result is the bitmap the skybox view is rendered with, if it is
    rendered, and the bitmap the main view is rendered with. *)
Definition framePVS (drawSkybox3D pvsEnabled : bool) (bsp : BSPFile AABB)
    (skyCameraView : option View) (mainView : View) (pvsScratch : BitMap.t)
    : Res (option BitMap.t * BitMap.t) :=
  (sky ←r match (if drawSkybox3D then skyCameraView else None) with
          | None => Done (pvsScratch, None)
          | Some skyboxView =>
            res_bind (skyboxViewPVS pvsEnabled bsp pvsScratch skyboxView)
              (λ r, Done (r.1, if r.2 then Some r.1 else None))
          end;
   main ←r mainViewPVS cameraPos findLeafForPoint pvsEnabled bsp sky.1 mainView;
   Done (sky.2, main))%res.

End Views.

Arguments skyboxViewPVS {AABB Vec3 View}.
Arguments framePVS {AABB Vec3 View}.

(** *** [BSPSurfaceRenderer.prepareToRender] and [prepareToRenderWorld] *)

Inductive FilterKey :=
  | Skybox
  | Main
  | Translucent.

(** What one call of a surface's [prepareToRender] comes to: it returns
    early, it submits a render instance with a filter key, or
    [assertExists] throws. *)
Inductive Prepared :=
  | NotDrawn
  | Drawn (filterKey : FilterKey)
  | AssertionFailed.

(** Of a material instance, what [prepareToRender] asks: the answer of
    [isMaterialVisible(renderContext)] in this frame, and [isTranslucent]. *)
Record BaseMaterial := {
  isMaterialVisible : bool;
  isTranslucent : bool;
}.

(** The displacement check: the loop over [clusterset] that stops at the
    first cluster whose PVS bit is set. *)
Fixpoint anyClusterVisible (pvs : BitMap.t) (clusterset : list Z) : bool :=
  match clusterset with
  | [] => false
  | c :: clusterset =>
    if BitMap.getBit pvs c then true else anyClusterVisible pvs clusterset
  end.

Section Surfaces.

Variable AABB : Type.
Variable Mat4 : Type.
Variable View : Type.
Variable transform : AABB → Mat4 → AABB.
Variable frustum_contains : View → AABB → bool.

Record BSPSurfaceRenderer := {
  surface_visible : bool;
  materialInstance : option BaseMaterial;
  clusterset : option (list Z);
  surface_bbox : option AABB;
}.

(** [BSPSurfaceRenderer.prepareToRender]; [templateKey] is the filter key of
    the template render instance, which a new render instance inherits. *)
Definition surface_prepareToRender (this : BSPSurfaceRenderer)
    (templateKey : FilterKey) (view : View) (modelMatrix : Mat4)
    (pvs : option BitMap.t) : Prepared :=
  match materialInstance this with
  | None => NotDrawn
  | Some material =>
    if negb (surface_visible this) || negb (isMaterialVisible material)
    then NotDrawn
    else
      let bboxAndDraw :=
        if match surface_bbox this with
           | Some bbox => negb (frustum_contains view (transform bbox modelMatrix))
           | None => false
           end
        then NotDrawn
        else Drawn (if isTranslucent material then Translucent else templateKey) in
      match pvs with
      | Some pvs =>
        (* displacement check *)
        match clusterset this with
        | None => AssertionFailed
        | Some clusterset =>
          if negb (anyClusterVisible pvs clusterset) then NotDrawn
          else bboxAndDraw
        end
      | None => bboxAndDraw
      end
  end.

(** The world-spawn model renderer: the tree it walks, and the surface
    renderers it owns. [surfacesByIdx] is a sparse array. *)
Record WorldModel := {
  tree : BSPModelRenderer AABB Mat4;
  model_visible : bool;
  model_bbox : AABB;
  surfacesByIdx : gmap Z BSPSurfaceRenderer;
  displacementSurfaces : list BSPSurfaceRenderer;
}.

Definition prepareToRenderCommon (this : WorldModel) (view : View) : bool :=
  if negb (model_visible this) then false
  else if negb (frustum_contains view
                  (transform (model_bbox this) (modelMatrix (tree this))))
  then false
  else true.

(** The last loop of [prepareToRenderWorld], over the surfaces gathered. *)
Fixpoint prepareSurfaces (this : WorldModel) (templateKey : FilterKey)
    (view : View) (live : list Z) : Res (list (Z * Prepared)) :=
  match live with
  | [] => Done []
  | surfaceIdx :: live =>
    match surfacesByIdx this !! surfaceIdx with
    | None => TypeError
    | Some surface =>
      (rest ←r prepareSurfaces this templateKey view live;
       Done ((surfaceIdx,
              surface_prepareToRender surface templateKey view
                (modelMatrix (tree this)) None) :: rest))%res
    end
  end.

(** [BSPModelRenderer.prepareToRenderWorld]: what became of each
    displacement surface and of each surface gathered from the tree. The
    gathered surfaces are visited in the order of [elements], which need not
    be the insertion order of the JavaScript [Set]. *)
Definition prepareToRenderWorld (fuel : nat) (this : WorldModel)
    (templateKey : FilterKey) (view : View) (pvs : BitMap.t)
    : Res (list Prepared * list (Z * Prepared)) :=
  if negb (prepareToRenderCommon this view) then Done ([], [])
  else
    (* Render all displacement surfaces. *)
    let displacements :=
      (λ surface, surface_prepareToRender surface templateKey view
                    (modelMatrix (tree this)) (Some pvs))
        <$> displacementSurfaces this in
    (* Gather all BSP surfaces, and cull based on that. *)
    (g ←r gatherSurfaces transform frustum_contains fuel (tree this) pvs view
            (headnode _ _ (tree this))
            {| liveSurfaceSet := Some ∅; liveLeafSet := None; calls := [] |};
     match liveSurfaceSet g with
     | None => TypeError
     | Some live =>
       prepared ←r prepareSurfaces this templateKey view (elements live);
       Done (displacements, prepared)
     end)%res.

End Surfaces.

Arguments surface_visible {AABB}.
Arguments materialInstance {AABB}.
Arguments clusterset {AABB}.
Arguments surface_bbox {AABB}.
Arguments Build_BSPSurfaceRenderer {AABB}.
Arguments surface_prepareToRender {AABB Mat4 View}.
Arguments tree {AABB Mat4}.
Arguments model_visible {AABB Mat4}.
Arguments model_bbox {AABB Mat4}.
Arguments surfacesByIdx {AABB Mat4}.
Arguments displacementSurfaces {AABB Mat4}.
Arguments Build_WorldModel {AABB Mat4}.
Arguments prepareToRenderCommon {AABB Mat4 View}.
Arguments prepareSurfaces {AABB Mat4 View}.
Arguments prepareToRenderWorld {AABB Mat4 View}.

(** A small world used to exercise the walk: boxes are numbered, the view
    is the list of boxes its frustum contains, and a point is the number of
    the leaf it lies in. *)
Module Sample.

Definition transform (box : Z) (_ : unit) : Z := box.
Definition frustum_contains (view : list Z) (box : Z) : bool :=
  bool_decide (box ∈ view).
Definition cameraPos (view : list Z) : Z := default (-1) (head view).

Definition leafA : BSPLeaf Z :=
  {| leaf_bbox := 10; cluster := 0; surfaces := [100; 101] |}.
Definition leafB : BSPLeaf Z :=
  {| leaf_bbox := 11; cluster := 1; surfaces := [101; 102] |}.
Definition leafVoid : BSPLeaf Z :=
  {| leaf_bbox := 12; cluster := 0xFFFF; surfaces := [] |}.

Definition root : BSPNode Z :=
  {| node_bbox := 1; child0 := -1; child1 := -2 |}.

Definition world : BSPFile Z :=
  {| nodelist := [root];
     leaflist := [leafA; leafB; leafVoid];
     visibility_pvs := [ [true; false]; [true; true] ] |}.

Definition findLeafForPoint (b : BSPFile Z) (p : Z) : option (BSPLeaf Z) :=
  lookupZ (leaflist b) p.

Definition renderer : BSPModelRenderer Z unit :=
  {| bsp := world; modelMatrix := (); headnode := 0 |}.

Definition start : Gather Z :=
  {| liveSurfaceSet := Some ∅; liveLeafSet := Some ∅; calls := [] |}.

Definition opaque : BaseMaterial :=
  {| isMaterialVisible := true; isTranslucent := false |}.
Definition glass : BaseMaterial :=
  {| isMaterialVisible := true; isTranslucent := true |}.

Definition face (material : BaseMaterial) (bbox : Z) : BSPSurfaceRenderer Z :=
  {| surface_visible := true; materialInstance := Some material;
     clusterset := None; surface_bbox := Some bbox |}.

Definition displacement : BSPSurfaceRenderer Z :=
  {| surface_visible := true; materialInstance := Some opaque;
     clusterset := Some [1; 0]; surface_bbox := Some 10 |}.

Definition worldModel : WorldModel Z unit :=
  {| tree := renderer; model_visible := true; model_bbox := 1;
     surfacesByIdx :=
       {[ 100 := face opaque 10; 101 := face glass 10; 102 := face opaque 11 ]};
     displacementSurfaces := [displacement] |}.

End Sample.

End BSP.

(** ** Entity system: outputs, the output queue, doors and counters *)

Module Entities.

Local Open Scope Qc_scope.

Record EntityOutputAction := {
  targetName : string;
  inputName : string;
  parameterOverride : string;
  delay : Qc;
  timesToFire : Qc;
}.

Record QueuedOutputEvent := {
  triggerTime : Qc;
  action : EntityOutputAction;
  value : string;
}.

(** [class EntityOutput]: the actions registered on one output. *)
Record EntityOutput := {
  actions : list EntityOutputAction;
}.

Section System.

(** The entity objects themselves. Their classes come and go; the system
    only reads their target name and liveness and calls their [fireInput]
    and [movement] methods. An entity is identified by its position in
    [entities]; no method of the sources adds or removes entities once the
    level is loaded. *)
Variable Entity : Type.

Record EntitySystem := {
  entities : list Entity;
  currentTime : Qc;
  outputQueue : list QueuedOutputEvent;
}.

Definition queueEntityOutputAction (this : EntitySystem)
    (action : EntityOutputAction) (value : string) : EntitySystem :=
  let value :=
    if decide (parameterOverride action ≠ "") then parameterOverride action
    else value in
  let triggerTime := currentTime this + delay action in
  {| entities := entities this;
     currentTime := currentTime this;
     outputQueue := outputQueue this ++
       [ {| action := action; triggerTime := triggerTime; value := value |} ] |}.

(** [EntityOutput.fire(entitySystem, value = '')]. *)
Definition fire (this : EntityOutput) (entitySystem : EntitySystem)
    (value : string) : EntitySystem :=
  foldl (λ es a, queueEntityOutputAction es a value) entitySystem (actions this).

(** The events one [fire] enqueues when the clock reads [now]. *)
Definition firedEvents (this : EntityOutput) (now : Qc) (value : string)
    : list QueuedOutputEvent :=
  (λ a, {| action := a; triggerTime := now + delay a;
           value := if decide (parameterOverride a ≠ "")
                    then parameterOverride a else value |}) <$> actions this.

Variable entity_targetName : Entity → option string.
Variable entity_alive : Entity → bool.

(** [target.fireInput(entitySystem, inputName, value)] and
    [entity.movement(entitySystem, renderContext)], for the entity at a
    given position; both may change the entity, other entities and the
    queue. The render context contributes [globalDeltaTime]. *)
Variable fireInput : nat → string → string → EntitySystem → EntitySystem.
Variable entity_movement : nat → Qc → EntitySystem → EntitySystem.

Definition entityMatchesTargetName (entity : Entity) (targetName : string) : bool :=
  bool_decide (entity_targetName entity = Some targetName).

(** The body of the loop over [this.entities] in [fireEntityOutputAction]. *)
Definition deliver (event : QueuedOutputEvent) (this : EntitySystem) (i : nat)
    : EntitySystem :=
  match entities this !! i with
  | Some target =>
    if negb (entityMatchesTargetName target (targetName (action event)))
    then this
    else fireInput i (inputName (action event)) (value event) this
  | None => this
  end.

Definition fireEntityOutputAction (this : EntitySystem)
    (event : QueuedOutputEvent) : bool * EntitySystem :=
  if decide (currentTime this < triggerTime event) then (false, this)
  else
    (true, foldl (deliver event) this (seq 0 (length (entities this)))).

(** The loop of [processOutputQueue] from index [i] on. The queue length is
    read afresh on every iteration, so events pushed by the handlers of a
    fired event are visited in the same drain. Alongside the system, the
    events for which [fireEntityOutputAction] answered true are collected
    in firing order. *)
Fixpoint processOutputQueueFrom (fuel : nat) (i : nat) (this : EntitySystem)
    : Res (EntitySystem * list QueuedOutputEvent) :=
  match fuel with
  | O => OutOfFuel
  | S fuel =>
    match outputQueue this !! i with
    | None => Done (this, [])
    | Some event =>
      let '(fired, this) := fireEntityOutputAction this event in
      if fired then
        (* this.outputQueue.splice(i--, 1) *)
        let this := {| entities := entities this;
                       currentTime := currentTime this;
                       outputQueue := delete i (outputQueue this) |} in
        res_bind (processOutputQueueFrom fuel i this)
          (λ '(this, log), Done (this, event :: log))
      else processOutputQueueFrom fuel (S i) this
    end
  end.

Definition processOutputQueue (fuel : nat) (this : EntitySystem)
    : Res (EntitySystem * list QueuedOutputEvent) :=
  processOutputQueueFrom fuel 0 this.

Definition moveEntity (deltaTime : Qc) (this : EntitySystem) (i : nat)
    : EntitySystem :=
  match entities this !! i with
  | Some e => if entity_alive e then entity_movement i deltaTime this else this
  | None => this
  end.

(** [EntitySystem.movement]: one tick. *)
Definition movement (fuel : nat) (globalDeltaTime : Qc) (this : EntitySystem)
    : Res (EntitySystem * list QueuedOutputEvent) :=
  res_bind (processOutputQueue fuel this) (λ '(this, log),
    let this := foldl (moveEntity globalDeltaTime) this
                      (seq 0 (length (entities this))) in
    Done ({| entities := entities this;
             currentTime := currentTime this + globalDeltaTime;
             outputQueue := outputQueue this |}, log)).

(** An event is due when the clock has reached its trigger time. *)
Definition due (now : Qc) (event : QueuedOutputEvent) : Prop :=
  triggerTime event <= now.

#[global] Instance due_dec now event : Decision (due now event).
Proof. unfold due. apply _. Defined.

End System.

Arguments entities {Entity}.
Arguments currentTime {Entity}.
Arguments outputQueue {Entity}.
Arguments Build_EntitySystem {Entity}.

(** [es'] is [es] with the same clock and possibly more events queued. *)
Definition extends {Entity} (es es' : EntitySystem Entity) : Prop :=
  currentTime es' = currentTime es ∧
  ∃ pushed, outputQueue es' = outputQueue es ++ pushed.

Section Ticks.

Variable Entity : Type.
Variable entity_targetName : Entity → option string.
Variable entity_alive : Entity → bool.
Variable fireInput : nat → string → string → EntitySystem Entity → EntitySystem Entity.
Variable entity_movement : nat → Qc → EntitySystem Entity → EntitySystem Entity.

(** The loop of [findEntityByTargetName] over the entities still to visit. *)
Fixpoint findEntityFrom (entities : list Entity) (targetName : string)
    : option Entity :=
  match entities with
  | [] => None
  | entity :: entities =>
    if bool_decide (entity_targetName entity = Some targetName) then Some entity
    else findEntityFrom entities targetName
  end.

Definition findEntityByTargetName (this : EntitySystem Entity)
    (targetName : string) : option Entity :=
  findEntityFrom (entities this) targetName.

(** A run of frames: [EntitySystem.movement] called once per frame with the
    [globalDeltaTime] of the frame. The events fired in each frame are
    collected. *)
Fixpoint movements (fuel : nat) (deltas : list Qc) (this : EntitySystem Entity)
    : Res (EntitySystem Entity * list (list QueuedOutputEvent)) :=
  match deltas with
  | [] => Done (this, [])
  | globalDeltaTime :: deltas =>
    res_bind (movement Entity entity_targetName entity_alive fireInput
                entity_movement fuel globalDeltaTime this)
      (λ '(this, log),
         res_bind (movements fuel deltas this)
           (λ '(this, logs), Done (this, log :: logs)))
  end.

End Ticks.

Arguments findEntityFrom {Entity}.
Arguments findEntityByTargetName {Entity}.
Arguments movements {Entity}.

(** *** Vectors of [gl-matrix] *)

Record vec3 := {
  vx : Qc;
  vy : Qc;
  vz : Qc;
}.

Definition vec3_zero : vec3 := {| vx := 0; vy := 0; vz := 0 |}.

(** [vec3.sub(out, a, b)], [vec3.scale(out, a, s)] and
    [vec3.scaleAndAdd(out, a, b, s)], returning what is written to [out]. *)
Definition vec3_sub (a b : vec3) : vec3 :=
  {| vx := vx a - vx b; vy := vy a - vy b; vz := vz a - vz b |}.

Definition vec3_scale (a : vec3) (s : Qc) : vec3 :=
  {| vx := vx a * s; vy := vy a * s; vz := vz a * s |}.

Definition vec3_scaleAndAdd (a b : vec3) (s : Qc) : vec3 :=
  {| vx := vx a + vx b * s; vy := vy a + vy b * s; vz := vz a + vz b * s |}.

#[global] Instance vec3_eq_dec : EqDecision vec3.
Proof. solve_decision. Defined.

Definition vec3_squaredLength (a : vec3) : Qc :=
  vx a * vx a + vy a * vy a + vz a * vz a.

Inductive ToggleState :=
  | Top
  | Bottom
  | GoingToTop
  | GoingToBottom.

#[global] Instance ToggleState_eq_dec : EqDecision ToggleState.
Proof. solve_decision. Defined.

(** [class func_door extends BaseToggle extends BaseEntity], with the fields
    its input handlers and its movement read or write. *)
Record func_door := {
  (* BaseEntity *)
  localOrigin : vec3;
  (* BaseToggle *)
  speed : Qc;
  positionOpened : vec3;
  positionClosed : vec3;
  timeLeftInSeconds : Qc;
  positionTarget : vec3;
  velocityPerSecond : vec3;
  (* func_door *)
  output_onClose : EntityOutput;
  output_onOpen : EntityOutput;
  output_onFullyClosed : EntityOutput;
  output_onFullyOpen : EntityOutput;
  locked : bool;
  toggleState : ToggleState;
}.

Definition set_toggleState (s : ToggleState) (d : func_door) : func_door :=
  {| localOrigin := localOrigin d; speed := speed d;
     positionOpened := positionOpened d; positionClosed := positionClosed d;
     timeLeftInSeconds := timeLeftInSeconds d;
     positionTarget := positionTarget d;
     velocityPerSecond := velocityPerSecond d;
     output_onClose := output_onClose d; output_onOpen := output_onOpen d;
     output_onFullyClosed := output_onFullyClosed d;
     output_onFullyOpen := output_onFullyOpen d;
     locked := locked d; toggleState := s |}.

(** The four fields that [moveToTargetPos] and [movement] write. *)
Definition set_motion (origin : vec3) (timeLeft : Qc) (target velocity : vec3)
    (d : func_door) : func_door :=
  {| localOrigin := origin; speed := speed d;
     positionOpened := positionOpened d; positionClosed := positionClosed d;
     timeLeftInSeconds := timeLeft;
     positionTarget := target;
     velocityPerSecond := velocity;
     output_onClose := output_onClose d; output_onOpen := output_onOpen d;
     output_onFullyClosed := output_onFullyClosed d;
     output_onFullyOpen := output_onFullyOpen d;
     locked := locked d; toggleState := toggleState d |}.

Section Door.

Variable Entity : Type.

(** [Math.sqrt], through which [vec3.length] is computed. *)
Variable sqrt : Qc → Qc.

Definition vec3_length (a : vec3) : Qc := sqrt (vec3_squaredLength a).

Definition hitTop (es : EntitySystem Entity) (this : func_door)
    : EntitySystem Entity * func_door :=
  (fire Entity (output_onFullyOpen this) es "", this).

Definition hitBottom (es : EntitySystem Entity) (this : func_door)
    : EntitySystem Entity * func_door :=
  (fire Entity (output_onFullyClosed this) es "", this).

(** [func_door.moveDone], the override of [BaseToggle]'s abstract method. *)
Definition moveDone (es : EntitySystem Entity) (this : func_door)
    : EntitySystem Entity * func_door :=
  if decide (toggleState this = GoingToTop) then hitTop es this
  else if decide (toggleState this = GoingToBottom) then hitBottom es this
  else (es, this).

(** [BaseToggle.moveToTargetPos]. The quotient is the one of the rationals;
    a zero [speedInSeconds], for which JavaScript yields an infinity or NaN,
    is outside the model, and the statements about this function assume a
    speed other than zero. *)
Definition moveToTargetPos (es : EntitySystem Entity) (this : func_door)
    (positionTarget : vec3) (speedInSeconds : Qc)
    : EntitySystem Entity * func_door :=
  let velocity := vec3_sub positionTarget (localOrigin this) in
  let timeLeft := vec3_length velocity / speedInSeconds in
  let this := set_motion (localOrigin this) timeLeft positionTarget velocity this in
  if decide (timeLeft <= 0) then moveDone es this
  else
    (es, set_motion (localOrigin this) timeLeft positionTarget
           (vec3_scale velocity (1 / timeLeft)) this).

(** [BaseToggle.movement]; the part inherited from [BaseEntity] updates
    model matrices and visibility only and is left out. *)
Definition toggle_movement (es : EntitySystem Entity) (deltaTimeInSeconds : Qc)
    (this : func_door) : EntitySystem Entity * func_door :=
  if decide (0 < timeLeftInSeconds this) then
    (* Apply the velocity. *)
    let origin := vec3_scaleAndAdd (localOrigin this) (velocityPerSecond this)
                    deltaTimeInSeconds in
    let timeLeft := timeLeftInSeconds this - deltaTimeInSeconds in
    (* If we've reached the target position, then we're done. *)
    if decide (timeLeft <= 0) then
      moveDone es
        (set_motion (positionTarget this) 0 (positionTarget this) vec3_zero this)
    else
      (es, set_motion origin timeLeft (positionTarget this)
             (velocityPerSecond this) this)
  else (es, this).

Definition goToTop (es : EntitySystem Entity) (this : func_door)
    : EntitySystem Entity * func_door :=
  let this := set_toggleState GoingToTop this in
  let '(es, this) := moveToTargetPos es this (positionOpened this) (speed this) in
  (fire Entity (output_onOpen this) es "", this).

Definition goToBottom (es : EntitySystem Entity) (this : func_door)
    : EntitySystem Entity * func_door :=
  let this := set_toggleState GoingToBottom this in
  let '(es, this) := moveToTargetPos es this (positionClosed this) (speed this) in
  (fire Entity (output_onClose this) es "", this).

Definition input_close (es : EntitySystem Entity) (this : func_door)
    : EntitySystem Entity * func_door :=
  if decide (toggleState this = Bottom) then (es, this)
  else goToBottom es this.

Definition input_open (es : EntitySystem Entity) (this : func_door)
    : EntitySystem Entity * func_door :=
  if decide (toggleState this = Top ∨ toggleState this = GoingToTop)
  then (es, this)
  else if locked this then (es, this)
  else goToTop es this.

Definition input_toggle (es : EntitySystem Entity) (this : func_door)
    : EntitySystem Entity * func_door :=
  if locked this then (es, this)
  else if decide (toggleState this = Top) then goToTop es this
  else if decide (toggleState this = Bottom) then goToBottom es this
  else (es, this).

(** The door moved through a run of ticks of the given lengths, with no
    input arriving in between. *)
Fixpoint run_ticks (es : EntitySystem Entity) (this : func_door)
    (deltas : list Qc) : EntitySystem Entity * func_door :=
  match deltas with
  | [] => (es, this)
  | dt :: deltas =>
    let '(es, this) := toggle_movement es dt this in
    run_ticks es this deltas
  end.

End Door.

Definition sumQc (l : list Qc) : Qc := foldr Qcplus 0 l.

(** What can happen to a door: one of its three inputs is fired, or a frame
    of the given length passes. *)
Inductive DoorStep :=
  | DoOpen
  | DoClose
  | DoToggle
  | DoTick (deltaTimeInSeconds : Qc).

Section DoorRuns.

Variable Entity : Type.
Variable sqrt : Qc → Qc.

Definition door_step (es : EntitySystem Entity) (this : func_door)
    (step : DoorStep) : EntitySystem Entity * func_door :=
  match step with
  | DoOpen => input_open Entity sqrt es this
  | DoClose => input_close Entity sqrt es this
  | DoToggle => input_toggle Entity sqrt es this
  | DoTick deltaTimeInSeconds => toggle_movement Entity es deltaTimeInSeconds this
  end.

Fixpoint door_run (es : EntitySystem Entity) (this : func_door)
    (steps : list DoorStep) : EntitySystem Entity * func_door :=
  match steps with
  | [] => (es, this)
  | step :: steps =>
    let '(es, this) := door_step es this step in
    door_run es this steps
  end.

End DoorRuns.

(** A door is on track when the way still to go is what its velocity covers
    in the time left. *)
Definition onTrack (this : func_door) : Prop :=
  vec3_scaleAndAdd (localOrigin this) (velocityPerSecond this)
    (timeLeftInSeconds this) = positionTarget this.

(** Once a door has left [Top] or [Bottom] it is under way. *)
Definition underWay (this : func_door) : Prop :=
  toggleState this = GoingToTop ∨ toggleState this = GoingToBottom.

(** The fields of a door that no method writes, and the one that only
    [goToTop] and [goToBottom] write. *)
Definition sameDoor (d d' : func_door) : Prop :=
  speed d' = speed d ∧ positionOpened d' = positionOpened d ∧
  positionClosed d' = positionClosed d ∧ locked d' = locked d ∧
  toggleState d' = toggleState d.

(** *** [math_counter] *)

Record math_counter := {
  min : Qc;
  max : Qc;
  counter_value : Qc;
  minEdgeState : bool;
  maxEdgeState : bool;
  output_outValue : EntityOutput;
  output_onHitMin : EntityOutput;
  output_onHitMax : EntityOutput;
}.

Definition set_value (v : Qc) (c : math_counter) : math_counter :=
  {| min := min c; max := max c; counter_value := v;
     minEdgeState := minEdgeState c; maxEdgeState := maxEdgeState c;
     output_outValue := output_outValue c;
     output_onHitMin := output_onHitMin c;
     output_onHitMax := output_onHitMax c |}.

Definition set_minEdgeState (b : bool) (c : math_counter) : math_counter :=
  {| min := min c; max := max c; counter_value := counter_value c;
     minEdgeState := b; maxEdgeState := maxEdgeState c;
     output_outValue := output_outValue c;
     output_onHitMin := output_onHitMin c;
     output_onHitMax := output_onHitMax c |}.

Definition set_maxEdgeState (b : bool) (c : math_counter) : math_counter :=
  {| min := min c; max := max c; counter_value := counter_value c;
     minEdgeState := minEdgeState c; maxEdgeState := b;
     output_outValue := output_outValue c;
     output_onHitMin := output_onHitMin c;
     output_onHitMax := output_onHitMax c |}.

Section Counter.

Variable Entity : Type.

(** JavaScript's [Number(value)] on the strings the inputs carry. *)
Variable Number : string → Qc.

Definition clampMax (es : EntitySystem Entity) (this : math_counter)
    : EntitySystem Entity * math_counter :=
  if decide (max this ≠ 0) then
    if decide (max this <= counter_value this) then
      let this := set_value (max this) this in
      if negb (maxEdgeState this) then
        (fire Entity (output_onHitMax this) es "", set_maxEdgeState true this)
      else (es, this)
    else (es, set_maxEdgeState false this)
  else (es, this).

Definition clampMin (es : EntitySystem Entity) (this : math_counter)
    : EntitySystem Entity * math_counter :=
  if decide (min this ≠ 0) then
    if decide (counter_value this <= min this) then
      let this := set_value (min this) this in
      if negb (minEdgeState this) then
        (fire Entity (output_onHitMin this) es "", set_minEdgeState true this)
      else (es, this)
    else (es, set_minEdgeState false this)
  else (es, this).

(** [math_counter.updateValue]: the two guarded blocks in sequence, then
    the [outValue] output. *)
Definition updateValue (es : EntitySystem Entity) (this : math_counter) (v : Qc)
    : EntitySystem Entity * math_counter :=
  let this := set_value v this in
  let '(es, this) := clampMax es this in
  let '(es, this) := clampMin es this in
  (fire Entity (output_outValue this) es "", this).

Definition input_add (es : EntitySystem Entity) (this : math_counter)
    (value : string) : EntitySystem Entity * math_counter :=
  let num := Number value in
  updateValue es this (counter_value this + num).

Definition input_subtract (es : EntitySystem Entity) (this : math_counter)
    (value : string) : EntitySystem Entity * math_counter :=
  let num := Number value in
  updateValue es this (counter_value this - num).

End Counter.

(** *** [logic_timer] *)

Record logic_timer := {
  timer_enabled : bool;
  refiretime : Qc;
  nextFireTime : Qc;
  output_onTimer : EntityOutput;
}.

Definition set_timer_enabled (b : bool) (t : logic_timer) : logic_timer :=
  {| timer_enabled := b; refiretime := refiretime t;
     nextFireTime := nextFireTime t; output_onTimer := output_onTimer t |}.

(** What can happen to a timer: [enable] or [disable] is fired at it, or
    the system runs a frame of the given length. *)
Inductive TimerStep :=
  | TimerEnable
  | TimerDisable
  | TimerFrame (globalDeltaTime : Qc).

Section Timer.

Variable Entity : Type.

Definition timer_reset (es : EntitySystem Entity) (this : logic_timer)
    : logic_timer :=
  {| timer_enabled := timer_enabled this; refiretime := refiretime this;
     nextFireTime := currentTime es + refiretime this;
     output_onTimer := output_onTimer this |}.

(** [logic_timer.movement]; the boolean tells whether [onTimer] was fired. *)
Definition timer_movement (es : EntitySystem Entity) (this : logic_timer)
    : EntitySystem Entity * logic_timer * bool :=
  if negb (timer_enabled this) then (es, this, false)
  else if decide (nextFireTime this <= currentTime es) then
    (fire Entity (output_onTimer this) es "", timer_reset es this, true)
  else (es, this, false).

(** A frame as the timer sees it: its [movement], then the clock of the
    system moves on. Alongside, the clock readings at which [onTimer] was
    fired are collected, the earliest first. *)
Definition timer_step (es : EntitySystem Entity) (this : logic_timer)
    (step : TimerStep) : EntitySystem Entity * logic_timer * list Qc :=
  match step with
  | TimerEnable => (es, set_timer_enabled true this, [])
  | TimerDisable => (es, set_timer_enabled false this, [])
  | TimerFrame globalDeltaTime =>
    let '(es1, this, fired) := timer_movement es this in
    ({| entities := entities es1;
        currentTime := currentTime es1 + globalDeltaTime;
        outputQueue := outputQueue es1 |}, this,
     if fired then [currentTime es] else [])
  end.

Fixpoint timer_run (es : EntitySystem Entity) (this : logic_timer)
    (steps : list TimerStep) : EntitySystem Entity * logic_timer * list Qc :=
  match steps with
  | [] => (es, this, [])
  | step :: steps =>
    let '(es, this, fired) := timer_step es this step in
    let '(es, this, later) := timer_run es this steps in
    (es, this, fired ++ later)
  end.

End Timer.

(** *** [trigger_multiple] and [trigger_once] *)

Inductive TriggerClass :=
  | trigger_multiple
  | trigger_once.

Record trigger := {
  classname : TriggerClass;
  trigger_alive : bool;
  trigger_enabled : bool;
  isPlayerTouching : bool;
  output_onTrigger : EntityOutput;
  output_onStartTouch : EntityOutput;
  output_onEndTouch : EntityOutput;
  output_onEndTouchAll : EntityOutput;
}.

Definition set_trigger (alive enabled touching : bool) (t : trigger) : trigger :=
  {| classname := classname t; trigger_alive := alive;
     trigger_enabled := enabled; isPlayerTouching := touching;
     output_onTrigger := output_onTrigger t;
     output_onStartTouch := output_onStartTouch t;
     output_onEndTouch := output_onEndTouch t;
     output_onEndTouchAll := output_onEndTouchAll t |}.

(** The two callbacks of a trigger. *)
Inductive TouchCall :=
  | OnTouch
  | OnUnTouch.

(** What can happen to a trigger: [enable] or [disable] is fired at it, or
    the system runs a frame, in which the sphere test of the camera against
    the box of the trigger gives the stated answer ([None] when the trigger
    has no box or no model matrix). *)
Inductive TriggerStep :=
  | TriggerEnable
  | TriggerDisable
  | TriggerFrame (containsSphere : option bool).

Section Trigger.

Variable Entity : Type.

Definition onTouch (es : EntitySystem Entity) (this : trigger)
    : EntitySystem Entity * trigger :=
  let es := fire Entity (output_onTrigger this) es "" in
  (fire Entity (output_onStartTouch this) es "", this).

(** [onUnTouch], as [trigger_multiple] defines it and [trigger_once]
    overrides it. *)
Definition onUnTouch (es : EntitySystem Entity) (this : trigger)
    : EntitySystem Entity * trigger :=
  let es := fire Entity (output_onEndTouch this) es "" in
  let es := fire Entity (output_onEndTouchAll this) es "" in
  match classname this with
  | trigger_multiple => (es, this)
  | trigger_once =>
    (* this.remove() *)
    (es, set_trigger false (trigger_enabled this) (isPlayerTouching this) this)
  end.

(** [trigger_multiple.movement], without the debug drawing; alongside, the
    callbacks it made. *)
Definition trigger_movement (es : EntitySystem Entity) (this : trigger)
    (containsSphere : option bool)
    : EntitySystem Entity * trigger * list TouchCall :=
  match containsSphere with
  | Some touching =>
    if negb (eqb (isPlayerTouching this) touching) then
      let this := set_trigger (trigger_alive this) (trigger_enabled this)
                    touching this in
      if trigger_enabled this then
        if isPlayerTouching this
        then let '(es, this) := onTouch es this in (es, this, [OnTouch])
        else let '(es, this) := onUnTouch es this in (es, this, [OnUnTouch])
      else (es, this, [])
    else (es, this, [])
  | None => (es, this, [])
  end.

(** A step as the system runs it: [movement] is called on live entities
    only. *)
Definition trigger_step (es : EntitySystem Entity) (this : trigger)
    (step : TriggerStep) : EntitySystem Entity * trigger * list TouchCall :=
  match step with
  | TriggerEnable =>
    (es, set_trigger (trigger_alive this) true (isPlayerTouching this) this, [])
  | TriggerDisable =>
    (es, set_trigger (trigger_alive this) false (isPlayerTouching this) this, [])
  | TriggerFrame containsSphere =>
    if trigger_alive this then trigger_movement es this containsSphere
    else (es, this, [])
  end.

Fixpoint trigger_run (es : EntitySystem Entity) (this : trigger)
    (steps : list TriggerStep) : EntitySystem Entity * trigger * list TouchCall :=
  match steps with
  | [] => (es, this, [])
  | step :: steps =>
    let '(es, this, calls) := trigger_step es this step in
    let '(es, this, later) := trigger_run es this steps in
    (es, this, calls ++ later)
  end.

End Trigger.

#[global] Instance EntityOutputAction_eq_dec : EqDecision EntityOutputAction.
Proof. solve_decision. Defined.

#[global] Instance QueuedOutputEvent_eq_dec : EqDecision QueuedOutputEvent.
Proof. solve_decision. Defined.

(** A small level used to exercise the system: relays, doors and counters,
    addressed by target name. Numbers in strings are unsigned decimal
    integers, and the square root is taken on numerator and denominator,
    which is exact on the squares of rationals. *)
Module Sample.

Definition Q (n : Z) : Qc := Q2Qc (inject_Z n).

Definition sqrt (q : Qc) : Qc :=
  Q2Qc (Qmake (Z.sqrt (Qnum q)) (Pos.sqrt (Qden q))).

Fixpoint digits (s : string) (acc : Z) : Z :=
  match s with
  | EmptyString => acc
  | String c s => digits s (10 * acc + (Z.of_N (Ascii.N_of_ascii c) - 48))%Z
  end.

Definition Number (s : string) : Qc := Q (digits s 0).

Inductive Entity :=
  | Relay (name : string) (onTrigger : EntityOutput)
  | Door (name : string) (d : func_door)
  | Counter (name : string) (c : math_counter).

Definition entity_targetName (e : Entity) : option string :=
  match e with
  | Relay name _ | Door name _ | Counter name _ => Some name
  end.

Definition entity_alive (e : Entity) : bool := true.

Definition store (i : nat) (e : Entity) (es : EntitySystem Entity)
    : EntitySystem Entity :=
  {| entities := <[i := e]> (entities es);
     currentTime := currentTime es;
     outputQueue := outputQueue es |}.

(** [BaseEntity.fireInput]: look the handler up by name; an unknown input
    is logged and changes nothing. *)
Definition fireInput (i : nat) (inputName value : string)
    (es : EntitySystem Entity) : EntitySystem Entity :=
  match entities es !! i with
  | Some (Relay name onTrigger) =>
    if decide (inputName = "trigger") then fire Entity onTrigger es ""
    else es
  | Some (Door name d) =>
    if decide (inputName = "open") then
      let '(es, d) := input_open Entity sqrt es d in store i (Door name d) es
    else if decide (inputName = "close") then
      let '(es, d) := input_close Entity sqrt es d in store i (Door name d) es
    else if decide (inputName = "toggle") then
      let '(es, d) := input_toggle Entity sqrt es d in store i (Door name d) es
    else es
  | Some (Counter name c) =>
    if decide (inputName = "add") then
      let '(es, c) := input_add Entity Number es c value in
      store i (Counter name c) es
    else if decide (inputName = "subtract") then
      let '(es, c) := input_subtract Entity Number es c value in
      store i (Counter name c) es
    else es
  | None => es
  end.

Definition entity_movement (i : nat) (dt : Qc) (es : EntitySystem Entity)
    : EntitySystem Entity :=
  match entities es !! i with
  | Some (Door name d) =>
    let '(es, d) := toggle_movement Entity es dt d in store i (Door name d) es
  | _ => es
  end.

Definition tick (fuel : nat) (dt : Qc) (es : EntitySystem Entity) :=
  movement Entity entity_targetName entity_alive fireInput entity_movement
    fuel dt es.

(** The events fired by each of a run of ticks of the same length. *)
Fixpoint ticks (n : nat) (fuel : nat) (dt : Qc) (es : EntitySystem Entity)
    : Res (EntitySystem Entity * list (list QueuedOutputEvent)) :=
  match n with
  | O => Done (es, [])
  | S n =>
    res_bind (tick fuel dt es) (λ '(es, log),
      res_bind (ticks n fuel dt es) (λ '(es, logs), Done (es, log :: logs)))
  end.

Definition act (target input param : string) (delay : Qc) : EntityOutputAction :=
  {| targetName := target; inputName := input; parameterOverride := param;
     delay := delay; timesToFire := Q (-1) |}.

Definition out (l : list EntityOutputAction) : EntityOutput := {| actions := l |}.

Definition origin : vec3 := {| vx := 0; vy := 0; vz := 0 |}.
Definition raised : vec3 := {| vx := 0; vy := 0; vz := Q 50 |}.

(** A closed door, 50 units below its open position, moving at 100 units
    per second, whose outputs report to the counter. *)
Definition door : func_door :=
  {| localOrigin := origin; speed := Q 100;
     positionOpened := raised; positionClosed := origin;
     timeLeftInSeconds := 0; positionTarget := origin;
     velocityPerSecond := origin;
     output_onClose := out [];
     output_onOpen := out [act "count" "add" "1" 0];
     output_onFullyClosed := out [];
     output_onFullyOpen := out [act "count" "add" "5" 0];
     locked := false; toggleState := Bottom |}.

Definition counter : math_counter :=
  {| min := 0; max := Q 10; counter_value := Q 8;
     minEdgeState := false; maxEdgeState := false;
     output_outValue := out [act "nobody" "trigger" "" 0];
     output_onHitMin := out [];
     output_onHitMax := out [act "nobody" "trigger" "" 0] |}.

(** A counter without bounds: both [min] and [max] are left at 0. *)
Definition unbounded : math_counter :=
  {| min := 0; max := 0; counter_value := 0;
     minEdgeState := false; maxEdgeState := false;
     output_outValue := out [];
     output_onHitMin := out [act "relay" "trigger" "" 0];
     output_onHitMax := out [act "relay" "trigger" "" 0] |}.

Definition relay : EntityOutput := out [act "door" "open" "" (Q 2)].

Definition level : EntitySystem Entity :=
  {| entities := [Relay "relay" relay; Door "door" door; Counter "count" counter];
     currentTime := 0;
     outputQueue := [] |}.

(** A timer that fires every two seconds, and a trigger that fires once. *)
Definition timer : logic_timer :=
  {| timer_enabled := true; refiretime := Q 2; nextFireTime := 0;
     output_onTimer := out [act "count" "add" "1" 0] |}.

Definition once : trigger :=
  {| classname := trigger_once; trigger_alive := true;
     trigger_enabled := true; isPlayerTouching := false;
     output_onTrigger := out [act "door" "open" "" 0];
     output_onStartTouch := out [];
     output_onEndTouch := out [act "door" "close" "" (Q 1)];
     output_onEndTouchAll := out [] |}.

End Sample.

End Entities.

(** ** J3D model rendering: skinning matrices and shape draws *)

Module J3D.

Local Open Scope Qc_scope.

(** *** Matrices of [gl-matrix] *)

(** A [mat4] is an array of 16 numbers in column-major order; the fields
    carry the names [gl-matrix] gives them, [mCR] for column [C], row [R],
    in array order. *)
Record mat4 := {
  m00 : Qc; m01 : Qc; m02 : Qc; m03 : Qc;
  m10 : Qc; m11 : Qc; m12 : Qc; m13 : Qc;
  m20 : Qc; m21 : Qc; m22 : Qc; m23 : Qc;
  m30 : Qc; m31 : Qc; m32 : Qc; m33 : Qc;
}.

#[global] Instance mat4_eq_dec : EqDecision mat4.
Proof. solve_decision. Defined.

(** The same operation on all sixteen entries, and on the entries of two
    matrices pairwise. *)
Definition mat4_map (f : Qc → Qc) (a : mat4) : mat4 :=
  {| m00 := f (m00 a); m01 := f (m01 a); m02 := f (m02 a); m03 := f (m03 a);
     m10 := f (m10 a); m11 := f (m11 a); m12 := f (m12 a); m13 := f (m13 a);
     m20 := f (m20 a); m21 := f (m21 a); m22 := f (m22 a); m23 := f (m23 a);
     m30 := f (m30 a); m31 := f (m31 a); m32 := f (m32 a); m33 := f (m33 a) |}.

Definition mat4_map2 (f : Qc → Qc → Qc) (a b : mat4) : mat4 :=
  {| m00 := f (m00 a) (m00 b); m01 := f (m01 a) (m01 b);
     m02 := f (m02 a) (m02 b); m03 := f (m03 a) (m03 b);
     m10 := f (m10 a) (m10 b); m11 := f (m11 a) (m11 b);
     m12 := f (m12 a) (m12 b); m13 := f (m13 a) (m13 b);
     m20 := f (m20 a) (m20 b); m21 := f (m21 a) (m21 b);
     m22 := f (m22 a) (m22 b); m23 := f (m23 a) (m23 b);
     m30 := f (m30 a) (m30 b); m31 := f (m31 a) (m31 b);
     m32 := f (m32 a) (m32 b); m33 := f (m33 a) (m33 b) |}.

(** [dst.fill(0)] and [mat4.identity(out)]. *)
Definition mat4_zero : mat4 :=
  {| m00 := 0; m01 := 0; m02 := 0; m03 := 0;
     m10 := 0; m11 := 0; m12 := 0; m13 := 0;
     m20 := 0; m21 := 0; m22 := 0; m23 := 0;
     m30 := 0; m31 := 0; m32 := 0; m33 := 0 |}.

Definition mat4_identity : mat4 :=
  {| m00 := 1; m01 := 0; m02 := 0; m03 := 0;
     m10 := 0; m11 := 1; m12 := 0; m13 := 0;
     m20 := 0; m21 := 0; m22 := 1; m23 := 0;
     m30 := 0; m31 := 0; m32 := 0; m33 := 1 |}.

(** [mat4.mul(out, a, b)]: each column of [out] is [a] applied to the
    corresponding column of [b]. *)
Definition mat4_mul (a b : mat4) : mat4 :=
  {| m00 := m00 b * m00 a + m01 b * m10 a + m02 b * m20 a + m03 b * m30 a;
     m01 := m00 b * m01 a + m01 b * m11 a + m02 b * m21 a + m03 b * m31 a;
     m02 := m00 b * m02 a + m01 b * m12 a + m02 b * m22 a + m03 b * m32 a;
     m03 := m00 b * m03 a + m01 b * m13 a + m02 b * m23 a + m03 b * m33 a;
     m10 := m10 b * m00 a + m11 b * m10 a + m12 b * m20 a + m13 b * m30 a;
     m11 := m10 b * m01 a + m11 b * m11 a + m12 b * m21 a + m13 b * m31 a;
     m12 := m10 b * m02 a + m11 b * m12 a + m12 b * m22 a + m13 b * m32 a;
     m13 := m10 b * m03 a + m11 b * m13 a + m12 b * m23 a + m13 b * m33 a;
     m20 := m20 b * m00 a + m21 b * m10 a + m22 b * m20 a + m23 b * m30 a;
     m21 := m20 b * m01 a + m21 b * m11 a + m22 b * m21 a + m23 b * m31 a;
     m22 := m20 b * m02 a + m21 b * m12 a + m22 b * m22 a + m23 b * m32 a;
     m23 := m20 b * m03 a + m21 b * m13 a + m22 b * m23 a + m23 b * m33 a;
     m30 := m30 b * m00 a + m31 b * m10 a + m32 b * m20 a + m33 b * m30 a;
     m31 := m30 b * m01 a + m31 b * m11 a + m32 b * m21 a + m33 b * m31 a;
     m32 := m30 b * m02 a + m31 b * m12 a + m32 b * m22 a + m33 b * m32 a;
     m33 := m30 b * m03 a + m31 b * m13 a + m32 b * m23 a + m33 b * m33 a |}.

(** [mat4.multiplyScalarAndAdd(out, a, b, scale)]: [a + b * scale]. *)
Definition mat4_multiplyScalarAndAdd (a b : mat4) (scale : Qc) : mat4 :=
  mat4_map2 (λ x y, x + y * scale) a b.

(** [mat4.add] and [mat4.multiplyScalar], in which sums of weighted
    matrices are written. *)
Definition mat4_add (a b : mat4) : mat4 := mat4_map2 Qcplus a b.
Definition mat4_multiplyScalar (a : mat4) (s : Qc) : mat4 :=
  mat4_map (λ x, x * s) a.

(** [IntersectionState] of [../Camera]. *)
Inductive IntersectionState :=
  | FULLY_INSIDE
  | FULLY_OUTSIDE
  | PARTIAL_INTERSECT.

#[global] Instance IntersectionState_eq_dec : EqDecision IntersectionState.
Proof. solve_decision. Defined.

(** *** [BMDModelInstance.updateMatrixArray], second pass *)

Inductive DRW1Joint :=
  | NormalJoint (jointIndex : Z)
  | WeightedJoint (envelopeIndex : Z).

Record WeightedBone := {
  weight : Qc;
  index : Z;
}.

Record Envelope := {
  weightedBones : list WeightedBone;
}.

Record ShapeInstanceState := {
  matrixArray : list mat4;
  matrixVisibility : list IntersectionState;
}.

#[global] Instance ShapeInstanceState_eq_dec : EqDecision ShapeInstanceState.
Proof. solve_decision. Defined.

(** What the second pass reads: the model's weight tables, and the joint
    matrices and joint visibilities as [updateJointMatrixHierarchy] left
    them. The two joint arrays have one entry per bone, and the two arrays of
    the shape instance state one entry per weight entry: each pair is
    created with a common length and never resized, and the model reads
    them pairwise. *)
Record Skeleton := {
  drw1Joints : list DRW1Joint;
  envelopes : list Envelope;
  inverseBinds : list mat4;
  jointMatrices : list mat4;
  jointVisibility : list IntersectionState;
}.

(** The inner loop over [envelope.weightedBones], accumulating into [dst]. *)
Fixpoint blend (sk : Skeleton) (bones : list WeightedBone) (dst : mat4) : Res mat4 :=
  match bones with
  | [] => Done dst
  | weightedBone :: bones =>
    match lookupZ (inverseBinds sk) (index weightedBone),
          lookupZ (jointMatrices sk) (index weightedBone) with
    | Some inverseBindPose, Some jointMatrix =>
      let matrixScratch := mat4_mul jointMatrix inverseBindPose in
      blend sk bones (mat4_multiplyScalarAndAdd dst matrixScratch (weight weightedBone))
    | _, _ => TypeError
    end
  end.

(** One iteration of the loop over [drw1.drw1Joints]. *)
Definition updateJoint (sk : Skeleton) (i : nat) (joint : DRW1Joint)
    (st : ShapeInstanceState) : Res ShapeInstanceState :=
  match matrixArray st !! i with
  | None => TypeError
  | Some _ =>
    match joint with
    | NormalJoint jointIndex =>
      match lookupZ (jointMatrices sk) jointIndex,
            lookupZ (jointVisibility sk) jointIndex with
      | Some m, Some v =>
        Done {| matrixArray := <[i := m]> (matrixArray st);
                matrixVisibility := <[i := v]> (matrixVisibility st) |}
      | _, _ => TypeError
      end
    | WeightedJoint envelopeIndex =>
      match lookupZ (envelopes sk) envelopeIndex with
      | None => TypeError
      | Some envelope =>
        (dst ←r blend sk (weightedBones envelope) mat4_zero;
         (* TODO(jstpierre): Frustum cull weighted joints. *)
         Done {| matrixArray := <[i := dst]> (matrixArray st);
                 matrixVisibility := <[i := FULLY_INSIDE]> (matrixVisibility st) |})%res
      end
    end
  end.

Fixpoint updateJointsFrom (sk : Skeleton) (i : nat) (joints : list DRW1Joint)
    (st : ShapeInstanceState) : Res ShapeInstanceState :=
  match joints with
  | [] => Done st
  | joint :: joints =>
    (st ←r updateJoint sk i joint st; updateJointsFrom sk (S i) joints st)%res
  end.

(** The loop "Update weighted joint matrices" of [updateMatrixArray]. *)
Definition updateMatrixArray (sk : Skeleton) (st : ShapeInstanceState)
    : Res ShapeInstanceState :=
  updateJointsFrom sk 0 (drw1Joints sk) st.

(** The weighted terms of an envelope: each bone's weight with its joint
    matrix times its inverse bind pose. *)
Definition term (sk : Skeleton) (b : WeightedBone) : option (Qc * mat4) :=
  ib ← lookupZ (inverseBinds sk) (index b);
  jm ← lookupZ (jointMatrices sk) (index b);
  Some (weight b, mat4_mul jm ib).

(** The joint matrix each bone of an envelope refers to, with its weight. *)
Definition referenced (sk : Skeleton) (b : WeightedBone) : option (Qc * mat4) :=
  jm ← lookupZ (jointMatrices sk) (index b);
  Some (weight b, jm).

(** [Σ weight_i * M_i]. *)
Definition weightedSum (terms : list (Qc * mat4)) : mat4 :=
  foldr (λ t acc, mat4_add (mat4_multiplyScalar t.2 t.1) acc) mat4_zero terms.

Definition totalWeight (terms : list (Qc * mat4)) : Qc :=
  foldr (λ t acc, t.1 + acc) 0 terms.

(** [Σ weight_i * M_i / Σ weight_i]. *)
Definition weightedAverage (terms : list (Qc * mat4)) : mat4 :=
  mat4_multiplyScalar (weightedSum terms) (1 / totalWeight terms).

(** What a weight entry resolves to. *)
Definition resolved (sk : Skeleton) (joint : DRW1Joint) (m : mat4)
    (v : IntersectionState) : Prop :=
  match joint with
  | NormalJoint jointIndex =>
    lookupZ (jointMatrices sk) jointIndex = Some m ∧
    lookupZ (jointVisibility sk) jointIndex = Some v
  | WeightedJoint envelopeIndex =>
    ∃ envelope terms,
      lookupZ (envelopes sk) envelopeIndex = Some envelope ∧
      mapM (term sk) (weightedBones envelope) = Some terms ∧
      m = weightedSum terms ∧ v = FULLY_INSIDE
  end.

(** *** [Command_Shape.draw] *)

Record Packet := {
  matrixTable : list Z;
}.

(** What a draw asks of the render helper and the shape helpers. *)
Inductive GfxCall :=
  | BindPacketParams (u_PosMtx : list mat4)
  | DrawSimple (p : nat).

(** What a draw mutates: the [u_PosMtx] slots of the command's
    [packetParams], the module-level [posMtxVisibility] (both of ten slots),
    the calls made so far, oldest first, and the draw call statistic. *)
Record DrawState := {
  u_PosMtx : list mat4;
  posMtxVisibility : list IntersectionState;
  gfx : list GfxCall;
  drawCallCount : nat;
}.

(** "Update our matrix table": the loop over [packet.matrixTable] from
    position [i] on. [matrixArray] and [matrixVisibility] are read pairwise,
    and slot [i] of [posMtxVisibility] exists whenever slot [i] of
    [u_PosMtx] does. *)
Fixpoint updateMatrixTable (modelView : mat4) (sis : ShapeInstanceState)
    (table : list Z) (i : nat) (needsUpload : bool) (st : DrawState)
    : Res (bool * DrawState) :=
  match table with
  | [] => Done (needsUpload, st)
  | matrixIndex :: table =>
    (* Leave existing matrix. *)
    if (matrixIndex =? 0xFFFF)%Z then
      updateMatrixTable modelView sis table (S i) needsUpload st
    else
      match lookupZ (matrixArray sis) matrixIndex,
            lookupZ (matrixVisibility sis) matrixIndex,
            u_PosMtx st !! i with
      | Some posMtx, Some visibility, Some _ =>
        updateMatrixTable modelView sis table (S i) true
          {| u_PosMtx := <[i := mat4_mul modelView posMtx]> (u_PosMtx st);
             posMtxVisibility := <[i := visibility]> (posMtxVisibility st);
             gfx := gfx st;
             drawCallCount := drawCallCount st |}
      | _, _, _ => TypeError
      end
  end.

(** Entry [j] of a matrix table leaves its slot alone: it is the sentinel,
    or the table has no such entry. *)
Definition keeps (table : list Z) (j : nat) : Prop :=
  table !! j = None ∨ table !! j = Some 0xFFFF%Z.

(** "If all matrices are invisible, we can cull." *)
Definition frustumCull (posMtxVisibility : list IntersectionState) : bool :=
  forallb (λ v, bool_decide (v = FULLY_OUTSIDE)) posMtxVisibility.

Definition call (c : GfxCall) (st : DrawState) : DrawState :=
  {| u_PosMtx := u_PosMtx st; posMtxVisibility := posMtxVisibility st;
     gfx := gfx st ++ [c]; drawCallCount := drawCallCount st |}.

(** The loop over [this.shape.packets] from packet [p] on, and what
    follows it. *)
Fixpoint drawPackets (modelView : mat4) (sis : ShapeInstanceState)
    (packets : list Packet) (p : nat) (needsUpload : bool) (st : DrawState)
    : Res DrawState :=
  match packets with
  | [] =>
    Done {| u_PosMtx := u_PosMtx st; posMtxVisibility := posMtxVisibility st;
            gfx := gfx st; drawCallCount := S (drawCallCount st) |}
  | packet :: packets =>
    res_bind (updateMatrixTable modelView sis (matrixTable packet) 0 needsUpload st)
      (λ '(needsUpload, st),
        if frustumCull (posMtxVisibility st) then
          (* return *)
          Done st
        else
          let st := if needsUpload then call (BindPacketParams (u_PosMtx st)) st
                    else st in
          let st := call (DrawSimple p) st in
          drawPackets modelView sis packets (S p) false st)
  end.

(** [Command_Shape.draw], given the matrix [computeModelView] returns. *)
Definition draw (modelView : mat4) (packets : list Packet)
    (sis : ShapeInstanceState) (st : DrawState) : Res DrawState :=
  drawPackets modelView sis packets 0 false st.

(** *** [BMDModelInstance.updateJointMatrixHierarchy] *)

(** A node of the scene graph, as the traversals read it: its type, with
    the index that goes with the type, and its children. *)
Inductive HierarchyType :=
  | Joint (jointIdx : Z)
  | Material (materialIdx : Z)
  | Shape (shapeIdx : Z)
  | Passthrough.

#[warnings="-register-all"] Inductive HierarchyNode :=
  | Node (type : HierarchyType) (children : list HierarchyNode).

(** The parent matrix is passed by reference: it is the scratch matrix the
    traversal starts from, which the traversal does not write, or the entry
    of [jointMatrices] of an enclosing joint. *)
Inductive MatrixRef :=
  | Scratch (m : mat4)
  | JointMatrix (jointIndex : Z).

(** [jointMatrices] and [jointVisibility] of the model instance, created
    with one entry per bone each. *)
Record Joints := {
  matrices : list mat4;
  visibility : list IntersectionState;
}.

Definition readMatrix (ref : MatrixRef) (st : Joints) : option mat4 :=
  match ref with
  | Scratch m => Some m
  | JointMatrix jointIndex => lookupZ (matrices st) jointIndex
  end.

(** The loops over [node.children]. *)
Fixpoint visitChildren {S : Type} (visit : HierarchyNode → S → Res S)
    (children : list HierarchyNode) (st : S) : Res S :=
  match children with
  | [] => Done st
  | child :: children =>
    (st ←r visit child st; visitChildren visit children st)%res
  end.

(** The joint indices of a scene graph, in the order of the traversal. *)
Fixpoint jointIndices (node : HierarchyNode) : list Z :=
  match node with
  | Node (Joint jointIdx) children => jointIdx :: flat_map jointIndices children
  | Node _ children => flat_map jointIndices children
  end.

(** The entries outside [J] are what they were, and the two arrays have
    kept their lengths. *)
Definition untouched (J : list Z) (st st' : Joints) : Prop :=
  length (matrices st') = length (matrices st) ∧
  length (visibility st') = length (visibility st) ∧
  ∀ j, j ∉ J →
    lookupZ (matrices st') j = lookupZ (matrices st) j ∧
    lookupZ (visibility st') j = lookupZ (visibility st) j.

Section Hierarchy.

Variable AABB : Type.

Record Bone := {
  bone_matrix : mat4;
  bone_bbox : AABB;
}.

(** [jnt1.bones]; [bbox.transform(src, m)] and [frustum.intersect(bbox)] of
    [../Camera]; and the answer of the animator for a joint, [None] when
    there is no animator or [calcJointMatrix] returns false. *)
Variable bones : list Bone.
Variable bbox_transform : AABB → mat4 → AABB.
Variable frustum_intersect : AABB → IntersectionState.
Variable calcJointMatrix : Z → option mat4.

Definition boneMatrix (jointIndex : Z) (bone : Bone) : mat4 :=
  default (bone_matrix bone) (calcJointMatrix jointIndex).

Fixpoint updateJointMatrixHierarchy (node : HierarchyNode)
    (parentJointMatrix : MatrixRef) (st : Joints) : Res Joints :=
  match node with
  | Node (Joint jointIndex) children =>
    match lookupZ bones jointIndex, lookupZ (matrices st) jointIndex,
          readMatrix parentJointMatrix st with
    | Some bone, Some _, Some parent =>
      let dstJointMatrix := mat4_mul parent (boneMatrix jointIndex bone) in
      (* Frustum cull. *)
      let bbox := bbox_transform (bone_bbox bone) dstJointMatrix in
      let st :=
        {| matrices := <[Z.to_nat jointIndex := dstJointMatrix]> (matrices st);
           visibility := <[Z.to_nat jointIndex := frustum_intersect bbox]>
                           (visibility st) |} in
      (* Now update children. *)
      visitChildren
        (λ child, updateJointMatrixHierarchy child (JointMatrix jointIndex))
        children st
    | _, _, _ => TypeError
    end
  | Node _ children =>
    (* Pass through. *)
    visitChildren
      (λ child, updateJointMatrixHierarchy child parentJointMatrix)
      children st
  end.

(** A joint of the scene graph with the matrix its place in the graph gives
    it: the matrix of the nearest enclosing joint, or the matrix the
    traversal starts from, times its bone matrix. *)
Inductive jointAt : HierarchyNode → mat4 → Z → Bone → mat4 → Prop :=
  | jointAt_here jointIdx children parent bone :
      lookupZ bones jointIdx = Some bone →
      jointAt (Node (Joint jointIdx) children) parent jointIdx bone
        (mat4_mul parent (boneMatrix jointIdx bone))
  | jointAt_below_joint jointIdx children parent bone child j b m :
      lookupZ bones jointIdx = Some bone →
      child ∈ children →
      jointAt child (mat4_mul parent (boneMatrix jointIdx bone)) j b m →
      jointAt (Node (Joint jointIdx) children) parent j b m
  | jointAt_below type children parent child j b m :
      (∀ jointIdx, type ≠ Joint jointIdx) →
      child ∈ children →
      jointAt child parent j b m →
      jointAt (Node type children) parent j b m.

(** Every joint of the graph below [node] has its matrix and its
    visibility in [st']. *)
Definition placed (node : HierarchyNode) (pv : mat4) (st' : Joints) : Prop :=
  ∀ j b m, jointAt node pv j b m →
    lookupZ (matrices st') j = Some m ∧
    lookupZ (visibility st') j
    = Some (frustum_intersect (bbox_transform (bone_bbox b) m)).

(** What a completed traversal of [node] achieves, whatever the parent
    matrix it is given, as long as writing the joints of [node] cannot
    change that matrix. *)
Definition node_ok (node : HierarchyNode) : Prop :=
  ∀ parent st st' pv,
    updateJointMatrixHierarchy node parent st = Done st' →
    NoDup (jointIndices node) →
    length (visibility st) = length (matrices st) →
    readMatrix parent st = Some pv →
    (∀ jp, parent = JointMatrix jp → jp ∉ jointIndices node) →
    untouched (jointIndices node) st st' ∧ placed node pv st'.

End Hierarchy.

Arguments bone_matrix {AABB}.
Arguments bone_bbox {AABB}.
Arguments Build_Bone {AABB}.
Arguments boneMatrix {AABB}.
Arguments updateJointMatrixHierarchy {AABB}.
Arguments jointAt {AABB}.
Arguments placed {AABB}.
Arguments node_ok {AABB}.

(** A shape instance with three weight entries, the second of them outside
    the frustum, and the ten slots as they are before the first draw. *)
Module Sample.

Definition scaling (s : Qc) : mat4 := mat4_multiplyScalar mat4_identity s.

Definition two : Qc := Q2Qc (inject_Z 2).
Definition three : Qc := Q2Qc (inject_Z 3).
Definition half : Qc := Q2Qc (1 # 2).

Definition sis : ShapeInstanceState :=
  {| matrixArray := [scaling 1; scaling two; scaling three];
     matrixVisibility := [FULLY_INSIDE; FULLY_OUTSIDE; PARTIAL_INTERSECT] |}.

Definition fresh : DrawState :=
  {| u_PosMtx := replicate 10 mat4_identity;
     posMtxVisibility := replicate 10 FULLY_INSIDE;
     gfx := []; drawCallCount := 0 |}.

(** A packet whose ten entries all refer to the hidden weight entry, and a
    packet that brings a visible weight entry into slot 0. *)
Definition hidden : Packet := {| matrixTable := replicate 10 1%Z |}.
Definition shown : Packet := {| matrixTable := [0%Z] |}.
Definition reuse : Packet := {| matrixTable := [0xFFFF%Z; 2%Z] |}.

Definition skeleton : Skeleton :=
  {| drw1Joints := [NormalJoint 1; WeightedJoint 0];
     envelopes := [ {| weightedBones := [ {| weight := half; index := 0 |};
                                          {| weight := half; index := 1 |} ] |} ];
     inverseBinds := [mat4_identity; mat4_identity];
     jointMatrices := [scaling 1; scaling three];
     jointVisibility := [FULLY_OUTSIDE; PARTIAL_INTERSECT] |}.

Definition blank : ShapeInstanceState :=
  {| matrixArray := replicate 2 mat4_identity;
     matrixVisibility := replicate 2 FULLY_INSIDE |}.

(** A scene graph of two joints, the second below the first, with boxes
    that are numbers; the frustum holds box 0 only, and nothing is
    animated. *)
Definition skeletonBones : list (Bone Z) :=
  [ {| bone_matrix := scaling two; bone_bbox := 0%Z |};
    {| bone_matrix := scaling three; bone_bbox := 1%Z |} ].

Definition sceneGraph : HierarchyNode :=
  Node Passthrough
    [ Node (Joint 0)
        [ Node (Material 0) [ Node (Shape 0) [] ];
          Node (Joint 1) [] ] ].

Definition bbox_transform (bbox : Z) (m : mat4) : Z := bbox.

Definition frustum_intersect (bbox : Z) : IntersectionState :=
  if (bbox =? 0)%Z then FULLY_INSIDE else FULLY_OUTSIDE.

Definition calcJointMatrix (jointIndex : Z) : option mat4 := None.

Definition bindPose : Joints :=
  {| matrices := replicate 2 mat4_identity;
     visibility := replicate 2 FULLY_INSIDE |}.

End Sample.

End J3D.

(** * Properties *)

(** ** The BSP walk *)

Section WalkFacts.

Import BSP.

Context {AABB Mat4 Vec3 View : Type}.
Variable transform : AABB → Mat4 → AABB.
Variable frustum_contains : View → AABB → bool.

Local Abbreviation gather := (gatherSurfaces transform frustum_contains).

Lemma lookupZ_nonneg {A} (a : list A) (i : Z) :
  0 ≤ i → lookupZ a i = a !! Z.to_nat i.
Proof. intros Hi. unfold lookupZ. by rewrite (proj2 (Z.ltb_ge i 0) Hi). Qed.

Lemma decode_encode (i : Z) : decodeLeaf (encodeLeaf i) = i.
Proof. unfold decodeLeaf, encodeLeaf. lia. Qed.

Lemma encode_negative (i : Z) : 0 ≤ i → encodeLeaf i < 0.
Proof. unfold encodeLeaf. lia. Qed.

(** A walk that starts at a leaf never recurses. *)
Lemma gather_leaf_fuel fuel this pvs view nodeid g :
  nodeid < 0 →
  gather (S fuel) this pvs view nodeid g = gather 1%nat this pvs view nodeid g.
Proof.
  intros Hneg. simpl. by rewrite (proj2 (Z.leb_gt 0 nodeid) Hneg).
Qed.

Lemma leafOrder_weaken pvs (prev : option (Call AABB)) l :
  leafOrder pvs None l = true → leafOrder pvs prev l = true.
Proof.
  destruct l as [|c l]; [done|]. simpl.
  intros [Hc Hl]%andb_prop. rewrite Hl, andb_true_r.
  destruct c; simpl in *; [|done].
  rewrite orb_false_r in Hc. by rewrite Hc.
Qed.

Lemma leafOrder_app pvs (prev : option (Call AABB)) l1 l2 :
  leafOrder pvs prev l1 = true → leafOrder pvs None l2 = true →
  leafOrder pvs prev (l1 ++ l2) = true.
Proof.
  revert prev. induction l1 as [|c l1 IH]; intros prev H1 H2; simpl in *.
  - by apply leafOrder_weaken.
  - apply andb_prop in H1 as [Hc H1]. rewrite Hc. simpl. by apply IH.
Qed.

(** Every completed walk only appends to the sequence of tests, and what it
    appends follows the leaf discipline. *)
Lemma gather_calls fuel this pvs view nodeid g g' :
  gather fuel this pvs view nodeid g = Done g' →
  ∃ l, calls g' = calls g ++ l ∧ leafOrder pvs None l = true.
Proof.
  revert nodeid g g'. induction fuel as [|fuel IH]; intros nodeid g g'; [done|].
  simpl. destruct (0 <=? nodeid) eqn:Hsign.
  - destruct (lookupZ _ nodeid) as [node|]; [|done].
    destruct (frustum_contains _ _) eqn:Hf; simpl.
    + destruct (gather fuel this pvs view (child0 node) _) as [g1| |] eqn:H0;
        simpl; [|done..].
      intros H1. apply IH in H0 as (l0 & E0 & O0). apply IH in H1 as (l1 & E1 & O1).
      exists (CallFrustum nodeid (transform (node_bbox node) (modelMatrix this))
              :: l0 ++ l1).
      split.
      * rewrite E1, E0. simpl. by rewrite <- !app_assoc.
      * simpl. rewrite Hsign. simpl. apply leafOrder_app; [|done].
        by apply leafOrder_weaken.
    + intros [= <-]. eexists [_]. split; [done|]. simpl. by rewrite Hsign.
  - destruct (lookupZ _ _) as [leaf|]; [|done].
    apply Z.leb_gt in Hsign. pose proof (proj2 (Z.ltb_lt nodeid 0) Hsign) as Hlt.
    destruct (BitMap.getBit pvs (cluster leaf)) eqn:Hbit; simpl.
    + destruct (frustum_contains _ _); simpl; intros [= <-];
        (eexists [_; _]; split; [simpl; by rewrite <- app_assoc|]);
        simpl; rewrite Hlt, Z.eqb_refl, Hbit; simpl; by rewrite orb_true_r.
    + intros [= <-]. eexists [_]. split; [done|]. simpl. by rewrite Hlt.
Qed.

(** C1. The leaf encoding [-i-1] of a non-negative index is negative and
    decodes back to [i]; the walk takes a negative value for the leaf at the
    decoded index (it reads that leaf, never recurses, and records that
    index in the live leaf set), and a non-negative value for the node at
    that index of the node list, descending into its two children. *)
Theorem leaf_index_encoding_roundtrip (i : Z) :
  0 ≤ i →
  encodeLeaf i < 0 ∧ decodeLeaf (encodeLeaf i) = i ∧
  (∀ fuel this pvs view g,
     gather (S fuel) this pvs view (encodeLeaf i) g =
       match leaflist (bsp this) !! Z.to_nat i with
       | None => TypeError
       | Some leaf =>
         let g1 := note (CallGetBit (encodeLeaf i) (cluster leaf)) g in
         let box := transform (leaf_bbox leaf) (modelMatrix this) in
         let g2 := note (CallFrustum (encodeLeaf i) box) g1 in
         if BitMap.getBit pvs (cluster leaf) then
           if frustum_contains view box
           then Done (addSurfaces (surfaces leaf) (addLeaf i g2))
           else Done g2
         else Done g1
       end) ∧
  (∀ fuel this pvs view g,
     gather (S fuel) this pvs view i g =
       match nodelist (bsp this) !! Z.to_nat i with
       | None => TypeError
       | Some node =>
         let box := transform (node_bbox node) (modelMatrix this) in
         let g1 := note (CallFrustum i box) g in
         if frustum_contains view box then
           (g2 ←r gather fuel this pvs view (child0 node) g1;
            gather fuel this pvs view (child1 node) g2)%res
         else Done g1
       end).
Proof.
  intros Hi. split; [by apply encode_negative|]. split; [apply decode_encode|].
  split; intros fuel this pvs view g; simpl.
  - pose proof (encode_negative i Hi) as Hneg.
    rewrite (proj2 (Z.leb_gt 0 (encodeLeaf i)) Hneg).
    replace (- encodeLeaf i - 1) with i by (unfold encodeLeaf; lia).
    rewrite lookupZ_nonneg by done.
    destruct (leaflist (bsp this) !! Z.to_nat i) as [leaf|]; [|done].
    destruct (BitMap.getBit pvs (cluster leaf)); simpl; [|done].
    by destruct (frustum_contains _ _).
  - rewrite (proj2 (Z.leb_le 0 i) Hi), lookupZ_nonneg by done.
    destruct (nodelist (bsp this) !! Z.to_nat i) as [node|]; [|done].
    by destruct (frustum_contains _ _).
Qed.

(** C8, as the code has it. At a node the bounding box is tested against the
    frustum first, and a disjoint box ends the visit of the subtree. At a
    leaf the PVS bit of the leaf's cluster is tested first: a leaf outside
    the PVS is skipped without any frustum test, and the frustum test is made
    only after the PVS test has passed. In every completed walk each frustum
    test at a leaf directly follows the successful PVS test of that leaf. *)
Theorem gather_early_out_order fuel this pvs view nodeid (g : Gather AABB) :
  (∀ node, 0 ≤ nodeid → nodelist (bsp this) !! Z.to_nat nodeid = Some node →
     let box := transform (node_bbox node) (modelMatrix this) in
     frustum_contains view box = false →
     gather (S fuel) this pvs view nodeid g = Done (note (CallFrustum nodeid box) g)) ∧
  (∀ leaf, nodeid < 0 →
     leaflist (bsp this) !! Z.to_nat (decodeLeaf nodeid) = Some leaf →
     let box := transform (leaf_bbox leaf) (modelMatrix this) in
     let g1 := note (CallGetBit nodeid (cluster leaf)) g in
     (BitMap.getBit pvs (cluster leaf) = false →
        gather (S fuel) this pvs view nodeid g = Done g1) ∧
     (BitMap.getBit pvs (cluster leaf) = true →
        frustum_contains view box = false →
        gather (S fuel) this pvs view nodeid g =
          Done (note (CallFrustum nodeid box) g1))) ∧
  (∀ g', gather fuel this pvs view nodeid g = Done g' →
     ∃ l, calls g' = calls g ++ l ∧ leafOrder pvs None l = true).
Proof.
  split; [|split].
  - intros node Hsign Hnode box Hf. simpl.
    rewrite (proj2 (Z.leb_le 0 nodeid) Hsign), lookupZ_nonneg, Hnode by done.
    fold box. by rewrite Hf.
  - intros leaf Hsign Hleaf box g1. simpl.
    rewrite (proj2 (Z.leb_gt 0 nodeid) Hsign).
    unfold decodeLeaf in Hleaf. rewrite lookupZ_nonneg, Hleaf by lia.
    fold g1 box. split.
    + by intros ->.
    + intros -> Hf. simpl. by rewrite Hf.
  - intros g'. apply gather_calls.
Qed.

End WalkFacts.

Lemma leaf_index_encoding_roundtrip_witness :
  BSP.encodeLeaf 1 < 0 ∧ BSP.decodeLeaf (BSP.encodeLeaf 1) = 1 ∧
  BSP.gatherSurfaces BSP.Sample.transform BSP.Sample.frustum_contains 1
    BSP.Sample.renderer [true; true] [11] (-2) BSP.Sample.start
  = Done (BSP.addSurfaces [101; 102] (BSP.addLeaf 1
      (BSP.note (BSP.CallFrustum (-2) 11)
         (BSP.note (BSP.CallGetBit (-2) 1) BSP.Sample.start)))).
Proof.
  destruct (leaf_index_encoding_roundtrip
              BSP.Sample.transform BSP.Sample.frustum_contains 1 ltac:(lia))
    as (Hneg & Hdec & Hleaf & _).
  split; [exact Hneg|]. split; [exact Hdec|].
  change (-2) with (BSP.encodeLeaf 1). rewrite Hleaf. reflexivity.
Defined.

Lemma gather_early_out_order_witness :
  BSP.gatherSurfaces BSP.Sample.transform BSP.Sample.frustum_contains 3
    BSP.Sample.renderer [true; false] [] 0 BSP.Sample.start
  = Done (BSP.note (BSP.CallFrustum 0 1) BSP.Sample.start).
Proof.
  refine (proj1 (gather_early_out_order
                   BSP.Sample.transform BSP.Sample.frustum_contains 2
                   BSP.Sample.renderer [true; false] [] 0 BSP.Sample.start)
                BSP.Sample.root _ _ _); [lia | reflexivity | reflexivity].
Defined.

(** C8, as the spec words it, fails at a leaf: leaf 1 of the sample world
    lies inside the frustum but outside the PVS, and the walk returns after
    the PVS test alone, having made no frustum test at all. *)
Lemma leaf_outside_pvs_is_not_frustum_tested :
  ∃ g', BSP.gatherSurfaces BSP.Sample.transform BSP.Sample.frustum_contains 1
          BSP.Sample.renderer [true; false] [10; 11; 1] (-2) BSP.Sample.start
        = Done g' ∧
        BSP.calls g' = [BSP.CallGetBit (-2) 1] ∧
        ¬ ∃ box l, BSP.calls g' = BSP.CallFrustum (-2) box :: l.
Proof.
  eexists. split; [reflexivity|]. split; [reflexivity|].
  intros (box & l & H). discriminate H.
Qed.

(** ** PVS computation *)

Section PVSFacts.

Import BSP.

Context {AABB Vec3 View : Type}.
Variable cameraPos : View → Vec3.
Variable findLeafForPoint : BSPFile AABB → Vec3 → option (BSPLeaf AABB).

Local Abbreviation calc := (calcPVS cameraPos findLeafForPoint).
Local Abbreviation mainPVS := (mainViewPVS cameraPos findLeafForPoint).
Local Abbreviation noValidCluster := (BSP.noValidCluster cameraPos findLeafForPoint).

Lemma fill_length v (m : BitMap.t) : length (BitMap.fill v m) = length m.
Proof. unfold BitMap.fill. apply length_replicate. Qed.

Lemma fill_getBit v (m : BitMap.t) (n : Z) :
  0 ≤ n < Z.of_nat (length m) → BitMap.getBit (BitMap.fill v m) n = v.
Proof.
  intros Hn. unfold BitMap.getBit, BitMap.fill.
  rewrite (proj2 (Z.ltb_ge n 0)) by lia.
  rewrite lookup_replicate_2 by lia. done.
Qed.

Lemma calcPVS_false_inv pvsEnabled bsp pvs view pvs' :
  calc pvsEnabled bsp pvs view = Returned false pvs' →
  pvs' = pvs ∧ (pvsEnabled = false ∨ noValidCluster bsp view).
Proof.
  unfold calcPVS, BSP.noValidCluster. destruct pvsEnabled; simpl.
  - destruct (findLeafForPoint _ _) as [leaf|].
    + destruct (cluster leaf =? 65535) eqn:Hc; simpl.
      * intros [= <-]. apply Z.eqb_eq in Hc. auto.
      * by destruct (lookupZ _ _).
    + intros [= <-]. auto.
  - intros [= <-]. auto.
Qed.

(** C3. When the camera position has no valid cluster, [calcPVS] returns
    false, and the main-view caller hands on a bitmap of the same size in
    which every bit is set. *)
Theorem pvs_fallback_all_visible pvsEnabled bsp (pvs : BitMap.t) view :
  noValidCluster bsp view →
  calc pvsEnabled bsp pvs view = Returned false pvs ∧
  mainPVS pvsEnabled bsp pvs view = Done (BitMap.fill true pvs) ∧
  length (BitMap.fill true pvs) = length pvs ∧
  ∀ n, 0 ≤ n < Z.of_nat (length pvs) →
       BitMap.getBit (BitMap.fill true pvs) n = true.
Proof.
  intros Hno.
  assert (calc pvsEnabled bsp pvs view = Returned false pvs) as Hcalc.
  { unfold calcPVS, BSP.noValidCluster in *. destruct pvsEnabled; simpl; [|done].
    destruct (findLeafForPoint _ _) as [leaf|]; [|done].
    by rewrite Hno. }
  split; [done|]. split; [unfold mainViewPVS; by rewrite Hcalc|].
  split; [apply fill_length|]. intros n Hn. by apply fill_getBit.
Qed.

(** C9. Whenever [calcPVS] returns false the bitmap it was given is exactly
    as it was, and it returns false only when PVS rendering is disabled or
    the camera position has no valid cluster. A call that returns true has
    cleared the bitmap and merged the cluster's visibility row into it. *)
Theorem calcPVS_false_leaves_bitmap pvsEnabled bsp (pvs : BitMap.t) view b pvs' :
  calc pvsEnabled bsp pvs view = Returned b pvs' →
  (b = false → pvs' = pvs ∧ (pvsEnabled = false ∨ noValidCluster bsp view)) ∧
  (b = true → ∃ leaf row,
     findLeafForPoint bsp (cameraPos view) = Some leaf ∧
     lookupZ (visibility_pvs bsp) (cluster leaf) = Some row ∧
     pvs' = BitMap.or (BitMap.fill false pvs) row).
Proof.
  intros H. split.
  - intros ->. by apply calcPVS_false_inv.
  - intros ->. unfold calcPVS in H. destruct pvsEnabled; simpl in H; [|done].
    destruct (findLeafForPoint _ _) as [leaf|]; [|done].
    destruct (cluster leaf =? 65535); simpl in H; [done|].
    destruct (lookupZ _ _) as [row|] eqn:Hrow; [|done].
    injection H as <-. by exists leaf, row.
Qed.

End PVSFacts.

Lemma pvs_fallback_all_visible_witness :
  BSP.calcPVS BSP.Sample.cameraPos BSP.Sample.findLeafForPoint true
    BSP.Sample.world [false; true] [2] = BSP.Returned false [false; true] ∧
  BSP.mainViewPVS BSP.Sample.cameraPos BSP.Sample.findLeafForPoint true
    BSP.Sample.world [false; true] [2] = Done [true; true].
Proof.
  destruct (pvs_fallback_all_visible BSP.Sample.cameraPos
              BSP.Sample.findLeafForPoint true BSP.Sample.world
              [false; true] [2] eq_refl) as (H1 & H2 & _).
  split; [exact H1 | exact H2].
Defined.

Lemma calcPVS_false_leaves_bitmap_witness :
  BSP.calcPVS BSP.Sample.cameraPos BSP.Sample.findLeafForPoint true
    BSP.Sample.world [false; true] [7] = BSP.Returned false [false; true] ∧
  (true = false ∨
   BSP.noValidCluster BSP.Sample.cameraPos BSP.Sample.findLeafForPoint
     BSP.Sample.world [7]).
Proof.
  split; [reflexivity|].
  exact (proj2 (proj1 (calcPVS_false_leaves_bitmap BSP.Sample.cameraPos
                         BSP.Sample.findLeafForPoint true BSP.Sample.world
                         [false; true] [7] false [false; true] eq_refl)
                      eq_refl)).
Defined.

(** ** The output queue *)

Section QueueFacts.

Import Entities.
Local Open Scope Qc_scope.

Context {Entity : Type}.
Variable entity_targetName : Entity → option string.
Variable entity_alive : Entity → bool.
Variable fireInput : nat → string → string → EntitySystem Entity → EntitySystem Entity.
Variable entity_movement : nat → Qc → EntitySystem Entity → EntitySystem Entity.

Local Abbreviation fireAction := (fireEntityOutputAction Entity entity_targetName fireInput).
Local Abbreviation drainFrom := (processOutputQueueFrom Entity entity_targetName fireInput).
Local Abbreviation drain := (processOutputQueue Entity entity_targetName fireInput).
Local Abbreviation tick :=
  (movement Entity entity_targetName entity_alive fireInput entity_movement).

Lemma queueEntityOutputAction_fire_one (es : EntitySystem Entity) a value :
  queueEntityOutputAction Entity es a value =
  {| entities := entities es;
     currentTime := currentTime es;
     outputQueue := outputQueue es ++
       firedEvents {| actions := [a] |} (currentTime es) value |}.
Proof. done. Qed.

Lemma fire_spec (out : EntityOutput) (es : EntitySystem Entity) value :
  fire Entity out es value =
  {| entities := entities es;
     currentTime := currentTime es;
     outputQueue := outputQueue es ++
       firedEvents out (currentTime es) value |}.
Proof.
  destruct out as [acts]. unfold fire, firedEvents. simpl.
  revert es. induction acts as [|a acts IH]; intros es; simpl.
  - rewrite app_nil_r. by destruct es.
  - rewrite IH. simpl. by rewrite <- app_assoc.
Qed.

Section DrainInvariant.

(** The drain is analysed for handlers that never move the clock and touch
    the queue only by pushing to it, where what they push satisfies some
    property [P] that holds of nothing and is kept by concatenation. *)
Variable P : list QueuedOutputEvent → Prop.
Hypothesis P_nil : P [].
Hypothesis P_app : ∀ l1 l2, P l1 → P l2 → P (l1 ++ l2).
Hypothesis handler_time : ∀ i n v es,
  currentTime (fireInput i n v es) = currentTime es.
Hypothesis handler_queue : ∀ i n v es, ∃ pushed,
  P pushed ∧ outputQueue (fireInput i n v es) = outputQueue es ++ pushed.

Lemma deliver_all_spec event (l : list nat) (es : EntitySystem Entity) :
  let es' := foldl (deliver Entity entity_targetName fireInput event) es l in
  currentTime es' = currentTime es ∧
  ∃ pushed, P pushed ∧ outputQueue es' = outputQueue es ++ pushed.
Proof.
  revert es. induction l as [|i l IH]; intros es; simpl.
  - split; [done|]. exists []. by rewrite app_nil_r.
  - destruct (IH (deliver Entity entity_targetName fireInput event es i))
      as (Ht & p2 & HP2 & Hq).
    assert (currentTime (deliver Entity entity_targetName fireInput event es i)
            = currentTime es ∧
            ∃ p1, P p1 ∧
                  outputQueue (deliver Entity entity_targetName fireInput event es i)
                  = outputQueue es ++ p1) as (Ht1 & p1 & HP1 & Hq1).
    { unfold deliver. destruct (entities es !! i) as [target|].
      - destruct (negb _).
        + split; [done|]. exists []. by rewrite app_nil_r.
        + split; [apply handler_time | apply handler_queue].
      - split; [done|]. exists []. by rewrite app_nil_r. }
    split; [by rewrite Ht|]. exists (p1 ++ p2).
    split; [by apply P_app|]. by rewrite Hq, Hq1, <- app_assoc.
Qed.

Lemma fireAction_not_due (es : EntitySystem Entity) event :
  ¬ due (currentTime es) event → fireAction es event = (false, es).
Proof.
  intros Hnd. unfold fireEntityOutputAction.
  destruct (decide _) as [|Hge]; [done|].
  exfalso. apply Hnd. unfold due. by apply Qcnot_lt_le.
Qed.

Lemma fireAction_due (es : EntitySystem Entity) event :
  due (currentTime es) event →
  ∃ es', fireAction es event = (true, es') ∧
         es' = foldl (deliver Entity entity_targetName fireInput event) es
                     (seq 0 (length (entities es))) ∧
         currentTime es' = currentTime es ∧
         ∃ pushed, P pushed ∧
                   outputQueue es' = outputQueue es ++ pushed.
Proof.
  intros Hd. unfold fireEntityOutputAction.
  destruct (decide _) as [Hlt|_].
  - exfalso. by apply (Qcle_not_lt _ _ Hd).
  - eexists. split; [done|]. split; [done|]. apply deliver_all_spec.
Qed.

(** The loop invariant of the drain: the events before index [i] stay
    where they are, and the rest of the queue, together with whatever the
    handlers push meanwhile, is split into the due events, which are fired
    in order and removed, and the others, which stay. *)
Lemma drainFrom_spec fuel (kept rest : list QueuedOutputEvent)
    (es es' : EntitySystem Entity) log :
  outputQueue es = kept ++ rest →
  drainFrom fuel (length kept) es = Done (es', log) →
  ∃ pushed, P pushed ∧
    log = filter (due (currentTime es)) (rest ++ pushed) ∧
    outputQueue es' =
      kept ++ filter (λ e, ¬ due (currentTime es) e) (rest ++ pushed) ∧
    currentTime es' = currentTime es.
Proof.
  revert kept rest es es' log.
  induction fuel as [|fuel IH]; intros kept rest es es' log Hq; [done|].
  simpl. rewrite Hq. destruct rest as [|event rest].
  - rewrite app_nil_r in *. rewrite lookup_ge_None_2 by lia.
    intros [= <- <-]. exists []. simpl. by rewrite app_nil_r.
  - rewrite list_lookup_middle by done.
    destruct (decide (due (currentTime es) event)) as [Hd|Hnd].
    + destruct (fireAction_due es event Hd)
        as (es1 & -> & _ & Ht1 & p1 & HP1 & Hq1).
      rewrite Hq, <- app_assoc in Hq1. simpl in Hq1.
      rewrite Hq1, delete_middle.
      set (es2 := {| entities := _; currentTime := _; outputQueue := _ |}).
      destruct (drainFrom fuel (length kept) es2) as [[es3 log3]| |] eqn:Hrec;
        simpl; [|done..].
      intros [= <- <-].
      apply (IH kept (rest ++ p1)) in Hrec as (p2 & HP2 & Hlog & Hq3 & Ht3);
        [|done].
      simpl in Hlog, Hq3, Ht3. rewrite Ht1 in Hlog, Hq3, Ht3.
      exists (p1 ++ p2). split; [by apply P_app|].
      rewrite !app_assoc in *. simpl.
      rewrite filter_cons_True by done.
      rewrite (filter_cons_False (λ e, ¬ due _ e)) by (intros H; by apply H).
      by rewrite Hlog, Hq3, Ht3, <- !app_assoc.
    + rewrite (fireAction_not_due es event Hnd).
      replace (S (length kept)) with (length (kept ++ [event]))
        by (rewrite length_app; simpl; lia).
      intros Hrec.
      apply (IH (kept ++ [event]) rest) in Hrec
        as (p & HP & Hlog & Hq' & Ht'); [|by rewrite <- app_assoc].
      exists p. split; [done|]. simpl.
      rewrite filter_cons_False by done.
      rewrite (filter_cons_True (λ e, ¬ due _ e)) by done.
      by rewrite Hlog, Hq', Ht', <- app_assoc.
Qed.

End DrainInvariant.


(** What the handlers of the sources guarantee: an input handler never
    moves the clock, and it touches the queue only by pushing to it (through
    [EntityOutput.fire]). *)
Hypothesis fireInput_time : ∀ i n v es,
  currentTime (fireInput i n v es) = currentTime es.
Hypothesis fireInput_queue : ∀ i n v es, ∃ pushed,
  outputQueue (fireInput i n v es) = outputQueue es ++ pushed.


End QueueFacts.

(** ** Arithmetic on the rationals *)

(** Order goals on [Qc] are sent to [Q], where [lra] decides them. *)
Ltac qc_order :=
  unfold Qcle, Qclt, Qcminus, Qcdiv, Qcplus, Qcmult, Qcopp, Q2Qc in *;
  simpl in *; rewrite ?Qred_correct in *; lra.

Lemma Qc_sub_le_0 (a b : Qc) : (a - b <= 0 ↔ a <= b)%Qc.
Proof. split; intros H; qc_order. Qed.

Lemma Qc_le_0_lt (a : Qc) : (a <= 0 → ¬ 0 < a)%Qc.
Proof. intros H1 H2. qc_order. Qed.

Lemma Qc_div_pos (a s : Qc) : (0 < a → 0 < s → 0 < a / s)%Qc.
Proof.
  intros Ha Hs. unfold Qcdiv, Qclt, Qcmult, Qcinv, Q2Qc in *. simpl in *.
  rewrite !Qred_correct.
  apply Qmult_lt_0_compat; [done|]. by apply Qinv_lt_0_compat.
Qed.

Lemma Qc_squares_zero (x y z : Qc) :
  (x * x + y * y + z * z <= 0 → x = 0 ∧ y = 0 ∧ z = 0)%Qc.
Proof.
  intros H.
  assert ((this x == 0)%Q ∧ (this y == 0)%Q ∧ (this z == 0)%Q) as (Hx & Hy & Hz).
  { unfold Qcle, Qcplus, Qcmult, Q2Qc in H. simpl in H.
    rewrite !Qred_correct in H. repeat split; nra. }
  repeat split; by apply Qc_is_canon.
Qed.

Lemma Qc_sub_zero (a b : Qc) : (a - b = 0 → a = b)%Qc.
Proof. intros H. rewrite <- (Qcplus_0_l b), <- H. ring. Qed.

Lemma sample_sqrt_pos (q : Qc) : (0 < q → 0 < Entities.Sample.sqrt q)%Qc.
Proof.
  intros Hq.
  assert (0 < Qnum q)%Z as Hnum.
  { unfold Qclt, Qlt in Hq. simpl in Hq. lia. }
  assert (0 < Qred (Z.sqrt (Qnum q) # Pos.sqrt (Qden q)))%Q as H.
  { rewrite Qred_correct. unfold Qlt. simpl. rewrite Z.mul_1_r.
    by apply Z.sqrt_pos. }
  exact H.
Qed.

Lemma sumQc_nonneg (l : list Qc) :
  Forall (λ dt, 0 <= dt)%Qc l → (0 <= Entities.sumQc l)%Qc.
Proof.
  induction 1 as [|dt l Hdt _ IH]; simpl.
  - apply Qcle_refl.
  - qc_order.
Qed.

(** ** [func_door] *)

Section DoorFacts.

Import Entities.
Local Open Scope Qc_scope.

Context {Entity : Type}.
Variable sqrt : Qc → Qc.

Local Abbreviation open := (input_open Entity sqrt).
Local Abbreviation run := (run_ticks Entity).

(** A vector of length zero is the zero vector, given that the square root
    of a positive number is positive. *)
Lemma vec3_length_le_0 (a b : vec3) :
  (∀ q, 0 < q → 0 < sqrt q) →
  vec3_length sqrt (vec3_sub a b) <= 0 → b = a.
Proof.
  intros Hsqrt Hlen. unfold vec3_length in Hlen.
  destruct (Qclt_le_dec 0 (vec3_squaredLength (vec3_sub a b))) as [Hpos|Hle].
  - exfalso. apply Hsqrt in Hpos. by apply (Qcle_not_lt _ _ Hlen).
  - apply Qc_squares_zero in Hle as (Hx & Hy & Hz).
    destruct a, b. simpl in *.
    apply Qc_sub_zero in Hx, Hy, Hz. by subst.
Qed.

Lemma moveDone_GoingToTop (es : EntitySystem Entity) d :
  toggleState d = GoingToTop →
  moveDone Entity es d = (fire Entity (output_onFullyOpen d) es "", d).
Proof. intros H. unfold moveDone, hitTop. by rewrite decide_True. Qed.

(** A door at rest does not move. *)
Lemma run_ticks_idle (es : EntitySystem Entity) d dts :
  timeLeftInSeconds d = 0 → run es d dts = (es, d).
Proof.
  intros H0. induction dts as [|dt dts IH]; simpl; [done|].
  unfold toggle_movement. rewrite H0.
  rewrite decide_False by (apply Qc_le_0_lt, Qcle_refl). done.
Qed.

(** A door going to the top, moved through ticks of non-negative length:
    as long as the ticks add up to less than the time left it keeps moving
    and fires nothing; from then on it rests at its target, having fired
    [onFullyOpen] once. Its toggle state is [GoingToTop] throughout. *)
Lemma run_ticks_GoingToTop (es : EntitySystem Entity) d dts :
  toggleState d = GoingToTop →
  0 < timeLeftInSeconds d →
  Forall (λ dt, 0 <= dt) dts →
  ∃ d', toggleState d' = GoingToTop ∧
    ((sumQc dts < timeLeftInSeconds d ∧
      run es d dts = (es, d') ∧
      timeLeftInSeconds d' = timeLeftInSeconds d - sumQc dts) ∨
     (timeLeftInSeconds d <= sumQc dts ∧
      run es d dts = (fire Entity (output_onFullyOpen d) es "", d') ∧
      localOrigin d' = positionTarget d ∧
      timeLeftInSeconds d' = 0)).
Proof.
  intros Hst Hleft Hdts. revert d Hst Hleft.
  induction Hdts as [|dt dts Hdt Hdts IH]; intros d Hst Hleft; simpl.
  - exists d. split; [done|]. left. split; [done|]. split; [done|]. ring.
  - unfold toggle_movement. rewrite decide_True by done.
    destruct (decide (timeLeftInSeconds d - dt <= 0)) as [Harr|Hmov].
    + rewrite moveDone_GoingToTop by done.
      set (d1 := set_motion _ _ _ _ d).
      exists d1. split; [done|]. right.
      split.
      { pose proof (sumQc_nonneg dts Hdts). apply Qc_sub_le_0 in Harr. qc_order. }
      split; [by apply run_ticks_idle|]. done.
    + set (d1 := set_motion _ _ _ _ d).
      assert (0 < timeLeftInSeconds d1) as Hleft1.
      { simpl. apply Qcnot_le_lt in Hmov. done. }
      destruct (IH d1 Hst Hleft1) as (d' & Hst' & [(Hsum & Hrun & Ht)|(Hsum & Hrun & Ho & Ht)]).
      * exists d'. split; [done|]. left. simpl in *.
        split; [qc_order|]. split; [done|]. rewrite Ht. ring.
      * exists d'. split; [done|]. right. simpl in *.
        split; [qc_order|]. done.
Qed.

(** What the [open] input does, as the code has it, apart from the state on
    arrival. The [open] input does nothing when the door is
    at the top, going to the top, or locked. Otherwise, for a speed other
    than zero, the door enters [GoingToTop] and the [onOpen] output is fired
    at once; when the opened position is some way off (the time left,
    distance over speed, is positive) the door starts moving towards it with
    the velocity that takes exactly that time, and when no time is left
    [onFullyOpen] is fired at once as well; for a positive speed no time is
    left only if the door already is at its opened position. A moving door fires [onFullyOpen] once, in the tick in
    which the elapsed time reaches the time left, and is then placed at its
    target. The toggle state stays [GoingToTop]; it does not become [Top]. *)
Theorem func_door_open (es : EntitySystem Entity) (d : func_door) :
  (toggleState d = Top ∨ toggleState d = GoingToTop ∨ locked d = true →
   open es d = (es, d)) ∧
  (toggleState d ≠ Top → toggleState d ≠ GoingToTop → locked d = false →
   speed d ≠ 0 →
   let d0 := set_toggleState GoingToTop d in
   let diff := vec3_sub (positionOpened d) (localOrigin d) in
   let timeLeft := vec3_length sqrt diff / speed d in
   (0 < timeLeft →
    open es d =
      (fire Entity (output_onOpen d) es "",
       set_motion (localOrigin d) timeLeft (positionOpened d)
         (vec3_scale diff (1 / timeLeft)) d0)) ∧
   (timeLeft <= 0 →
    open es d =
      (fire Entity (output_onOpen d) (fire Entity (output_onFullyOpen d) es "") "",
       set_motion (localOrigin d) timeLeft (positionOpened d) diff d0))) ∧
  ((∀ q, 0 < q → 0 < sqrt q) → 0 < speed d →
   vec3_length sqrt (vec3_sub (positionOpened d) (localOrigin d)) / speed d <= 0 →
   localOrigin d = positionOpened d) ∧
  (∀ dts, toggleState d = GoingToTop → 0 < timeLeftInSeconds d →
   Forall (λ dt, 0 <= dt) dts →
   ∃ d', toggleState d' = GoingToTop ∧ toggleState d' ≠ Top ∧
     ((sumQc dts < timeLeftInSeconds d ∧ run es d dts = (es, d') ∧
       timeLeftInSeconds d' = timeLeftInSeconds d - sumQc dts) ∨
      (timeLeftInSeconds d <= sumQc dts ∧
       run es d dts = (fire Entity (output_onFullyOpen d) es "", d') ∧
       localOrigin d' = positionTarget d ∧
       timeLeftInSeconds d' = 0))).
Proof.
  split; [|split; [|split]].
  - intros Hblocked. unfold input_open.
    destruct (decide (toggleState d = Top ∨ toggleState d = GoingToTop))
      as [|Hn]; [done|].
    destruct Hblocked as [?|[?|Hl]]; [exfalso; apply Hn; auto..|by rewrite Hl].
  - intros HnTop HnGoing Hunlocked _ d0 diff timeLeft.
    assert (open es d = goToTop Entity sqrt es d) as ->.
    { unfold input_open. rewrite decide_False by (intros [?|?]; done).
      by rewrite Hunlocked. }
    unfold goToTop, moveToTargetPos. simpl.
    fold d0 diff timeLeft. split; intros Ht.
    + rewrite decide_False by (intros Hle; by apply (Qc_le_0_lt _ Hle)). done.
    + rewrite decide_True by done. by rewrite moveDone_GoingToTop.
  - intros Hsqrt Hspeed Hleft. apply (vec3_length_le_0 _ _ Hsqrt).
    destruct (Qclt_le_dec 0 (vec3_length sqrt
                (vec3_sub (positionOpened d) (localOrigin d)))) as [Hpos|Hle];
      [|done].
    exfalso. apply (Qcle_not_lt _ _ Hleft). by apply Qc_div_pos.
  - intros dts Hst Hleft Hdts.
    destruct (run_ticks_GoingToTop es d dts Hst Hleft Hdts) as (d' & Hst' & H).
    exists d'. split; [done|]. split; [by rewrite Hst'|]. done.
Qed.

End DoorFacts.

Lemma func_door_open_witness :
  Entities.input_open Entities.Sample.Entity Entities.Sample.sqrt
    Entities.Sample.level
    (Entities.set_toggleState Entities.Top Entities.Sample.door)
  = (Entities.Sample.level,
     Entities.set_toggleState Entities.Top Entities.Sample.door) ∧
  Entities.input_open Entities.Sample.Entity Entities.Sample.sqrt
    Entities.Sample.level Entities.Sample.door
  = (Entities.fire Entities.Sample.Entity
       (Entities.output_onOpen Entities.Sample.door) Entities.Sample.level "",
     Entities.set_motion Entities.Sample.origin
       (Entities.vec3_length Entities.Sample.sqrt
          (Entities.vec3_sub Entities.Sample.raised Entities.Sample.origin)
        / Entities.Sample.Q 100)%Qc
       Entities.Sample.raised
       (Entities.vec3_scale
          (Entities.vec3_sub Entities.Sample.raised Entities.Sample.origin)
          (1 / (Entities.vec3_length Entities.Sample.sqrt
                  (Entities.vec3_sub Entities.Sample.raised Entities.Sample.origin)
                / Entities.Sample.Q 100))%Qc)
       (Entities.set_toggleState Entities.GoingToTop Entities.Sample.door)).
Proof.
  split.
  - apply (func_door_open Entities.Sample.sqrt Entities.Sample.level
             (Entities.set_toggleState Entities.Top Entities.Sample.door)).
    left. reflexivity.
  - apply (proj1 (proj1 (proj2 (func_door_open Entities.Sample.sqrt
                           Entities.Sample.level Entities.Sample.door))
                    ltac:(discriminate) ltac:(discriminate) eq_refl
                    ltac:(discriminate))).
    reflexivity.
Defined.

(** C7 on the sample door, which is closed and moves at 100 units per
    second. It receives [open] and is moved for half a second, the time it
    needs for its 50 units: it then rests at its opened position and has
    fired [onOpen] and [onFullyOpen], yet its toggle state is [GoingToTop],
    not [Top]: [hitTop] fires the output and assigns nothing. The inputs,
    which test for [Top] and [Bottom], take the open door for a moving one:
    [toggle] does nothing to it. *)
Lemma door_fully_open_is_not_Top :
  ∃ es1 d1 es2 d2,
    Entities.input_open Entities.Sample.Entity Entities.Sample.sqrt
      Entities.Sample.level Entities.Sample.door = (es1, d1) ∧
    Entities.run_ticks Entities.Sample.Entity es1 d1 [Q2Qc (1 # 2)] = (es2, d2) ∧
    Entities.localOrigin d2 = Entities.positionOpened d2 ∧
    Entities.outputQueue es2 =
      Entities.firedEvents (Entities.output_onOpen Entities.Sample.door) 0 "" ++
      Entities.firedEvents (Entities.output_onFullyOpen Entities.Sample.door) 0 "" ∧
    Entities.toggleState d2 = Entities.GoingToTop ∧
    Entities.toggleState d2 ≠ Entities.Top ∧
    Entities.input_toggle Entities.Sample.Entity Entities.Sample.sqrt es2 d2
    = (es2, d2).
Proof.
  do 4 eexists. split; [vm_compute; reflexivity|].
  split; [vm_compute; reflexivity|].
  split; [reflexivity|]. split; [reflexivity|]. split; [reflexivity|].
  split; [discriminate|]. reflexivity.
Qed.

(** ** [math_counter] *)

Section CounterFacts.

Import Entities.
Local Open Scope Qc_scope.

Context {Entity : Type}.
Variable Number : string → Qc.

Local Abbreviation update := (updateValue Entity).

Lemma clampMax_off (es : EntitySystem Entity) c :
  max c = 0 → clampMax Entity es c = (es, c).
Proof. intros H. unfold clampMax. by rewrite decide_False by (by intros []). Qed.

Lemma clampMin_off (es : EntitySystem Entity) c :
  min c = 0 → clampMin Entity es c = (es, c).
Proof. intros H. unfold clampMin. by rewrite decide_False by (by intros []). Qed.

Lemma clampMin_spec (es : EntitySystem Entity) c es' c' :
  clampMin Entity es c = (es', c') →
  max c' = max c ∧ min c' = min c ∧ maxEdgeState c' = maxEdgeState c ∧
  output_outValue c' = output_outValue c ∧
  counter_value c <= counter_value c' ∧
  (min c = 0 ∨ min c < counter_value c → counter_value c' = counter_value c) ∧
  (es' = es ∨ es' = fire Entity (output_onHitMin c) es "").
Proof.
  unfold clampMin. pose proof (Qcle_refl (counter_value c)) as Hrefl.
  destruct (decide (min c ≠ 0)) as [Hmin|Hmin].
  - destruct (decide (counter_value c <= min c)) as [Hle|Hgt]; simpl.
    + assert (min c = 0 ∨ min c < counter_value c → min c = counter_value c).
      { intros [H0|Hlt]; [done|]. exfalso. by apply (Qcle_not_lt _ _ Hle). }
      destruct (minEdgeState c); simpl; intros [= <- <-]; simpl;
        repeat split; auto.
    + intros [= <- <-]. simpl. repeat split; auto.
  - intros [= <- <-]. repeat split; auto.
Qed.

Lemma clampMax_spec (es : EntitySystem Entity) c es' c' :
  clampMax Entity es c = (es', c') →
  max c' = max c ∧ min c' = min c ∧ minEdgeState c' = minEdgeState c ∧
  output_outValue c' = output_outValue c ∧
  counter_value c' <= counter_value c ∧
  (max c = 0 ∨ counter_value c < max c → counter_value c' = counter_value c) ∧
  (es' = es ∨ es' = fire Entity (output_onHitMax c) es "").
Proof.
  unfold clampMax. pose proof (Qcle_refl (counter_value c)) as Hrefl.
  destruct (decide (max c ≠ 0)) as [Hmax|Hmax].
  - destruct (decide (max c <= counter_value c)) as [Hle|Hgt]; simpl.
    + assert (max c = 0 ∨ counter_value c < max c → max c = counter_value c).
      { intros [H0|Hlt]; [done|]. exfalso. by apply (Qcle_not_lt _ _ Hle). }
      destruct (maxEdgeState c); simpl; intros [= <- <-]; simpl;
        repeat split; auto.
    + intros [= <- <-]. simpl. repeat split; auto.
  - intros [= <- <-]. repeat split; auto.
Qed.

(** C10. With [max = 0] the upper block of [updateValue] is skipped: the
    value is never lowered, whatever its size, [onHitMax] is not fired and
    its edge state is untouched; what remains is the lower block and the
    [outValue] output. Likewise with [min = 0] for the lower block. With
    both zero the value is stored as it comes. [outValue] is fired by every
    update, last, and [add] and [subtract] are updates. *)
Theorem math_counter_zero_bound_is_no_bound (es : EntitySystem Entity)
    (c : math_counter) (v : Qc) :
  (max c = 0 →
   update es c v =
     (let '(es1, c1) := clampMin Entity es (set_value v c) in
      (fire Entity (output_outValue c1) es1 "", c1)) ∧
   ∀ es' c', update es c v = (es', c') →
     v <= counter_value c' ∧
     (min c = 0 ∨ min c < v → counter_value c' = v) ∧
     maxEdgeState c' = maxEdgeState c ∧
     (es' = fire Entity (output_outValue c) es "" ∨
      es' = fire Entity (output_outValue c)
              (fire Entity (output_onHitMin c) es "") "")) ∧
  (min c = 0 →
   update es c v =
     (let '(es1, c1) := clampMax Entity es (set_value v c) in
      (fire Entity (output_outValue c1) es1 "", c1)) ∧
   ∀ es' c', update es c v = (es', c') →
     counter_value c' <= v ∧
     (max c = 0 ∨ v < max c → counter_value c' = v) ∧
     minEdgeState c' = minEdgeState c ∧
     (es' = fire Entity (output_outValue c) es "" ∨
      es' = fire Entity (output_outValue c)
              (fire Entity (output_onHitMax c) es "") "")) ∧
  (max c = 0 → min c = 0 →
   update es c v = (fire Entity (output_outValue c) es "", set_value v c)) ∧
  (∃ es1 c', update es c v = (fire Entity (output_outValue c) es1 "", c')) ∧
  (∀ s, input_add Entity Number es c s = update es c (counter_value c + Number s)) ∧
  (∀ s, input_subtract Entity Number es c s
        = update es c (counter_value c - Number s)).
Proof.
  split; [|split; [|split; [|split; [|split]]]].
  - intros Hmax.
    assert (update es c v =
            (let '(es1, c1) := clampMin Entity es (set_value v c) in
             (fire Entity (output_outValue c1) es1 "", c1))) as Heq.
    { unfold updateValue. by rewrite clampMax_off. }
    split; [done|]. intros es' c'. rewrite Heq.
    destruct (clampMin Entity es (set_value v c)) as [es1 c1] eqn:Hmin.
    apply clampMin_spec in Hmin as (_ & _ & He & Ho & Hle & Hv & Hes).
    simpl in *. intros [= <- <-]. rewrite Ho.
    split; [done|]. split; [done|]. split; [done|].
    destruct Hes as [->| ->]; auto.
  - intros Hmin.
    assert (update es c v =
            (let '(es1, c1) := clampMax Entity es (set_value v c) in
             (fire Entity (output_outValue c1) es1 "", c1))) as Heq.
    { unfold updateValue.
      destruct (clampMax Entity es (set_value v c)) as [es1 c1] eqn:Hmax.
      apply clampMax_spec in Hmax as (_ & Hm & _). simpl in Hm.
      rewrite clampMin_off by congruence. done. }
    split; [done|]. intros es' c'. rewrite Heq.
    destruct (clampMax Entity es (set_value v c)) as [es1 c1] eqn:Hmax.
    apply clampMax_spec in Hmax as (_ & _ & He & Ho & Hle & Hv & Hes).
    simpl in *. intros [= <- <-]. rewrite Ho.
    split; [done|]. split; [done|]. split; [done|].
    destruct Hes as [->| ->]; auto.
  - intros Hmax Hmin. unfold updateValue.
    rewrite clampMax_off by done. by rewrite clampMin_off.
  - unfold updateValue.
    destruct (clampMax Entity es (set_value v c)) as [es1 c1] eqn:Hmax.
    destruct (clampMin Entity es1 c1) as [es2 c2] eqn:Hmin.
    apply clampMax_spec in Hmax as (_ & _ & _ & Ho1 & _).
    apply clampMin_spec in Hmin as (_ & _ & _ & Ho2 & _).
    exists es2, c2. simpl in *. by rewrite Ho2, Ho1.
  - done.
  - done.
Qed.

End CounterFacts.

Lemma math_counter_zero_bound_is_no_bound_witness :
  Entities.updateValue Entities.Sample.Entity Entities.Sample.level
    Entities.Sample.unbounded (Entities.Sample.Q 1000000)
  = (Entities.Sample.level,
     Entities.set_value (Entities.Sample.Q 1000000) Entities.Sample.unbounded).
Proof.
  exact (proj1 (proj2 (proj2 (math_counter_zero_bound_is_no_bound
           Entities.Sample.Number Entities.Sample.level
           Entities.Sample.unbounded (Entities.Sample.Q 1000000))))
         eq_refl eq_refl).
Defined.

(** ** The sample level satisfies what the drain assumes of handlers *)

Section SampleFacts.

Import Entities.
Local Open Scope Qc_scope.

Lemma extends_refl {Entity} (es : EntitySystem Entity) : extends es es.
Proof. split; [done|]. exists []. by rewrite app_nil_r. Qed.

Lemma extends_trans {Entity} (es1 es2 es3 : EntitySystem Entity) :
  extends es1 es2 → extends es2 es3 → extends es1 es3.
Proof.
  intros (Ht1 & p1 & Hq1) (Ht2 & p2 & Hq2). split; [congruence|].
  exists (p1 ++ p2). by rewrite Hq2, Hq1, <- app_assoc.
Qed.

Lemma extends_fire {Entity} out (es : EntitySystem Entity) value :
  extends es (fire Entity out es value).
Proof. rewrite fire_spec. split; [done|]. by eexists. Qed.

Lemma extends_store i e (es es' : EntitySystem Sample.Entity) :
  extends es es' → extends es (Sample.store i e es').
Proof. intros (Ht & p & Hq). split; [done|]. by exists p. Qed.

Lemma extends_moveDone {Entity} (es : EntitySystem Entity) d :
  extends es (moveDone Entity es d).1.
Proof.
  unfold moveDone, hitTop, hitBottom.
  repeat case_decide; simpl; auto using extends_fire, extends_refl.
Qed.

Lemma extends_moveToTargetPos {Entity} sqrt (es : EntitySystem Entity) d target s :
  extends es (moveToTargetPos Entity sqrt es d target s).1.
Proof.
  unfold moveToTargetPos. case_decide; simpl;
    auto using extends_moveDone, extends_refl.
Qed.

Lemma extends_goToTop {Entity} sqrt (es : EntitySystem Entity) d :
  extends es (goToTop Entity sqrt es d).1.
Proof.
  unfold goToTop.
  pose proof (extends_moveToTargetPos sqrt es (set_toggleState GoingToTop d)
                (positionOpened (set_toggleState GoingToTop d))
                (speed (set_toggleState GoingToTop d))) as H.
  destruct (moveToTargetPos _ _ _ _ _ _) as [es1 d1]. simpl in *.
  eapply extends_trans; [exact H|apply extends_fire].
Qed.

Lemma extends_goToBottom {Entity} sqrt (es : EntitySystem Entity) d :
  extends es (goToBottom Entity sqrt es d).1.
Proof.
  unfold goToBottom.
  pose proof (extends_moveToTargetPos sqrt es (set_toggleState GoingToBottom d)
                (positionClosed (set_toggleState GoingToBottom d))
                (speed (set_toggleState GoingToBottom d))) as H.
  destruct (moveToTargetPos _ _ _ _ _ _) as [es1 d1]. simpl in *.
  eapply extends_trans; [exact H|apply extends_fire].
Qed.

Lemma extends_updateValue {Entity} (es : EntitySystem Entity) c v :
  extends es (updateValue Entity es c v).1.
Proof.
  unfold updateValue.
  destruct (clampMax Entity es (set_value v c)) as [es1 c1] eqn:Hmax.
  destruct (clampMin Entity es1 c1) as [es2 c2] eqn:Hmin. simpl.
  apply clampMax_spec in Hmax as (_ & _ & _ & _ & _ & _ & H1).
  apply clampMin_spec in Hmin as (_ & _ & _ & _ & _ & _ & H2).
  eapply extends_trans; [|apply extends_fire].
  eapply (extends_trans _ es1).
  - destruct H1 as [->| ->]; auto using extends_fire, extends_refl.
  - destruct H2 as [->| ->]; auto using extends_fire, extends_refl.
Qed.

Lemma sample_fireInput_extends i n v (es : EntitySystem Sample.Entity) :
  extends es (Sample.fireInput i n v es).
Proof.
  unfold Sample.fireInput.
  destruct (entities es !! i) as [[name o|name d|name c]|];
    [| | |apply extends_refl].
  - case_decide; auto using extends_fire, extends_refl.
  - pose proof (extends_refl es) as Hr.
    pose proof (extends_goToTop Sample.sqrt es d) as HT.
    pose proof (extends_goToBottom Sample.sqrt es d) as HB.
    unfold input_open, input_close, input_toggle.
    destruct (goToTop _ Sample.sqrt es d) as [esT dT].
    destruct (goToBottom _ Sample.sqrt es d) as [esB dB].
    cbn [fst] in HT, HB.
    repeat case_decide; try destruct (locked d);
      first [apply extends_refl | apply extends_store; assumption].
  - pose proof (extends_updateValue es c (counter_value c + Sample.Number v)) as HA.
    pose proof (extends_updateValue es c (counter_value c - Sample.Number v)) as HS.
    unfold input_add, input_subtract.
    destruct (updateValue _ es c (counter_value c + _)) as [esA cA].
    destruct (updateValue _ es c (counter_value c - _)) as [esS cS].
    cbn [fst] in HA, HS.
    repeat case_decide;
      first [apply extends_refl | apply extends_store; assumption].
Qed.

End SampleFacts.


(** The scenario of the spec, run on the sample level in ticks of half a
    second: the [open] event queued for time 2 is dispatched in the fifth
    tick, when the clock reads 2, and in no other; the door's [onOpen] and
    [onFullyOpen] events follow in the same and in the next drain. *)
Example relay_opens_door_after_two_seconds :
  match Entities.Sample.ticks 7 10 (Q2Qc (1 # 2))
          (Entities.fire Entities.Sample.Entity Entities.Sample.relay
             Entities.Sample.level "") with
  | Done (es, logs) =>
    (map (λ e, (Entities.inputName (Entities.action e), Entities.value e)) <$> logs)
    = [ []; []; []; [];
        [("open", ""); ("add", "1"); ("trigger", "")];
        [("add", "5"); ("trigger", ""); ("trigger", "")];
        [] ] ∧
    Entities.outputQueue es = []
  | _ => False
  end.
Proof. vm_compute. split; reflexivity. Qed.

(** ** Shape draws *)

Section DrawFacts.

Import J3D.

Variable modelView : mat4.
Variable sis : ShapeInstanceState.

Lemma keeps_tail x table j : keeps (x :: table) (S j) ↔ keeps table j.
Proof. done. Qed.

(** The table update touches neither the calls nor the statistic, and it
    leaves alone every slot before its starting position and every slot
    whose table entry keeps it. *)
Lemma updateMatrixTable_keeps table i0 nu st nu' st' :
  updateMatrixTable modelView sis table i0 nu st = Done (nu', st') →
  gfx st' = gfx st ∧ drawCallCount st' = drawCallCount st ∧
  length (u_PosMtx st') = length (u_PosMtx st) ∧
  ∀ k, (k < i0)%nat ∨ ((i0 ≤ k)%nat ∧ keeps table (k - i0)) →
       u_PosMtx st' !! k = u_PosMtx st !! k ∧
       posMtxVisibility st' !! k = posMtxVisibility st !! k.
Proof.
  revert i0 nu st. induction table as [|x table IH]; intros i0 nu st; simpl.
  - by intros [= <- <-].
  - destruct (x =? 65535) eqn:Hx.
    + intros H. apply IH in H as (Hg & Hd & Hl & Hk).
      split; [done|]. split; [done|]. split; [done|].
      intros k [Hlt|[Hge Hkeep]]; apply Hk; [left; lia|].
      destruct (decide (k = i0)) as [->|Hne]; [left; lia|].
      right. split; [lia|].
      replace (k - i0)%nat with (S (k - S i0)) in Hkeep by lia.
      by apply keeps_tail in Hkeep.
    + destruct (lookupZ (matrixArray sis) x) as [posMtx|]; [|done].
      destruct (lookupZ (matrixVisibility sis) x) as [vis|]; [|done].
      destruct (u_PosMtx st !! i0) eqn:Hslot; [|done].
      intros H. apply IH in H as (Hg & Hd & Hl & Hk). simpl in *.
      split; [done|]. split; [done|].
      split; [by rewrite Hl, length_insert|].
      intros k Hcase.
      assert (k ≠ i0) as Hne.
      { intros ->. destruct Hcase as [?|[_ Hkeep]]; [lia|].
        rewrite Nat.sub_diag in Hkeep. apply Z.eqb_neq in Hx.
        destruct Hkeep as [Hk0|Hk0]; simpl in Hk0; congruence. }
      destruct (Hk k) as [H1 H2].
      { destruct Hcase as [Hlt|[Hge Hkeep]]; [left; lia|].
        right. split; [lia|].
        replace (k - i0)%nat with (S (k - S i0)) in Hkeep by lia.
        by apply keeps_tail in Hkeep. }
      rewrite H1, H2. by rewrite !list_lookup_insert_ne by done.
Qed.

(** An entry that is not the sentinel overwrites its slot with the model
    view matrix times the weight entry's matrix. *)
Lemma updateMatrixTable_writes table i0 nu st nu' st' j matrixIndex :
  updateMatrixTable modelView sis table i0 nu st = Done (nu', st') →
  table !! j = Some matrixIndex → matrixIndex ≠ 0xFFFF →
  ∃ posMtx, lookupZ (matrixArray sis) matrixIndex = Some posMtx ∧
            u_PosMtx st' !! (i0 + j)%nat = Some (mat4_mul modelView posMtx).
Proof.
  revert i0 nu st j.
  induction table as [|x table IH]; intros i0 nu st j; simpl; [done|].
  destruct j as [|j]; simpl.
  - intros H [= ->] Hne. apply Z.eqb_neq in Hne. rewrite Hne in H.
    destruct (lookupZ (matrixArray sis) matrixIndex) as [posMtx|]; [|done].
    destruct (lookupZ (matrixVisibility sis) matrixIndex) as [vis|]; [|done].
    destruct (u_PosMtx st !! i0) eqn:Hslot; [|done].
    apply updateMatrixTable_keeps in H as (_ & _ & _ & Hk).
    exists posMtx. split; [done|]. rewrite Nat.add_0_r.
    destruct (Hk i0) as [-> _]; [left; lia|]. simpl.
    apply list_lookup_insert_eq.
    by apply lookup_lt_Some in Hslot.
  - intros H Hj Hne. replace (i0 + S j)%nat with (S i0 + j)%nat by lia.
    destruct (x =? 65535); [by eapply IH|].
    destruct (lookupZ (matrixArray sis) x) as [posMtx|]; [|done].
    destruct (lookupZ (matrixVisibility sis) x) as [vis|]; [|done].
    destruct (u_PosMtx st !! i0); [|done].
    by eapply IH.
Qed.

(** A draw leaves alone every slot that all of its packets keep. *)
Lemma drawPackets_keeps packets p nu st st' i :
  Forall (λ packet, keeps (matrixTable packet) i) packets →
  drawPackets modelView sis packets p nu st = Done st' →
  u_PosMtx st' !! i = u_PosMtx st !! i ∧
  posMtxVisibility st' !! i = posMtxVisibility st !! i.
Proof.
  intros Hall. revert p nu st.
  induction Hall as [|packet packets Hkeep _ IH]; intros p nu st; simpl.
  - by intros [= <-].
  - destruct (updateMatrixTable _ _ _ _ _ _) as [[nu1 st1]| |] eqn:Htable;
      simpl; [|done..].
    apply updateMatrixTable_keeps in Htable as (_ & _ & _ & Hk).
    destruct (Hk i) as [Hm Hv].
    { right. split; [lia|]. by rewrite Nat.sub_0_r. }
    destruct (frustumCull _).
    + by intros [= <-].
    + intros H. apply IH in H as [H1 H2]. rewrite H1, H2.
      by destruct nu1.
Qed.

(** The packet loop returns at the first packet after whose table update
    every slot is outside the frustum: neither that packet nor any later one
    is drawn, and the draw call statistic is not advanced. A packet with a
    slot that is not outside is drawn, after which the loop goes on. *)
Lemma drawPackets_step packet packets p nu st nu' st' :
  updateMatrixTable modelView sis (matrixTable packet) 0 nu st = Done (nu', st') →
  (frustumCull (posMtxVisibility st') = true →
   drawPackets modelView sis (packet :: packets) p nu st = Done st') ∧
  (frustumCull (posMtxVisibility st') = false →
   drawPackets modelView sis (packet :: packets) p nu st =
     drawPackets modelView sis packets (S p) false
       (call (DrawSimple p)
          (if nu' then call (BindPacketParams (u_PosMtx st')) st' else st'))).
Proof. intros H. simpl. rewrite H. simpl. by split; intros ->. Qed.

(** C6. A matrix-table entry equal to the sentinel leaves its slot as it
    was: a draw all of whose packets keep slot [i] (by the sentinel, or by
    having no entry there) returns with the slot unchanged, matrix and
    visibility; a slot written by a packet and kept by all later packets of
    the draw holds what that packet wrote; and only an entry that is not the
    sentinel writes, namely the model view matrix times the matrix of the
    weight entry it names. *)
Theorem sentinel_keeps_slot (packets : list Packet) (p : nat) (nu : bool)
    (st st' : DrawState) (i : nat) :
  drawPackets modelView sis packets p nu st = Done st' →
  (Forall (λ packet, keeps (matrixTable packet) i) packets →
   u_PosMtx st' !! i = u_PosMtx st !! i ∧
   posMtxVisibility st' !! i = posMtxVisibility st !! i) ∧
  (∀ packet later matrixIndex,
     packets = packet :: later →
     matrixTable packet !! i = Some matrixIndex → matrixIndex ≠ 0xFFFF →
     Forall (λ packet, keeps (matrixTable packet) i) later →
     ∃ posMtx, lookupZ (matrixArray sis) matrixIndex = Some posMtx ∧
               u_PosMtx st' !! i = Some (mat4_mul modelView posMtx)) ∧
  (∀ table i0 nu0 st0 nu1 st1 j,
     updateMatrixTable modelView sis table i0 nu0 st0 = Done (nu1, st1) →
     (table !! j = Some 0xFFFF →
      u_PosMtx st1 !! (i0 + j)%nat = u_PosMtx st0 !! (i0 + j)%nat) ∧
     (u_PosMtx st1 !! (i0 + j)%nat ≠ u_PosMtx st0 !! (i0 + j)%nat →
      ∃ matrixIndex, table !! j = Some matrixIndex ∧ matrixIndex ≠ 0xFFFF)).
Proof.
  intros Hdraw. split; [|split].
  - intros Hall. by eapply drawPackets_keeps.
  - intros packet later matrixIndex -> Hentry Hne Hlater. simpl in Hdraw.
    destruct (updateMatrixTable _ _ _ _ _ _) as [[nu1 st1]| |] eqn:Htable;
      simpl in Hdraw; [|done..].
    destruct (updateMatrixTable_writes _ _ _ _ _ _ _ _ Htable Hentry Hne)
      as (posMtx & Hm & Hslot).
    exists posMtx. split; [done|]. simpl in Hslot.
    destruct (frustumCull _).
    + by injection Hdraw as <-.
    + apply (drawPackets_keeps _ _ _ _ _ i Hlater) in Hdraw as [-> _].
      by destruct nu1.
  - intros table i0 nu0 st0 nu1 st1 j Htable.
    apply updateMatrixTable_keeps in Htable as (_ & _ & _ & Hk).
    assert (keeps table j → u_PosMtx st1 !! (i0 + j)%nat
                            = u_PosMtx st0 !! (i0 + j)%nat) as Hkeep.
    { intros Hkeep. apply Hk. right. split; [lia|].
      by replace (i0 + j - i0)%nat with j by lia. }
    split.
    + intros Hs. apply Hkeep. by right.
    + intros Hchanged. destruct (table !! j) as [matrixIndex|] eqn:Hj.
      * exists matrixIndex. split; [done|]. intros ->.
        apply Hchanged, Hkeep. by right.
      * exfalso. apply Hchanged, Hkeep. by left.
Qed.

End DrawFacts.

Lemma sentinel_keeps_slot_witness :
  ∃ st', J3D.drawPackets J3D.mat4_identity J3D.Sample.sis
           [J3D.Sample.shown; J3D.Sample.reuse] 0 false J3D.Sample.fresh
         = Done st' ∧
    ∃ posMtx, lookupZ (J3D.matrixArray J3D.Sample.sis) 0 = Some posMtx ∧
      J3D.u_PosMtx st' !! 0%nat = Some (J3D.mat4_mul J3D.mat4_identity posMtx).
Proof.
  destruct (J3D.drawPackets J3D.mat4_identity J3D.Sample.sis
              [J3D.Sample.shown; J3D.Sample.reuse] 0 false J3D.Sample.fresh)
    as [st'| |] eqn:Hdraw;
    [|vm_compute in Hdraw; discriminate Hdraw..].
  exists st'. split; [reflexivity|].
  apply (proj1 (proj2 (sentinel_keeps_slot _ _ _ _ _ _ _ 0%nat Hdraw))
           J3D.Sample.shown [J3D.Sample.reuse] 0 eq_refl eq_refl);
    [discriminate|].
  constructor; [right; reflexivity|constructor].
Defined.

(** C5 on the sample shape. Its first packet brings a hidden weight entry
    into all ten slots and its second packet a visible one into slot 0. The
    draw returns at the first packet: nothing is drawn and the statistic is
    not advanced, although the second packet, drawn on its own from the state
    the first one leaves, is uploaded and drawn. *)
Lemma culled_packet_hides_later_visible_packet :
  ∃ st1, J3D.draw J3D.mat4_identity [J3D.Sample.hidden; J3D.Sample.shown]
           J3D.Sample.sis J3D.Sample.fresh = Done st1 ∧
    J3D.gfx st1 = [] ∧ J3D.drawCallCount st1 = 0%nat ∧
    ∃ st2, J3D.draw J3D.mat4_identity [J3D.Sample.shown]
             J3D.Sample.sis st1 = Done st2 ∧
      J3D.gfx st2 = [J3D.BindPacketParams (J3D.u_PosMtx st2); J3D.DrawSimple 0] ∧
      J3D.drawCallCount st2 = 1%nat.
Proof.
  eexists. split; [vm_compute; reflexivity|].
  split; [reflexivity|]. split; [reflexivity|].
  eexists. split; [vm_compute; reflexivity|].
  split; reflexivity.
Qed.

(** ** Skinning matrices *)

Section SkinningFacts.

Import J3D.
Local Open Scope Qc_scope.

Variable sk : Skeleton.

Ltac mat4_ring :=
  unfold weightedAverage, mat4_multiplyScalarAndAdd, mat4_add,
    mat4_multiplyScalar, mat4_mul, mat4_map, mat4_map2, mat4_zero,
    mat4_identity;
  simpl; f_equal; ring.

Lemma mat4_mul_identity_r (a : mat4) : mat4_mul a mat4_identity = a.
Proof. destruct a. mat4_ring. Qed.

Lemma mat4_add_zero_l (a : mat4) : mat4_add mat4_zero a = a.
Proof. destruct a. mat4_ring. Qed.

Lemma mat4_accumulate (a b c : mat4) (s : Qc) :
  mat4_add (mat4_multiplyScalarAndAdd a b s) c
  = mat4_add a (mat4_add (mat4_multiplyScalar b s) c).
Proof. destruct a, b, c. mat4_ring. Qed.

Lemma mat4_multiplyScalar_one (a : mat4) : mat4_multiplyScalar a (1 / 1) = a.
Proof.
  replace (1 / 1) with 1 by (by apply Qc_is_canon).
  destruct a. mat4_ring.
Qed.

(** The inner loop adds the weighted sum of the envelope's terms to [dst]. *)
Lemma blend_spec bones dst m :
  blend sk bones dst = Done m →
  ∃ terms, mapM (term sk) bones = Some terms ∧
           m = mat4_add dst (weightedSum terms).
Proof.
  revert dst. induction bones as [|b bones IH]; intros dst; simpl.
  - intros [= <-]. exists []. split; [done|].
    destruct dst. mat4_ring.
  - destruct (lookupZ (inverseBinds sk) (index b)) as [ib|] eqn:Hib; [|done].
    destruct (lookupZ (jointMatrices sk) (index b)) as [jm|] eqn:Hjm; [|done].
    intros H. apply IH in H as (terms & Hterms & ->).
    exists ((weight b, mat4_mul jm ib) :: terms).
    split; [|apply mat4_accumulate].
    assert (term sk b = Some (weight b, mat4_mul jm ib)) as Hb
      by (unfold term; by rewrite Hib, Hjm).
    simpl. by rewrite Hb, Hterms.
Qed.

Lemma blend_total bones dst terms :
  mapM (term sk) bones = Some terms → ∃ m, blend sk bones dst = Done m.
Proof.
  revert dst terms. induction bones as [|b bones IH]; intros dst terms; simpl.
  - by eauto.
  - intros H.
    destruct (term sk b) as [t|] eqn:Hb; [|done]. simpl in H.
    destruct (mapM (term sk) bones) as [ts|] eqn:Hts; [|done].
    unfold term in Hb.
    destruct (lookupZ (inverseBinds sk) (index b)) as [ib|]; [|done].
    destruct (lookupZ (jointMatrices sk) (index b)) as [jm|]; [|done].
    by eapply IH.
Qed.

(** With identity inverse bind poses the terms are the referenced joint
    matrices themselves. *)
Lemma terms_identity bones terms :
  Forall (λ b, lookupZ (inverseBinds sk) (index b) = Some mat4_identity) bones →
  mapM (term sk) bones = Some terms →
  mapM (referenced sk) bones = Some terms.
Proof.
  intros Hid. revert terms.
  induction Hid as [|b bones Hb _ IH]; intros terms H; simpl in *; [done|].
  destruct (term sk b) as [t|] eqn:Ht; [|done]. simpl in H.
  destruct (mapM (term sk) bones) as [ts|] eqn:Hts; [|done].
  simpl in H. injection H as <-. rewrite (IH ts eq_refl).
  assert (referenced sk b = Some t) as ->; [|done].
  unfold term in Ht. unfold referenced. rewrite Hb in Ht. simpl in Ht.
  destruct (lookupZ (jointMatrices sk) (index b)) as [jm|]; [|done].
  simpl in *. injection Ht as <-. by rewrite mat4_mul_identity_r.
Qed.

Lemma updateJoint_spec i joint st st' :
  length (matrixVisibility st) = length (matrixArray st) →
  updateJoint sk i joint st = Done st' →
  ∃ m v, resolved sk joint m v ∧
    st' = {| matrixArray := <[i := m]> (matrixArray st);
             matrixVisibility := <[i := v]> (matrixVisibility st) |} ∧
    (i < length (matrixArray st))%nat.
Proof.
  intros Hlen. unfold updateJoint.
  destruct (matrixArray st !! i) as [old|] eqn:Hi; [|done].
  apply lookup_lt_Some in Hi.
  destruct joint as [jointIndex|envelopeIndex]; simpl.
  - destruct (lookupZ (jointMatrices sk) jointIndex) as [m|]; [|done].
    destruct (lookupZ (jointVisibility sk) jointIndex) as [v|]; [|done].
    intros [= <-]. by exists m, v.
  - destruct (lookupZ (envelopes sk) envelopeIndex) as [envelope|]; [|done].
    destruct (blend sk (weightedBones envelope) mat4_zero) as [m| |] eqn:Hblend;
      simpl; [|done..].
    intros [= <-]. apply blend_spec in Hblend as (terms & Hterms & ->).
    rewrite mat4_add_zero_l.
    exists (weightedSum terms), FULLY_INSIDE. split; [|done].
    by exists envelope, terms.
Qed.

Lemma updateJointsFrom_spec joints i0 st st' :
  length (matrixVisibility st) = length (matrixArray st) →
  updateJointsFrom sk i0 joints st = Done st' →
  length (matrixArray st') = length (matrixArray st) ∧
  length (matrixVisibility st') = length (matrixVisibility st) ∧
  (∀ k, (k < i0)%nat → matrixArray st' !! k = matrixArray st !! k ∧
                       matrixVisibility st' !! k = matrixVisibility st !! k) ∧
  ∀ j joint, joints !! j = Some joint →
    ∃ m v, resolved sk joint m v ∧
           matrixArray st' !! (i0 + j)%nat = Some m ∧
           matrixVisibility st' !! (i0 + j)%nat = Some v.
Proof.
  revert i0 st. induction joints as [|joint joints IH]; intros i0 st Hlen; simpl.
  - intros [= <-]. by repeat split.
  - destruct (updateJoint sk i0 joint st) as [st1| |] eqn:Hone; simpl; [|done..].
    apply updateJoint_spec in Hone as (m & v & Hres & -> & Hi0); [|done].
    intros H. apply IH in H as (Hl1 & Hl2 & Hbefore & Hafter);
      [|cbn [matrixArray matrixVisibility]; by rewrite !length_insert].
    cbn [matrixArray matrixVisibility] in *.
    rewrite length_insert in Hl1. rewrite length_insert in Hl2.
    split; [done|]. split; [done|]. split.
    + intros k Hk. destruct (Hbefore k) as [-> ->]; [lia|].
      by rewrite !list_lookup_insert_ne by lia.
    + intros [|j] joint' Hj; cbn [lookup list_lookup] in Hj.
      * injection Hj as <-. exists m, v. split; [done|].
        rewrite Nat.add_0_r. destruct (Hbefore i0) as [-> ->]; [lia|].
        by rewrite !list_lookup_insert_eq by lia.
      * replace (i0 + S j)%nat with (S i0 + j)%nat by lia. by apply Hafter.
Qed.

Lemma updateJointsFrom_total joints i0 st :
  (i0 + length joints ≤ length (matrixArray st))%nat →
  Forall (λ joint, ∃ m v, resolved sk joint m v) joints →
  ∃ st', updateJointsFrom sk i0 joints st = Done st'.
Proof.
  intros Hlen Hall. revert i0 st Hlen.
  induction Hall as [|joint joints (m & v & Hres) _ IH]; intros i0 st Hlen;
    simpl in *; [by eauto|].
  assert (∃ st1, updateJoint sk i0 joint st = Done st1 ∧
                 length (matrixArray st1) = length (matrixArray st))
    as (st1 & -> & Hl1).
  { unfold updateJoint.
    destruct (lookup_lt_is_Some_2 (matrixArray st) i0) as [old ->]; [lia|].
    destruct joint as [jointIndex|envelopeIndex]; simpl in Hres.
    - destruct Hres as [-> ->]. eexists. split; [done|].
      cbn [matrixArray]. by rewrite length_insert.
    - destruct Hres as (envelope & terms & -> & Hterms & _).
      destruct (blend_total _ mat4_zero _ Hterms) as [dst ->]. simpl.
      eexists. split; [done|]. cbn [matrixArray]. by rewrite length_insert. }
  simpl. apply IH. lia.
Qed.

(** C4. After the second pass of [updateMatrixArray] every weight entry
    holds its resolved matrix and visibility. For a direct joint these are
    the world matrix and the visibility of the joint it refers to. For a
    weighted entry the matrix is the sum over the envelope's bones of the
    weight times the joint's world matrix times its inverse bind pose, and
    the visibility is fully-inside whatever the joints' own visibilities;
    when all the inverse bind poses are the identity the sum runs over the
    referenced joint matrices themselves, and when moreover the weights add up
    to 1 it is their weighted average. The pass returns whenever the tables
    refer to existing joints and envelopes. *)
Theorem skinning_matrices_resolved (st : ShapeInstanceState) :
  length (matrixVisibility st) = length (matrixArray st) →
  (∀ st', updateMatrixArray sk st = Done st' →
     ∀ i joint, drw1Joints sk !! i = Some joint →
       ∃ m v, matrixArray st' !! i = Some m ∧
              matrixVisibility st' !! i = Some v ∧
         match joint with
         | NormalJoint jointIndex =>
           lookupZ (jointMatrices sk) jointIndex = Some m ∧
           lookupZ (jointVisibility sk) jointIndex = Some v
         | WeightedJoint envelopeIndex =>
           ∃ envelope terms,
             lookupZ (envelopes sk) envelopeIndex = Some envelope ∧
             mapM (term sk) (weightedBones envelope) = Some terms ∧
             m = weightedSum terms ∧
             v = FULLY_INSIDE ∧
             (Forall (λ b, lookupZ (inverseBinds sk) (index b) = Some mat4_identity)
                     (weightedBones envelope) →
              mapM (referenced sk) (weightedBones envelope) = Some terms ∧
              (totalWeight terms = 1 → m = weightedAverage terms))
         end) ∧
  ((length (drw1Joints sk) ≤ length (matrixArray st))%nat →
   Forall (λ joint, ∃ m v, resolved sk joint m v) (drw1Joints sk) →
   ∃ st', updateMatrixArray sk st = Done st').
Proof.
  intros Hlen. split.
  - intros st' Hrun i joint Hjoint. unfold updateMatrixArray in Hrun.
    apply updateJointsFrom_spec in Hrun as (_ & _ & _ & Hslots); [|done].
    destruct (Hslots i joint Hjoint) as (m & v & Hres & Hm & Hv).
    exists m, v. split; [done|]. split; [done|].
    destruct joint as [jointIndex|envelopeIndex]; simpl in Hres; [done|].
    destruct Hres as (envelope & terms & Henv & Hterms & -> & ->).
    exists envelope, terms. repeat (split; [done|]).
    intros Hid. split; [by apply terms_identity|].
    intros Hone. unfold weightedAverage. rewrite Hone.
    by rewrite mat4_multiplyScalar_one.
  - intros Hjoints Hall. by apply updateJointsFrom_total.
Qed.

End SkinningFacts.

Lemma skinning_matrices_resolved_witness :
  J3D.updateMatrixArray J3D.Sample.skeleton J3D.Sample.blank
  = Done {| J3D.matrixArray := [J3D.Sample.scaling J3D.Sample.three;
                                J3D.Sample.scaling J3D.Sample.two];
            J3D.matrixVisibility := [J3D.PARTIAL_INTERSECT; J3D.FULLY_INSIDE] |} ∧
  ∃ m v, J3D.matrixArray
           {| J3D.matrixArray := [J3D.Sample.scaling J3D.Sample.three;
                                  J3D.Sample.scaling J3D.Sample.two];
              J3D.matrixVisibility := [J3D.PARTIAL_INTERSECT; J3D.FULLY_INSIDE] |}
         !! 1%nat = Some m ∧
         J3D.matrixVisibility
           {| J3D.matrixArray := [J3D.Sample.scaling J3D.Sample.three;
                                  J3D.Sample.scaling J3D.Sample.two];
              J3D.matrixVisibility := [J3D.PARTIAL_INTERSECT; J3D.FULLY_INSIDE] |}
         !! 1%nat = Some v ∧
         v = J3D.FULLY_INSIDE.
Proof.
  assert (J3D.updateMatrixArray J3D.Sample.skeleton J3D.Sample.blank
          = Done {| J3D.matrixArray := [J3D.Sample.scaling J3D.Sample.three;
                                        J3D.Sample.scaling J3D.Sample.two];
                    J3D.matrixVisibility :=
                      [J3D.PARTIAL_INTERSECT; J3D.FULLY_INSIDE] |}) as Hrun.
  { apply bool_decide_eq_true_1 with (Decision0 := decide _).
    vm_compute. reflexivity. }
  split; [exact Hrun|].
  destruct (proj1 (skinning_matrices_resolved J3D.Sample.skeleton
                     J3D.Sample.blank eq_refl) _ Hrun 1%nat
                  (J3D.WeightedJoint 0) eq_refl)
    as (m & v & Hm & Hv & envelope & terms & _ & _ & _ & Hin & _).
  exists m, v. split; [exact Hm|]. split; [exact Hv|]. exact Hin.
Defined.

(** * Further properties of the code *)

(** ** What a BSP walk gathers *)

Section ReachFacts.

Import BSP.

Context {AABB Mat4 View : Type}.
Variable transform : AABB → Mat4 → AABB.
Variable frustum_contains : View → AABB → bool.

Local Abbreviation gather := (gatherSurfaces transform frustum_contains).
Local Abbreviation liveLeaf := (BSP.liveLeaf transform frustum_contains).
Local Abbreviation liveSurface := (BSP.liveSurface transform frustum_contains).
Local Abbreviation reaches := (BSP.reaches transform frustum_contains).
Local Abbreviation leafVisible := (BSP.leafVisible transform frustum_contains).

Lemma grown_nothing (g g' : Gather AABB) (PL PS : Z → Prop) :
  liveLeafSet g' = liveLeafSet g → liveSurfaceSet g' = liveSurfaceSet g →
  (∀ l, ¬ PL l) → (∀ x, ¬ PS x) → grown g g' PL PS.
Proof.
  intros HeL HeS HL HS. unfold grown. rewrite HeL, HeS. split.
  - destruct (liveLeafSet g); constructor. intros l. specialize (HL l). tauto.
  - destruct (liveSurfaceSet g); constructor. intros x. specialize (HS x). tauto.
Qed.

Lemma grown_trans (g g1 g' : Gather AABB) (PL0 PL1 PL PS0 PS1 PS : Z → Prop) :
  grown g g1 PL0 PS0 → grown g1 g' PL1 PS1 →
  (∀ l, PL l ↔ PL0 l ∨ PL1 l) → (∀ x, PS x ↔ PS0 x ∨ PS1 x) →
  grown g g' PL PS.
Proof.
  intros [HL0 HS0] [HL1 HS1] HL HS. split.
  - destruct HL0 as [s s1 H0|]; inversion HL1 as [? s' H1|]; subst; constructor.
    intros l. rewrite H1, H0, HL. tauto.
  - destruct HS0 as [s s1 H0|]; inversion HS1 as [? s' H1|]; subst; constructor.
    intros x. rewrite H1, H0, HS. tauto.
Qed.

Lemma reaches_node_inv this view nodeid node leafnum leaf :
  0 ≤ nodeid → lookupZ (nodelist (bsp this)) nodeid = Some node →
  reaches this view nodeid leafnum leaf →
  frustum_contains view (transform (node_bbox node) (modelMatrix this)) = true ∧
  (reaches this view (child0 node) leafnum leaf ∨
   reaches this view (child1 node) leafnum leaf).
Proof.
  intros Hsign Hnode Hr.
  inversion Hr as [? ? Hneg|? node' ? ? _ Hnode' Hf H0|? node' ? ? _ Hnode' Hf H1];
    subst; [lia|..]; rewrite Hnode in Hnode'; injection Hnode' as <-; auto.
Qed.

Lemma reaches_leaf_inv this view nodeid leaf0 leafnum leaf :
  nodeid < 0 → lookupZ (leaflist (bsp this)) (- nodeid - 1) = Some leaf0 →
  reaches this view nodeid leafnum leaf → leafnum = - nodeid - 1 ∧ leaf = leaf0.
Proof.
  intros Hsign Hleaf Hr.
  inversion Hr as [? ? _ Hleaf'|? ? ? ? Hpos|? ? ? ? Hpos]; subst; [|lia..].
  rewrite Hleaf in Hleaf'. injection Hleaf' as <-. done.
Qed.

(** The sets of a completed walk are those it started from plus exactly the
    live leaves, and the surfaces of the live leaves. *)
Lemma gather_grown fuel this pvs view nodeid (g g' : Gather AABB) :
  gather fuel this pvs view nodeid g = Done g' →
  grown g g' (liveLeaf this pvs view nodeid) (liveSurface this pvs view nodeid).
Proof.
  revert nodeid g g'. induction fuel as [|fuel IH]; intros nodeid g g'; [done|].
  simpl. destruct (0 <=? nodeid) eqn:Hsign.
  - apply Z.leb_le in Hsign.
    destruct (lookupZ _ nodeid) as [node|] eqn:Hnode; [|done].
    destruct (frustum_contains _ _) eqn:Hf; simpl.
    + destruct (gather fuel this pvs view (child0 node) _) as [g1| |] eqn:H0;
        simpl; [|done..].
      intros H1. apply IH in H0. apply IH in H1.
      eapply grown_trans; [exact H0|exact H1|..].
      * intros l. split.
        -- intros (leaf & Hr & Hv).
           destruct (reaches_node_inv _ _ _ _ _ _ Hsign Hnode Hr) as [_ [?|?]];
             [left|right]; by exists leaf.
        -- intros [(leaf & Hr & Hv)|(leaf & Hr & Hv)]; exists leaf; split; try done.
           ++ by eapply reaches_child0.
           ++ by eapply reaches_child1.
      * intros x. split.
        -- intros (l & leaf & Hr & Hv & Hx).
           destruct (reaches_node_inv _ _ _ _ _ _ Hsign Hnode Hr) as [_ [?|?]];
             [left|right]; by exists l, leaf.
        -- intros [(l & leaf & Hr & Hv & Hx)|(l & leaf & Hr & Hv & Hx)];
             exists l, leaf; (split; [|done]).
           ++ by eapply reaches_child0.
           ++ by eapply reaches_child1.
    + intros [= <-]. apply grown_nothing; [done..| |].
      * intros l (leaf & Hr & _).
        destruct (reaches_node_inv _ _ _ _ _ _ Hsign Hnode Hr) as [Hf' _].
        congruence.
      * intros x (l & leaf & Hr & _).
        destruct (reaches_node_inv _ _ _ _ _ _ Hsign Hnode Hr) as [Hf' _].
        congruence.
  - apply Z.leb_gt in Hsign.
    destruct (lookupZ _ _) as [leaf0|] eqn:Hleaf; [|done].
    destruct (BitMap.getBit pvs (cluster leaf0)) eqn:Hbit; simpl;
      [destruct (frustum_contains _ _) eqn:Hf; simpl|]; intros [= <-].
    + split; simpl.
      * destruct (liveLeafSet g) as [s|]; constructor. intros l.
        rewrite elem_of_union, elem_of_singleton. split.
        -- intros [->|?]; [|by left]. right. exists leaf0.
           split; [by apply reaches_leaf|done].
        -- intros [?|(leaf & Hr & _)]; [by right|]. left.
           by destruct (reaches_leaf_inv _ _ _ _ _ _ Hsign Hleaf Hr).
      * destruct (liveSurfaceSet g) as [s|]; constructor. intros x.
        rewrite elem_of_union, elem_of_list_to_set. split.
        -- intros [?|?]; [|by left]. right. exists (- nodeid - 1), leaf0.
           split; [by apply reaches_leaf|done].
        -- intros [?|(l & leaf & Hr & _ & Hx)]; [by right|]. left.
           by destruct (reaches_leaf_inv _ _ _ _ _ _ Hsign Hleaf Hr) as [_ ->].
    + apply grown_nothing; [done..| |].
      * intros l (leaf & Hr & _ & Hf').
        destruct (reaches_leaf_inv _ _ _ _ _ _ Hsign Hleaf Hr) as [_ ->].
        congruence.
      * intros x (l & leaf & Hr & [_ Hf'] & _).
        destruct (reaches_leaf_inv _ _ _ _ _ _ Hsign Hleaf Hr) as [_ ->].
        congruence.
    + apply grown_nothing; [done..| |].
      * intros l (leaf & Hr & Hb & _).
        destruct (reaches_leaf_inv _ _ _ _ _ _ Hsign Hleaf Hr) as [_ ->].
        congruence.
      * intros x (l & leaf & Hr & [Hb _] & _).
        destruct (reaches_leaf_inv _ _ _ _ _ _ Hsign Hleaf Hr) as [_ ->].
        congruence.
Qed.

(** X1. After a completed walk the live leaf set holds what it held before
    and, besides, exactly the leaves that the walk can reach through nodes
    whose boxes are in the frustum and that are themselves in the PVS and in
    the frustum. A [null] leaf set stays [null]. *)
Theorem gather_live_leaves fuel this pvs view nodeid (g g' : Gather AABB) :
  gather fuel this pvs view nodeid g = Done g' →
  match liveLeafSet g with
  | Some s => ∃ s', liveLeafSet g' = Some s' ∧
                    ∀ l, l ∈ s' ↔ l ∈ s ∨ liveLeaf this pvs view nodeid l
  | None => liveLeafSet g' = None
  end.
Proof.
  intros H. apply gather_grown in H as [HL _].
  destruct HL as [s s' H|]; [|done]. by exists s'.
Qed.

(** X2. After a completed walk the live surface set holds what it held
    before and, besides, exactly the surfaces of the leaves that the walk can
    reach and that are in the PVS and in the frustum; a surface shared by
    several such leaves is in the set all the same. A [null] surface set
    stays [null]. *)
Theorem gather_live_surfaces fuel this pvs view nodeid (g g' : Gather AABB) :
  gather fuel this pvs view nodeid g = Done g' →
  match liveSurfaceSet g with
  | Some s => ∃ s', liveSurfaceSet g' = Some s' ∧
                    ∀ x, x ∈ s' ↔ x ∈ s ∨ liveSurface this pvs view nodeid x
  | None => liveSurfaceSet g' = None
  end.
Proof.
  intros H. apply gather_grown in H as [_ HS].
  destruct HS as [s s' H|]; [|done]. by exists s'.
Qed.

End ReachFacts.

Lemma gather_live_leaves_witness :
  ∃ g', BSP.gatherSurfaces BSP.Sample.transform BSP.Sample.frustum_contains 3
          BSP.Sample.renderer [true; false] [1; 10; 11] 0 BSP.Sample.start
        = Done g' ∧
    ∃ s', BSP.liveLeafSet g' = Some s' ∧
      ∀ l, l ∈ s' ↔
           l ∈ (∅ : gset Z) ∨
           BSP.liveLeaf BSP.Sample.transform BSP.Sample.frustum_contains
             BSP.Sample.renderer [true; false] [1; 10; 11] 0 l.
Proof.
  destruct (BSP.gatherSurfaces BSP.Sample.transform BSP.Sample.frustum_contains 3
              BSP.Sample.renderer [true; false] [1; 10; 11] 0 BSP.Sample.start)
    as [g'| |] eqn:Hwalk;
    [|vm_compute in Hwalk; discriminate Hwalk..].
  exists g'. split; [reflexivity|].
  exact (gather_live_leaves _ _ _ _ _ _ _ _ _ Hwalk).
Defined.

Lemma gather_live_surfaces_witness :
  ∃ g', BSP.gatherSurfaces BSP.Sample.transform BSP.Sample.frustum_contains 3
          BSP.Sample.renderer [true; true] [1; 10; 11] 0 BSP.Sample.start
        = Done g' ∧
    ∃ s', BSP.liveSurfaceSet g' = Some s' ∧
      ∀ x, x ∈ s' ↔
           x ∈ (∅ : gset Z) ∨
           BSP.liveSurface BSP.Sample.transform BSP.Sample.frustum_contains
             BSP.Sample.renderer [true; true] [1; 10; 11] 0 x.
Proof.
  destruct (BSP.gatherSurfaces BSP.Sample.transform BSP.Sample.frustum_contains 3
              BSP.Sample.renderer [true; true] [1; 10; 11] 0 BSP.Sample.start)
    as [g'| |] eqn:Hwalk;
    [|vm_compute in Hwalk; discriminate Hwalk..].
  exists g'. split; [reflexivity|].
  exact (gather_live_surfaces _ _ _ _ _ _ _ _ _ Hwalk).
Defined.

(** ** One scratch bitmap for all views *)

Section ViewFacts.

Import BSP.

Context {AABB Vec3 View : Type}.
Variable cameraPos : View → Vec3.
Variable findLeafForPoint : BSPFile AABB → Vec3 → option (BSPLeaf AABB).

Local Abbreviation calc := (calcPVS cameraPos findLeafForPoint).
Local Abbreviation mainPVS := (mainViewPVS cameraPos findLeafForPoint).
Local Abbreviation frame := (framePVS cameraPos findLeafForPoint).

Lemma or_length (m o : BitMap.t) : length (BitMap.or m o) = length m.
Proof. unfold BitMap.or. apply length_imap. Qed.

Lemma getBit_inside (m : BitMap.t) (n : Z) :
  BitMap.getBit m n = true → 0 ≤ n < Z.of_nat (length m).
Proof.
  unfold BitMap.getBit. destruct (n <? 0) eqn:Hn; [done|].
  apply Z.ltb_ge in Hn. destruct (m !! Z.to_nat n) eqn:Hl; [|done].
  apply lookup_lt_Some in Hl. lia.
Qed.

Lemma or_getBit (m o : BitMap.t) (n : Z) :
  BitMap.getBit (BitMap.or m o) n
  = BitMap.getBit m n || ((0 <=? n) && (n <? Z.of_nat (length m)) && BitMap.getBit o n).
Proof.
  unfold BitMap.or, BitMap.getBit.
  destruct (Z.ltb_spec n 0) as [Hn|Hn].
  - by rewrite (proj2 (Z.leb_gt 0 n)) by lia.
  - rewrite (proj2 (Z.leb_le 0 n)) by lia.
    rewrite list_lookup_imap. destruct (m !! Z.to_nat n) as [b|] eqn:Hl; simpl.
    + apply lookup_lt_Some in Hl.
      rewrite (proj2 (Z.ltb_lt n (Z.of_nat (length m)))) by lia.
      rewrite Z2Nat.id by lia.
      by rewrite (proj2 (Z.ltb_ge n 0)) by lia.
    + apply lookup_ge_None in Hl.
      by rewrite (proj2 (Z.ltb_ge n (Z.of_nat (length m)))) by lia.
Qed.

Lemma calcPVS_length pvsEnabled bsp (pvs : BitMap.t) view b pvs' :
  calc pvsEnabled bsp pvs view = Returned b pvs' → length pvs' = length pvs.
Proof.
  unfold calcPVS. destruct pvsEnabled; simpl; [|by intros [= <- <-]].
  destruct (findLeafForPoint _ _) as [leaf|]; [|by intros [= <- <-]].
  destruct (negb _); [|by intros [= <- <-]].
  destruct (lookupZ _ _) as [row|]; [|done].
  intros [= <- <-]. by rewrite or_length, fill_length.
Qed.

Lemma calcPVS_scratch pvsEnabled bsp (pvs1 pvs2 : BitMap.t) view :
  length pvs1 = length pvs2 →
  match calc pvsEnabled bsp pvs1 view, calc pvsEnabled bsp pvs2 view with
  | Returned true r1, Returned true r2 => r1 = r2
  | Returned false r1, Returned false r2 => r1 = pvs1 ∧ r2 = pvs2
  | Threw _, Threw _ => True
  | _, _ => False
  end.
Proof.
  intros Hlen. unfold calcPVS. destruct pvsEnabled; simpl; [|done].
  destruct (findLeafForPoint _ _) as [leaf|]; [|done].
  destruct (negb _); [|done].
  unfold BitMap.fill. rewrite Hlen. by destruct (lookupZ _ _).
Qed.

(** X3. The bitmap the main view is rendered with does not depend on what
    the scratch bitmap held before, only on its size: whatever an earlier
    view or frame left in it is overwritten. In particular the main view
    gets the same bitmap whether or not the 3D skybox view was computed
    through the same scratch bitmap first. *)
Theorem main_view_pvs_ignores_scratch_content pvsEnabled bsp
    (pvs1 pvs2 : BitMap.t) mainView :
  length pvs1 = length pvs2 →
  mainViewPVS cameraPos findLeafForPoint pvsEnabled bsp pvs1 mainView
  = mainViewPVS cameraPos findLeafForPoint pvsEnabled bsp pvs2 mainView ∧
  ∀ drawSkybox3D skyCameraView sky main,
    framePVS cameraPos findLeafForPoint drawSkybox3D pvsEnabled bsp
      skyCameraView mainView pvs1 = Done (sky, main) →
    mainViewPVS cameraPos findLeafForPoint pvsEnabled bsp pvs2 mainView
    = Done main.
Proof.
  intros Hlen.
  assert (Hmain : ∀ p1 p2 : BitMap.t, length p1 = length p2 →
            mainPVS pvsEnabled bsp p1 mainView = mainPVS pvsEnabled bsp p2 mainView).
  { intros p1 p2 Hl. unfold mainViewPVS.
    pose proof (calcPVS_scratch pvsEnabled bsp p1 p2 mainView Hl) as H.
    destruct (calc pvsEnabled bsp p1 mainView) as [[] r1|],
             (calc pvsEnabled bsp p2 mainView) as [[] r2|]; try done.
    - by rewrite H.
    - destruct H as [-> ->]. unfold BitMap.fill. by rewrite Hl. }
  split; [by apply Hmain|].
  intros drawSkybox3D skyCameraView sky main. unfold framePVS.
  destruct (if drawSkybox3D then skyCameraView else None) as [skyboxView|];
    simpl.
  - unfold skyboxViewPVS.
    destruct (calc pvsEnabled bsp pvs1 skyboxView) as [b r|] eqn:Hsky;
      simpl; [|done].
    apply calcPVS_length in Hsky.
    rewrite (Hmain r pvs2) by congruence.
    destruct (mainPVS pvsEnabled bsp pvs2 mainView); simpl; [|done..].
    by intros [= _ <-].
  - rewrite (Hmain pvs1 pvs2) by done.
    destruct (mainPVS pvsEnabled bsp pvs2 mainView); simpl; [|done..].
    by intros [= _ <-].
Qed.

(** X4. When [calcPVS] returns true the bitmap has kept its size and holds
    exactly the visibility row of the cluster of the camera's leaf: a bit
    inside the bitmap is set if and only if it is set in that row. *)
Theorem calcPVS_true_is_cluster_row pvsEnabled bsp (pvs : BitMap.t) view pvs' :
  calc pvsEnabled bsp pvs view = Returned true pvs' →
  ∃ leaf row,
    findLeafForPoint bsp (cameraPos view) = Some leaf ∧
    cluster leaf ≠ 0xFFFF ∧
    lookupZ (visibility_pvs bsp) (cluster leaf) = Some row ∧
    length pvs' = length pvs ∧
    ∀ n, BitMap.getBit pvs' n = true ↔
         0 ≤ n < Z.of_nat (length pvs) ∧ BitMap.getBit row n = true.
Proof.
  intros H. pose proof (calcPVS_length _ _ _ _ _ _ H) as Hlen.
  unfold calcPVS in H. destruct pvsEnabled; simpl in H; [|done].
  destruct (findLeafForPoint _ _) as [leaf|]; [|done].
  destruct (cluster leaf =? 65535) eqn:Hc; simpl in H; [done|].
  destruct (lookupZ _ _) as [row|] eqn:Hrow; [|done].
  injection H as <-. exists leaf, row.
  split; [done|]. split; [by apply Z.eqb_neq|]. split; [done|]. split; [done|].
  intros n. rewrite or_getBit, fill_length. split.
  - intros Hbit. apply orb_prop in Hbit as [Hbit|Hbit].
    + apply getBit_inside in Hbit as Hin. rewrite fill_length in Hin.
      by rewrite fill_getBit in Hbit.
    + apply andb_prop in Hbit as [Hin Hbit].
      apply andb_prop in Hin as [H0 H1]. split; [|done].
      apply Z.leb_le in H0. apply Z.ltb_lt in H1. lia.
  - intros [Hin ->]. rewrite fill_getBit by done. simpl.
    rewrite (proj2 (Z.leb_le 0 n)), (proj2 (Z.ltb_lt n _)) by lia. done.
Qed.

End ViewFacts.

Lemma main_view_pvs_ignores_scratch_content_witness :
  BSP.mainViewPVS BSP.Sample.cameraPos BSP.Sample.findLeafForPoint true
    BSP.Sample.world [false; true] [0]
  = BSP.mainViewPVS BSP.Sample.cameraPos BSP.Sample.findLeafForPoint true
      BSP.Sample.world [true; true] [0].
Proof.
  exact (proj1 (main_view_pvs_ignores_scratch_content BSP.Sample.cameraPos
                  BSP.Sample.findLeafForPoint true BSP.Sample.world
                  [false; true] [true; true] [0] eq_refl)).
Defined.

Lemma calcPVS_true_is_cluster_row_witness :
  ∃ leaf row,
    BSP.Sample.findLeafForPoint BSP.Sample.world (BSP.Sample.cameraPos [1])
    = Some leaf ∧
    BSP.cluster leaf ≠ 0xFFFF ∧
    lookupZ (BSP.visibility_pvs BSP.Sample.world) (BSP.cluster leaf) = Some row ∧
    length [true; true] = length [false; false] ∧
    ∀ n, BitMap.getBit [true; true] n = true ↔
         0 ≤ n < Z.of_nat (length [false; false]) ∧ BitMap.getBit row n = true.
Proof.
  exact (calcPVS_true_is_cluster_row BSP.Sample.cameraPos
           BSP.Sample.findLeafForPoint true BSP.Sample.world
           [false; false] [1] [true; true] eq_refl).
Defined.

(** ** Which surfaces are drawn *)

Section SurfaceFacts.

Import BSP.

Context {AABB Mat4 View : Type}.
Variable transform : AABB → Mat4 → AABB.
Variable frustum_contains : View → AABB → bool.

Local Abbreviation prepare := (surface_prepareToRender transform frustum_contains).
Local Abbreviation prepareWorld := (prepareToRenderWorld transform frustum_contains).

Lemma anyClusterVisible_spec (pvs : BitMap.t) (clusterset : list Z) :
  anyClusterVisible pvs clusterset = true ↔
  ∃ c, c ∈ clusterset ∧ BitMap.getBit pvs c = true.
Proof.
  induction clusterset as [|c cs IH]; simpl.
  - split; [done|]. intros (c & Hc & _). by apply elem_of_nil in Hc.
  - destruct (BitMap.getBit pvs c) eqn:Hbit.
    + split; [|done]. intros _. exists c. split; [left|done].
    + rewrite IH. split.
      * intros (c' & Hc' & Hb). exists c'. split; [by right|done].
      * intros (c' & Hc' & Hb). apply elem_of_cons in Hc' as [->|Hc'].
        -- congruence.
        -- by exists c'.
Qed.

(** X5. A surface is submitted for drawing exactly when it is visible, has
    a material that is visible, passes the cluster test if a PVS is given
    (some cluster of its cluster set has its bit set) and has no bounding box
    or one inside the frustum once moved by the model matrix. It is then
    filed under the translucent filter key if its material is translucent and
    under the key of the template otherwise. The call throws exactly when a
    visible surface with a visible material is given a PVS and has no cluster
    set. *)
Theorem surface_drawn_iff (this : BSPSurfaceRenderer AABB) templateKey view
    modelMatrix (pvs : option BitMap.t) :
  (∀ filterKey,
     prepare this templateKey view modelMatrix pvs = Drawn filterKey ↔
     surface_visible this = true ∧
     (∃ material, materialInstance this = Some material ∧
        isMaterialVisible material = true ∧
        filterKey = if isTranslucent material then Translucent else templateKey) ∧
     (∀ p, pvs = Some p →
        ∃ cs, clusterset this = Some cs ∧
          ∃ c, c ∈ cs ∧ BitMap.getBit p c = true) ∧
     (∀ bbox, surface_bbox this = Some bbox →
        frustum_contains view (transform bbox modelMatrix) = true)) ∧
  (prepare this templateKey view modelMatrix pvs = AssertionFailed ↔
   surface_visible this = true ∧
   (∃ material, materialInstance this = Some material ∧
      isMaterialVisible material = true) ∧
   pvs ≠ None ∧ clusterset this = None).
Proof.
  unfold surface_prepareToRender. split; [intros filterKey|].
  - destruct (materialInstance this) as [material|].
    2:{ split; [done|]. by intros (_ & (m & ? & _) & _). }
    destruct (surface_visible this); simpl.
    2:{ split; [done|]. by intros (? & _). }
    destruct (isMaterialVisible material) eqn:Hvis; simpl.
    2:{ split; [done|]. intros (_ & (m & [= <-] & ? & _) & _). congruence. }
    assert (Hbox :
      (if match surface_bbox this with
          | Some bbox => negb (frustum_contains view (transform bbox modelMatrix))
          | None => false
          end
       then NotDrawn
       else Drawn (if isTranslucent material then Translucent else templateKey))
      = Drawn filterKey ↔
      filterKey = (if isTranslucent material then Translucent else templateKey) ∧
      ∀ bbox, surface_bbox this = Some bbox →
        frustum_contains view (transform bbox modelMatrix) = true).
    { destruct (surface_bbox this) as [bbox|].
      - destruct (frustum_contains view _) eqn:Hf; simpl.
        + split.
          * intros [= <-]. split; [done|]. by intros ? [= <-].
          * by intros [-> _].
        + split; [done|]. intros [_ H]. specialize (H bbox eq_refl). congruence.
      - split.
        + by intros [= <-].
        + by intros [-> _]. }
    destruct pvs as [p|].
    + destruct (clusterset this) as [cs|].
      * destruct (anyClusterVisible p cs) eqn:Hany; simpl.
        -- rewrite Hbox. apply anyClusterVisible_spec in Hany. split.
           ++ intros [-> Hb]. split; [done|]. split; [by exists material|].
              split; [|done]. intros ? [= <-]. by exists cs.
           ++ intros (_ & (m & [= <-] & _ & ->) & _ & Hb). done.
        -- split; [done|]. intros (_ & _ & Hp & _).
           destruct (Hp p eq_refl) as (cs' & [= <-] & Hc).
           apply anyClusterVisible_spec in Hc. congruence.
      * split; [done|]. intros (_ & _ & Hp & _).
        by destruct (Hp p eq_refl) as (cs' & ? & _).
    + rewrite Hbox. split.
      * intros [-> Hb]. split; [done|]. split; [by exists material|]. done.
      * intros (_ & (m & [= <-] & _ & ->) & _ & Hb). done.
  - destruct (materialInstance this) as [material|].
    2:{ split; [done|]. by intros (_ & (m & ? & _) & _). }
    destruct (surface_visible this); simpl.
    2:{ split; [done|]. by intros (? & _). }
    destruct (isMaterialVisible material) eqn:Hvis; simpl.
    2:{ split; [done|]. intros (_ & (m & [= <-] & ?) & _). congruence. }
    assert (Hbox :
      (if match surface_bbox this with
          | Some bbox => negb (frustum_contains view (transform bbox modelMatrix))
          | None => false
          end
       then NotDrawn
       else Drawn (if isTranslucent material then Translucent else templateKey))
      ≠ AssertionFailed).
    { by destruct (match surface_bbox this with Some _ => _ | None => _ end). }
    destruct pvs as [p|].
    + destruct (clusterset this) as [cs|].
      * split; [|by intros (_ & _ & _ & ?)].
        destruct (negb _); [done|]. intros H. by destruct Hbox.
      * split; [|done]. intros _. split; [done|]. split; [by exists material|].
        done.
    + split; [intros H; by destruct Hbox|]. by intros (_ & _ & ? & _).
Qed.

Lemma prepareSurfaces_spec (this : WorldModel AABB Mat4) templateKey view live prepared :
  prepareSurfaces transform frustum_contains this templateKey view live = Done prepared →
  prepared.*1 = live ∧
  ∀ surfaceIdx p, (surfaceIdx, p) ∈ prepared →
    ∃ surface, surfacesByIdx this !! surfaceIdx = Some surface ∧
      p = prepare surface templateKey view (modelMatrix (tree this)) None.
Proof.
  revert prepared. induction live as [|idx live IH]; intros prepared; simpl.
  - intros [= <-]. split; [done|]. intros ? ? H. by apply elem_of_nil in H.
  - destruct (surfacesByIdx this !! idx) as [surface|] eqn:Hs; [|done].
    destruct (prepareSurfaces _ _ _ _ _ live) as [rest| |]; simpl; [|done..].
    intros [= <-]. destruct (IH rest eq_refl) as [Hfst Hall]. split.
    + by rewrite fmap_cons, Hfst.
    + intros i p Hin. apply elem_of_cons in Hin as [[= -> ->]|Hin].
      * by exists surface.
      * by apply Hall.
Qed.

(** X6. When [prepareToRenderWorld] completes for a world model that is
    visible and whose box is in the frustum, the surfaces prepared from the
    tree are exactly the surfaces of the leaves that the walk reaches and
    that are in the PVS and in the frustum, each one once however many such
    leaves share it, and each is prepared without a PVS; every displacement
    surface is prepared with the PVS. For a world model that is hidden or
    outside the frustum nothing is prepared. *)
Theorem world_prepares_live_surfaces_once fuel (this : WorldModel AABB Mat4)
    templateKey view (pvs : BitMap.t) displacements prepared :
  prepareWorld fuel this templateKey view pvs = Done (displacements, prepared) →
  if prepareToRenderCommon transform frustum_contains this view
  then
    displacements
    = (λ surface, prepare surface templateKey view (modelMatrix (tree this))
                    (Some pvs)) <$> displacementSurfaces this ∧
    NoDup prepared.*1 ∧
    (∀ surfaceIdx,
       surfaceIdx ∈ prepared.*1 ↔
       liveSurface transform frustum_contains (tree this) pvs view
         (headnode _ _ (tree this)) surfaceIdx) ∧
    (∀ surfaceIdx p, (surfaceIdx, p) ∈ prepared →
       ∃ surface, surfacesByIdx this !! surfaceIdx = Some surface ∧
         p = prepare surface templateKey view (modelMatrix (tree this)) None)
  else displacements = [] ∧ prepared = [].
Proof.
  unfold prepareToRenderWorld.
  destruct (prepareToRenderCommon _ _ this view); simpl;
    [|by intros [= <- <-]].
  destruct (gatherSurfaces _ _ fuel _ _ _ _ _) as [g| |] eqn:Hwalk;
    simpl; [|done..].
  apply gather_grown in Hwalk as [_ Hwalk]. simpl in Hwalk.
  inversion Hwalk as [? live Hlive Hempty Hsome|]; subst. clear Hwalk.
  destruct (prepareSurfaces _ _ _ _ _ _) as [rest| |] eqn:Hrest;
    simpl; [|done..].
  intros [= <- <-]. apply prepareSurfaces_spec in Hrest as [Hfst Hall].
  split; [done|]. rewrite Hfst. split; [apply NoDup_elements|].
  split; [|done]. intros idx. rewrite elem_of_elements, Hlive.
  rewrite elem_of_empty. tauto.
Qed.

End SurfaceFacts.

Lemma world_prepares_live_surfaces_once_witness :
  ∃ displacements prepared,
    BSP.prepareToRenderWorld BSP.Sample.transform BSP.Sample.frustum_contains 3
      BSP.Sample.worldModel BSP.Main [1; 10; 11] [true; true]
    = Done (displacements, prepared) ∧
    NoDup prepared.*1 ∧
    ∀ surfaceIdx,
      surfaceIdx ∈ prepared.*1 ↔
      BSP.liveSurface BSP.Sample.transform BSP.Sample.frustum_contains
        BSP.Sample.renderer [true; true] [1; 10; 11] 0 surfaceIdx.
Proof.
  destruct (BSP.prepareToRenderWorld BSP.Sample.transform
              BSP.Sample.frustum_contains 3 BSP.Sample.worldModel BSP.Main
              [1; 10; 11] [true; true]) as [[displacements prepared]| |] eqn:Hrun;
    [|vm_compute in Hrun; discriminate Hrun..].
  exists displacements, prepared. split; [reflexivity|].
  pose proof (world_prepares_live_surfaces_once _ _ _ _ _ _ _ _ _ Hrun) as H.
  change (BSP.prepareToRenderCommon BSP.Sample.transform
            BSP.Sample.frustum_contains BSP.Sample.worldModel [1; 10; 11])
    with true in H.
  exact (conj (proj1 (proj2 H)) (proj1 (proj2 (proj2 H)))).
Defined.

(** ** Events over a run of frames *)

Section TickFacts.

Import Entities.
Local Open Scope Qc_scope.

Context {Entity : Type}.
Variable entity_targetName : Entity → option string.
Variable entity_alive : Entity → bool.
Variable fireInput : nat → string → string → EntitySystem Entity → EntitySystem Entity.
Variable entity_movement : nat → Qc → EntitySystem Entity → EntitySystem Entity.

Local Abbreviation fireAction := (fireEntityOutputAction Entity entity_targetName fireInput).
Local Abbreviation drainFrom := (processOutputQueueFrom Entity entity_targetName fireInput).
Local Abbreviation drain := (processOutputQueue Entity entity_targetName fireInput).
Local Abbreviation tick :=
  (movement Entity entity_targetName entity_alive fireInput entity_movement).
Local Abbreviation run :=
  (movements entity_targetName entity_alive fireInput entity_movement).

Lemma findEntityFrom_spec (l : list Entity) (name : string) :
  match findEntityFrom entity_targetName l name with
  | Some entity =>
    ∃ i, l !! i = Some entity ∧ entity_targetName entity = Some name ∧
      ∀ j other, (j < i)%nat → l !! j = Some other →
        entity_targetName other ≠ Some name
  | None => ∀ other, other ∈ l → entity_targetName other ≠ Some name
  end.
Proof.
  induction l as [|e l IH]; simpl.
  - intros other H. by apply elem_of_nil in H.
  - destruct (bool_decide (entity_targetName e = Some name)) eqn:He.
    + apply bool_decide_eq_true_1 in He. exists 0%nat.
      split; [done|]. split; [done|]. intros j other Hj. lia.
    + apply bool_decide_eq_false_1 in He.
      destruct (findEntityFrom entity_targetName l name) as [entity|].
      * destruct IH as (i & Hi & Hname & Hfirst). exists (S i).
        split; [done|]. split; [done|]. intros [|j] other Hj Hl.
        -- by injection Hl as <-.
        -- apply (Hfirst j); [lia|done].
      * intros other Hin. apply elem_of_cons in Hin as [->|Hin]; [done|].
        by apply IH.
Qed.

Lemma deliver_no_match event (l : list nat) (es : EntitySystem Entity) :
  (∀ other, other ∈ entities es →
     entity_targetName other ≠ Some (targetName (action event))) →
  foldl (deliver Entity entity_targetName fireInput event) es l = es.
Proof.
  intros Hno. induction l as [|i l IH]; simpl; [done|].
  assert (deliver Entity entity_targetName fireInput event es i = es) as ->;
    [|done].
  unfold deliver. destruct (entities es !! i) as [target|] eqn:Hi; [|done].
  unfold entityMatchesTargetName. rewrite bool_decide_eq_false_2; [done|].
  apply Hno. by eapply list_elem_of_lookup_2.
Qed.

(** X7. [findEntityByTargetName] answers with the first entity, in the
    order of the entity list, whose target name is the one asked for, and
    with [null] exactly when no entity has that name. An event whose target
    name no entity has is consumed all the same once it is due: it is
    reported as fired, so the drain removes it from the queue, and nothing
    else changes. *)
Theorem event_without_target_is_dropped (es : EntitySystem Entity)
    (name : string) :
  match findEntityByTargetName entity_targetName es name with
  | Some entity =>
    ∃ i, entities es !! i = Some entity ∧
      entity_targetName entity = Some name ∧
      ∀ j other, (j < i)%nat → entities es !! j = Some other →
        entity_targetName other ≠ Some name
  | None =>
    (∀ other, other ∈ entities es → entity_targetName other ≠ Some name) ∧
    ∀ event, targetName (action event) = name →
      due (currentTime es) event → fireAction es event = (true, es)
  end.
Proof.
  unfold findEntityByTargetName.
  pose proof (findEntityFrom_spec (entities es) name) as H.
  destruct (findEntityFrom entity_targetName (entities es) name); [done|].
  split; [done|]. intros event <- Hd. unfold fireEntityOutputAction.
  destruct (decide _) as [Hlt|_].
  - exfalso. by apply (Qcle_not_lt _ _ Hd).
  - by rewrite deliver_no_match.
Qed.

Lemma filter_none {A} (P : A → Prop) `{∀ x, Decision (P x)} (l : list A) :
  Forall (λ x, ¬ P x) l → filter P l = [].
Proof.
  induction 1 as [|x l Hx _ IH]; [done|]. by rewrite filter_cons_False.
Qed.

Lemma filter_all {A} (P : A → Prop) `{∀ x, Decision (P x)} (l : list A) :
  Forall P l → filter P l = l.
Proof.
  induction 1 as [|x l Hx _ IH]; [done|]. rewrite filter_cons_True by done.
  by rewrite IH.
Qed.

Section Later.

(** Handlers that never move the clock and push only events that are not
    yet due when they are pushed. *)
Hypothesis handler_time : ∀ i n v es,
  currentTime (fireInput i n v es) = currentTime es.
Hypothesis handler_later : ∀ i n v es, ∃ pushed,
  Forall (λ e, ¬ due (currentTime es) e) pushed ∧
  outputQueue (fireInput i n v es) = outputQueue es ++ pushed.

Lemma deliver_all_later event (l : list nat) (es : EntitySystem Entity) :
  let es' := foldl (deliver Entity entity_targetName fireInput event) es l in
  currentTime es' = currentTime es ∧
  ∃ pushed, Forall (λ e, ¬ due (currentTime es) e) pushed ∧
    outputQueue es' = outputQueue es ++ pushed.
Proof.
  revert es. induction l as [|i l IH]; intros es; simpl.
  - split; [done|]. exists []. by rewrite app_nil_r.
  - destruct (IH (deliver Entity entity_targetName fireInput event es i))
      as (Ht & p2 & HP2 & Hq).
    assert (currentTime (deliver Entity entity_targetName fireInput event es i)
            = currentTime es ∧
            ∃ p1, Forall (λ e, ¬ due (currentTime es) e) p1 ∧
                  outputQueue (deliver Entity entity_targetName fireInput event es i)
                  = outputQueue es ++ p1) as (Ht1 & p1 & HP1 & Hq1).
    { unfold deliver. destruct (entities es !! i) as [target|].
      - destruct (negb _).
        + split; [done|]. exists []. by rewrite app_nil_r.
        + split; [apply handler_time | apply handler_later].
      - split; [done|]. exists []. by rewrite app_nil_r. }
    rewrite Ht1 in Ht, HP2.
    split; [done|]. exists (p1 ++ p2).
    split; [by apply Forall_app|]. by rewrite Hq, Hq1, <- app_assoc.
Qed.

Lemma drainFrom_later (n : nat) :
  ∀ (rest kept : list QueuedOutputEvent) (es : EntitySystem Entity),
    outputQueue es = kept ++ rest →
    length (filter (due (currentTime es)) rest) = n →
    ∃ fuel es' log pushed,
      drainFrom fuel (length kept) es = Done (es', log) ∧
      log = filter (due (currentTime es)) rest ∧
      currentTime es' = currentTime es ∧
      Forall (λ e, ¬ due (currentTime es) e) pushed ∧
      outputQueue es' =
        kept ++ filter (λ e, ¬ due (currentTime es) e) rest ++ pushed.
Proof.
  induction n as [n IHn] using lt_wf_ind.
  induction rest as [|event rest IHrest]; intros kept es Hq Hn.
  - exists 1%nat, es, [], []. simpl. rewrite Hq, app_nil_r.
    rewrite lookup_ge_None_2 by lia. done.
  - destruct (decide (due (currentTime es) event)) as [Hd|Hnd].
    + rewrite filter_cons_True in Hn by done. simpl in Hn.
      destruct (deliver_all_later event (seq 0 (length (entities es))) es)
        as (Ht1 & p1 & HP1 & Hq1).
      set (es1 := foldl (deliver Entity entity_targetName fireInput event) es
                    (seq 0 (length (entities es)))) in *.
      set (es2 := {| entities := entities es1; currentTime := currentTime es1;
                     outputQueue := delete (length kept) (outputQueue es1) |}).
      assert (Hq2 : outputQueue es2 = kept ++ (rest ++ p1)).
      { simpl. rewrite Hq1, Hq, <- app_assoc. simpl. by rewrite delete_middle. }
      assert (Hcount : (length (filter (due (currentTime es2)) (rest ++ p1)) < n)%nat).
      { simpl. rewrite Ht1, list.filter_app, (filter_none _ p1) by done.
        rewrite app_nil_r. lia. }
      destruct (IHn _ Hcount (rest ++ p1) kept es2 Hq2 eq_refl)
        as (fuel & es' & log & p2 & Hrun & Hlog & Ht' & HP2 & Hq').
      simpl in Hlog, Ht', HP2, Hq'. rewrite Ht1 in Hlog, Ht', HP2, Hq'.
      exists (S fuel), es', (event :: log), (p1 ++ p2).
      split.
      { simpl. rewrite Hq, list_lookup_middle by done.
        unfold fireEntityOutputAction. destruct (decide _) as [Hlt|_].
        - exfalso. by apply (Qcle_not_lt _ _ Hd).
        - fold es1. fold es2. by rewrite Hrun. }
      rewrite filter_cons_True by done.
      rewrite (filter_cons_False (λ e, ¬ due _ e)) by (intros H; by apply H).
      rewrite Hlog, Hq', !list.filter_app, (filter_none _ p1) by done.
      rewrite (filter_all (λ e, ¬ due _ e) p1) by done.
      rewrite app_nil_r, <- !app_assoc.
      split; [done|]. split; [done|]. split; [by apply Forall_app|done].
    + rewrite filter_cons_False in Hn by done.
      destruct (IHrest (kept ++ [event]) es) as
        (fuel & es' & log & p & Hrun & Hlog & Ht' & HP & Hq');
        [by rewrite <- app_assoc|done|].
      exists (S fuel), es', log, p.
      split.
      { simpl. rewrite Hq, list_lookup_middle by done.
        unfold fireEntityOutputAction. rewrite decide_True.
        - rewrite length_app in Hrun. simpl in Hrun.
          by replace (S (length kept)) with (length kept + 1)%nat by lia.
        - by apply Qcnot_le_lt. }
      rewrite filter_cons_False by done.
      rewrite (filter_cons_True (λ e, ¬ due _ e)) by done.
      rewrite Hq', <- app_assoc. done.
Qed.

(** X8. When every input handler leaves the clock alone and pushes only
    events that are not yet due, a drain of the queue returns, however many
    events are queued and pushed: it fires exactly the events of the queue
    that are due, each once and in queue order, and leaves the others in the
    queue, in order, followed by what the handlers pushed. *)
Theorem drain_returns_when_pushes_are_later (es : EntitySystem Entity) :
  ∃ fuel es' log pushed,
    drain fuel es = Done (es', log) ∧
    log = filter (due (currentTime es)) (outputQueue es) ∧
    currentTime es' = currentTime es ∧
    Forall (λ e, ¬ due (currentTime es) e) pushed ∧
    outputQueue es' =
      filter (λ e, ¬ due (currentTime es) e) (outputQueue es) ++ pushed.
Proof.
  exact (drainFrom_later _ (outputQueue es) [] es eq_refl eq_refl).
Qed.

End Later.

End TickFacts.

Section FrameFacts.

Import Entities.
Local Open Scope Qc_scope.

Context {Entity : Type}.
Variable entity_targetName : Entity → option string.
Variable entity_alive : Entity → bool.
Variable fireInput : nat → string → string → EntitySystem Entity → EntitySystem Entity.
Variable entity_movement : nat → Qc → EntitySystem Entity → EntitySystem Entity.

Local Abbreviation tick :=
  (movement Entity entity_targetName entity_alive fireInput entity_movement).
Local Abbreviation run :=
  (movements entity_targetName entity_alive fireInput entity_movement).

(** What the entities of the sources guarantee: neither an input handler
    nor a [movement] method moves the clock, and both touch the queue only
    by pushing to it. *)
Hypothesis fireInput_time : ∀ i n v es,
  currentTime (fireInput i n v es) = currentTime es.
Hypothesis fireInput_queue : ∀ i n v es, ∃ pushed,
  outputQueue (fireInput i n v es) = outputQueue es ++ pushed.
Hypothesis movement_time : ∀ i dt es,
  currentTime (entity_movement i dt es) = currentTime es.
Hypothesis movement_queue : ∀ i dt es, ∃ pushed,
  outputQueue (entity_movement i dt es) = outputQueue es ++ pushed.

Lemma moveAll_spec dt (l : list nat) (es : EntitySystem Entity) :
  let es' := foldl (moveEntity Entity entity_alive entity_movement dt) es l in
  currentTime es' = currentTime es ∧
  ∃ pushed, outputQueue es' = outputQueue es ++ pushed.
Proof.
  revert es. induction l as [|i l IH]; intros es; simpl.
  - split; [done|]. exists []. by rewrite app_nil_r.
  - destruct (IH (moveEntity Entity entity_alive entity_movement dt es i))
      as (Ht & p2 & Hq).
    assert (currentTime (moveEntity Entity entity_alive entity_movement dt es i)
            = currentTime es ∧
            ∃ p1, outputQueue (moveEntity Entity entity_alive entity_movement dt es i)
                  = outputQueue es ++ p1) as (Ht1 & p1 & Hq1).
    { unfold moveEntity. destruct (entities es !! i) as [e|].
      - destruct (entity_alive e).
        + split; [apply movement_time | apply movement_queue].
        + split; [done|]. exists []. by rewrite app_nil_r.
      - split; [done|]. exists []. by rewrite app_nil_r. }
    split; [by rewrite Ht|]. exists (p1 ++ p2).
    by rewrite Hq, Hq1, <- app_assoc.
Qed.

(** One frame: the clock moves on by the length of the frame, only due
    events are fired, and an event that was queued is fired if it is due and
    is still queued otherwise. *)
Lemma tick_spec fuel dt (es es' : EntitySystem Entity) log :
  tick fuel dt es = Done (es', log) →
  currentTime es' = currentTime es + dt ∧
  (∀ e, e ∈ log → due (currentTime es) e) ∧
  (∀ e, e ∈ outputQueue es →
     if decide (due (currentTime es) e) then e ∈ log else e ∈ outputQueue es').
Proof.
  unfold movement.
  destruct (processOutputQueue _ _ _ fuel es) as [[es1 log1]| |] eqn:Hdrain;
    simpl; [|done..].
  intros [= <- <-]. simpl.
  assert (Hq : ∀ i n v es0, ∃ pushed, True ∧
            outputQueue (fireInput i n v es0) = outputQueue es0 ++ pushed).
  { intros i n v es0. destruct (fireInput_queue i n v es0) as [p Hp]. eauto. }
  destruct (drainFrom_spec entity_targetName fireInput (λ _, True) I
              (λ _ _ _ _, I) fireInput_time Hq
              fuel [] (outputQueue es) es es1 log1 eq_refl Hdrain)
    as (p & _ & Hlog & Hq1 & Ht1).
  destruct (moveAll_spec dt (seq 0 (length (entities es1))) es1)
    as (Ht2 & p2 & Hq2).
  simpl in Hq1. rewrite Ht2, Ht1. split; [done|]. split.
  - intros e He. rewrite Hlog in He. by apply list_elem_of_filter in He as [? _].
  - intros e He. destruct (decide (due (currentTime es) e)) as [Hd|Hnd].
    + rewrite Hlog. apply list_elem_of_filter. split; [done|].
      apply elem_of_app. by left.
    + rewrite Hq2, Hq1. apply elem_of_app. left.
      apply list_elem_of_filter. split; [done|]. apply elem_of_app. by left.
Qed.

Lemma sumQc_take_0 (t : Qc) (dts : list Qc) : t + sumQc (take 0 dts) = t.
Proof. rewrite take_0. unfold sumQc. simpl. ring. Qed.

Lemma sumQc_take_S (t dt : Qc) (dts : list Qc) (k : nat) :
  t + sumQc (take (S k) (dt :: dts)) = (t + dt) + sumQc (take k dts).
Proof. simpl. ring. Qed.

(** X9. Over a run of frames the clock advances by the lengths of the
    frames; an event is fired only in a frame at whose start it is due; an
    event in the queue is fired no later than the first frame at whose start
    it is due; and an event in the queue is never lost: at the end of the run
    it has been fired or is still queued. *)
Theorem delayed_event_fires_on_time fuel (dts : list Qc)
    (es es' : EntitySystem Entity) logs :
  run fuel dts es = Done (es', logs) →
  length logs = length dts ∧
  currentTime es' = currentTime es + sumQc dts ∧
  (∀ k log e, logs !! k = Some log → e ∈ log →
     due (currentTime es + sumQc (take k dts)) e) ∧
  (∀ e k, e ∈ outputQueue es → (k < length dts)%nat →
     due (currentTime es + sumQc (take k dts)) e →
     ∃ j log, (j ≤ k)%nat ∧ logs !! j = Some log ∧ e ∈ log) ∧
  (∀ e, e ∈ outputQueue es →
     e ∈ outputQueue es' ∨ ∃ j log, logs !! j = Some log ∧ e ∈ log).
Proof.
  revert es es' logs. induction dts as [|dt dts IH]; intros es es' logs; simpl.
  - intros [= <- <-]. split; [done|]. split; [unfold sumQc; simpl; ring|].
    split; [by intros k ? ? ?|]. split; [intros ? ? ? ?; simpl in *; lia|].
    intros e He. by left.
  - destruct (tick fuel dt es) as [[es1 log1]| |] eqn:Htick; simpl; [|done..].
    destruct (run fuel dts es1) as [[es2 logs2]| |] eqn:Hrun; simpl; [|done..].
    intros [= <- <-].
    apply tick_spec in Htick as (Ht1 & Hdue1 & Hkeep1).
    apply IH in Hrun as (Hlen & Ht2 & Hdue2 & Hontime2 & Hkeep2).
    split; [simpl; by rewrite Hlen|].
    split; [rewrite Ht2, Ht1; unfold sumQc; simpl; ring|]. split; [|split].
    + intros [|k] log e Hk He.
      * injection Hk as <-. rewrite sumQc_take_0. by apply Hdue1.
      * rewrite sumQc_take_S, <- Ht1. by apply (Hdue2 k log).
    + intros e k He Hk Hd. specialize (Hkeep1 e He).
      destruct (decide (due (currentTime es) e)) as [Hnow|Hnot].
      * exists 0%nat, log1. split; [lia|]. done.
      * destruct k as [|k].
        -- exfalso. apply Hnot. by rewrite sumQc_take_0 in Hd.
        -- rewrite sumQc_take_S, <- Ht1 in Hd.
           destruct (Hontime2 e k Hkeep1 ltac:(simpl in Hk; lia) Hd)
             as (j & log & Hj & Hlog & Hin).
           exists (S j), log. split; [lia|]. done.
    + intros e He. specialize (Hkeep1 e He).
      destruct (decide (due (currentTime es) e)) as [Hnow|Hnot].
      * right. by exists 0%nat, log1.
      * destruct (Hkeep2 e Hkeep1) as [?|(j & log & Hlog & Hin)]; [by left|].
        right. by exists (S j), log.
Qed.

End FrameFacts.

Lemma extends_toggle_movement {Entity} (es : Entities.EntitySystem Entity) dt d :
  Entities.extends es (Entities.toggle_movement Entity es dt d).1.
Proof.
  unfold Entities.toggle_movement.
  repeat case_decide; simpl; auto using extends_moveDone, extends_refl.
Qed.

Lemma sample_movement_extends i dt (es : Entities.EntitySystem Entities.Sample.Entity) :
  Entities.extends es (Entities.Sample.entity_movement i dt es).
Proof.
  unfold Entities.Sample.entity_movement.
  destruct (Entities.entities es !! i) as [[name o|name d|name c]|];
    try apply extends_refl.
  pose proof (extends_toggle_movement es dt d) as H.
  destruct (Entities.toggle_movement _ es dt d) as [es1 d1]. cbn [fst] in H.
  by apply extends_store.
Qed.

Lemma Qc_later (t : Qc) : (¬ t + 1 <= t)%Qc.
Proof. intros H. qc_order. Qed.

Lemma event_without_target_is_dropped_witness :
  Entities.fireEntityOutputAction Entities.Sample.Entity
    Entities.Sample.entity_targetName Entities.Sample.fireInput
    Entities.Sample.level
    {| Entities.triggerTime := 0%Qc;
       Entities.action := Entities.Sample.act "nobody" "trigger" "" 0%Qc;
       Entities.value := "" |}
  = (true, Entities.Sample.level).
Proof.
  exact (proj2 (event_without_target_is_dropped Entities.Sample.entity_targetName
                  Entities.Sample.fireInput Entities.Sample.level "nobody")
           {| Entities.triggerTime := 0%Qc;
              Entities.action := Entities.Sample.act "nobody" "trigger" "" 0%Qc;
              Entities.value := "" |}
           eq_refl (Qcle_refl 0%Qc)).
Defined.

Lemma drain_returns_when_pushes_are_later_witness :
  ∃ fuel es' log pushed,
    Entities.processOutputQueue Entities.Sample.Entity
      Entities.Sample.entity_targetName
      (λ _ _ _ es,
         Entities.fire Entities.Sample.Entity
           (Entities.Sample.out [Entities.Sample.act "relay" "trigger" "" 1%Qc])
           es "")
      fuel
      (Entities.fire Entities.Sample.Entity
         (Entities.Sample.out [Entities.Sample.act "relay" "trigger" "" 0%Qc])
         Entities.Sample.level "")
    = Done (es', log) ∧
    log = [ {| Entities.triggerTime := (0 + 0)%Qc;
               Entities.action := Entities.Sample.act "relay" "trigger" "" 0%Qc;
               Entities.value := "" |} ] ∧
    Entities.currentTime es' = 0%Qc ∧
    Forall (λ e, ¬ Entities.due 0%Qc e) pushed ∧
    Entities.outputQueue es' = [] ++ pushed.
Proof.
  apply (drain_returns_when_pushes_are_later Entities.Sample.entity_targetName
           (λ _ _ _ es,
              Entities.fire Entities.Sample.Entity
                (Entities.Sample.out
                   [Entities.Sample.act "relay" "trigger" "" 1%Qc]) es "")).
  - intros _ _ _ es. by rewrite fire_spec.
  - intros _ _ _ es. rewrite fire_spec. eexists. split; [|reflexivity].
    repeat constructor. apply Qc_later.
Defined.

Lemma delayed_event_fires_on_time_witness :
  ∃ es' logs,
    Entities.movements Entities.Sample.entity_targetName
      Entities.Sample.entity_alive Entities.Sample.fireInput
      Entities.Sample.entity_movement 4
      [Entities.Sample.Q 1; Entities.Sample.Q 1; Entities.Sample.Q 1]
      (Entities.fire Entities.Sample.Entity Entities.Sample.relay
         Entities.Sample.level "")
    = Done (es', logs) ∧
    length logs = 3%nat ∧
    Entities.currentTime es'
    = (0 + Entities.sumQc
             [Entities.Sample.Q 1; Entities.Sample.Q 1; Entities.Sample.Q 1])%Qc.
Proof.
  destruct (Entities.movements Entities.Sample.entity_targetName
              Entities.Sample.entity_alive Entities.Sample.fireInput
              Entities.Sample.entity_movement 4
              [Entities.Sample.Q 1; Entities.Sample.Q 1; Entities.Sample.Q 1]
              (Entities.fire Entities.Sample.Entity Entities.Sample.relay
                 Entities.Sample.level ""))
    as [[es' logs]| |] eqn:Hrun;
    [|vm_compute in Hrun; discriminate Hrun..].
  exists es', logs. split; [reflexivity|].
  pose proof (delayed_event_fires_on_time Entities.Sample.entity_targetName
                Entities.Sample.entity_alive Entities.Sample.fireInput
                Entities.Sample.entity_movement
                (λ i n v es, proj1 (sample_fireInput_extends i n v es))
                (λ i n v es, proj2 (sample_fireInput_extends i n v es))
                (λ i dt es, proj1 (sample_movement_extends i dt es))
                (λ i dt es, proj2 (sample_movement_extends i dt es))
                _ _ _ _ _ Hrun) as H.
  exact (conj (proj1 H) (proj1 (proj2 H))).
Defined.

(** ** Doors over any run of inputs and frames *)

Section DoorRunFacts.

Import Entities.
Local Open Scope Qc_scope.

Context {Entity : Type}.
Variable sqrt : Qc → Qc.

Local Abbreviation step := (door_step Entity sqrt).
Local Abbreviation run := (door_run Entity sqrt).

Lemma moveDone_door (es : EntitySystem Entity) d : (moveDone Entity es d).2 = d.
Proof. unfold moveDone, hitTop, hitBottom. by repeat case_decide. Qed.

Lemma moveToTargetPos_sameDoor (es : EntitySystem Entity) d target s :
  sameDoor d (moveToTargetPos Entity sqrt es d target s).2.
Proof.
  unfold moveToTargetPos. case_decide; [rewrite moveDone_door|]; by repeat split.
Qed.

Lemma toggle_movement_sameDoor (es : EntitySystem Entity) dt d :
  sameDoor d (toggle_movement Entity es dt d).2.
Proof.
  unfold toggle_movement.
  repeat case_decide; [rewrite moveDone_door| |]; by repeat split.
Qed.

Lemma goToTop_state (es : EntitySystem Entity) d :
  toggleState (goToTop Entity sqrt es d).2 = GoingToTop.
Proof.
  unfold goToTop.
  pose proof (moveToTargetPos_sameDoor es (set_toggleState GoingToTop d)
                (positionOpened (set_toggleState GoingToTop d))
                (speed (set_toggleState GoingToTop d))) as (_ & _ & _ & _ & H).
  by destruct (moveToTargetPos _ _ _ _ _ _).
Qed.

Lemma goToBottom_state (es : EntitySystem Entity) d :
  toggleState (goToBottom Entity sqrt es d).2 = GoingToBottom.
Proof.
  unfold goToBottom.
  pose proof (moveToTargetPos_sameDoor es (set_toggleState GoingToBottom d)
                (positionClosed (set_toggleState GoingToBottom d))
                (speed (set_toggleState GoingToBottom d))) as (_ & _ & _ & _ & H).
  by destruct (moveToTargetPos _ _ _ _ _ _).
Qed.

Lemma door_step_state (es : EntitySystem Entity) d st :
  toggleState (step es d st).2 = toggleState d ∨ underWay (step es d st).2.
Proof.
  unfold underWay. destruct st as [| | |dt]; simpl.
  - unfold input_open. case_decide; [by left|].
    destruct (locked d); [by left|]. right. left. apply goToTop_state.
  - unfold input_close. case_decide; [by left|].
    right. right. apply goToBottom_state.
  - unfold input_toggle. destruct (locked d); [by left|].
    case_decide; [right; left; apply goToTop_state|].
    case_decide; [right; right; apply goToBottom_state|]. by left.
  - left. apply toggle_movement_sameDoor.
Qed.

Lemma input_toggle_underWay (es : EntitySystem Entity) d :
  underWay d → input_toggle Entity sqrt es d = (es, d).
Proof.
  intros Hway. unfold input_toggle. destruct (locked d); [done|].
  destruct Hway as [H|H]; rewrite H; by repeat case_decide.
Qed.

(** X10. Over any run of inputs and frames the toggle state of a door
    either is what it was at the start or is one of the two states of a door
    under way: no input and no arrival ever sets it to [Top] or [Bottom].
    Hence a door that has once been set in motion stays under way for good,
    also after it has arrived, and the [toggle] input, which acts on [Top]
    and [Bottom] only, does nothing to it any more. *)
Theorem door_never_comes_to_rest (es : EntitySystem Entity) d steps es' d' :
  run es d steps = (es', d') →
  (toggleState d' = toggleState d ∨ underWay d') ∧
  (underWay d →
   underWay d' ∧ input_toggle Entity sqrt es' d' = (es', d')).
Proof.
  revert es d. induction steps as [|st steps IH]; intros es d; simpl.
  - intros [= <- <-]. split; [by left|]. intros Hway. split; [done|].
    by apply input_toggle_underWay.
  - pose proof (door_step_state es d st) as Hst.
    destruct (step es d st) as [es1 d1]. cbn [snd] in Hst. intros Hrun.
    apply IH in Hrun as [Hstate Hstay].
    assert (Hway1 : underWay d → underWay d1).
    { unfold underWay in *. intros Hway. destruct Hst as [->|?]; done. }
    split.
    + destruct Hstate as [Heq|?]; [|by right]. rewrite Heq.
      destruct Hst as [?|Hway]; [by left|]. right. by apply Hstay.
    + intros Hway. apply Hstay. by apply Hway1.
Qed.

Lemma vec3_eq (a b : vec3) :
  vx a = vx b → vy a = vy b → vz a = vz b → a = b.
Proof. destruct a, b. simpl. by intros -> -> ->. Qed.

Lemma moveToTargetPos_onTrack (es : EntitySystem Entity) d target s :
  let d' := (moveToTargetPos Entity sqrt es d target s).2 in
  0 < timeLeftInSeconds d' → onTrack d'.
Proof.
  unfold moveToTargetPos.
  set (tl := vec3_length sqrt (vec3_sub target (localOrigin d)) / s).
  case_decide as Htl.
  - rewrite moveDone_door. cbn. intros Hpos. exfalso.
    by apply (Qcle_not_lt _ _ Htl).
  - cbn. intros _. unfold onTrack. cbn.
    assert (tl ≠ 0) as Hnz.
    { intros H0. apply Htl. rewrite H0. apply Qcle_refl. }
    apply vec3_eq; cbn; by field.
Qed.

Lemma toggle_movement_onTrack (es : EntitySystem Entity) dt d :
  (0 < timeLeftInSeconds d → onTrack d) →
  let d' := (toggle_movement Entity es dt d).2 in
  0 < timeLeftInSeconds d' → onTrack d'.
Proof.
  intros Hd. unfold toggle_movement. case_decide as Hmoving; [|done].
  case_decide as Harrived.
  - rewrite moveDone_door. cbn. intros H. exfalso.
    apply (Qclt_not_le _ _ H), Qcle_refl.
  - cbn. intros _. specialize (Hd Hmoving). unfold onTrack in *. cbn.
    rewrite <- Hd. apply vec3_eq; cbn; ring.
Qed.

Lemma door_step_onTrack (es : EntitySystem Entity) d st :
  (0 < timeLeftInSeconds d → onTrack d) →
  let d' := (step es d st).2 in
  speed d' = speed d ∧ (0 < timeLeftInSeconds d' → onTrack d').
Proof.
  intros Hd.
  assert (HT : let d' := (goToTop Entity sqrt es d).2 in
               speed d' = speed d ∧ (0 < timeLeftInSeconds d' → onTrack d')).
  { unfold goToTop.
    pose proof (moveToTargetPos_sameDoor es (set_toggleState GoingToTop d)
                  (positionOpened (set_toggleState GoingToTop d))
                  (speed (set_toggleState GoingToTop d))) as (Hs & _).
    pose proof (moveToTargetPos_onTrack es (set_toggleState GoingToTop d)
                  (positionOpened (set_toggleState GoingToTop d))
                  (speed (set_toggleState GoingToTop d))) as Ht.
    by destruct (moveToTargetPos _ _ _ _ _ _). }
  assert (HB : let d' := (goToBottom Entity sqrt es d).2 in
               speed d' = speed d ∧ (0 < timeLeftInSeconds d' → onTrack d')).
  { unfold goToBottom.
    pose proof (moveToTargetPos_sameDoor es (set_toggleState GoingToBottom d)
                  (positionClosed (set_toggleState GoingToBottom d))
                  (speed (set_toggleState GoingToBottom d))) as (Hs & _).
    pose proof (moveToTargetPos_onTrack es (set_toggleState GoingToBottom d)
                  (positionClosed (set_toggleState GoingToBottom d))
                  (speed (set_toggleState GoingToBottom d))) as Ht.
    by destruct (moveToTargetPos _ _ _ _ _ _). }
  destruct st as [| | |dt]; simpl.
  - unfold input_open. case_decide; [done|]. by destruct (locked d).
  - unfold input_close. by case_decide.
  - unfold input_toggle. destruct (locked d); [done|]. by repeat case_decide.
  - split; [apply toggle_movement_sameDoor|]. by apply toggle_movement_onTrack.
Qed.

(** X11. Whenever a door has time left to move it is on track: its
    position plus its velocity times the time left is its target, so at its
    velocity it reaches the target exactly when the time runs out. This holds
    after any run of inputs and frames, also when an input turns the door
    round half way and when a frame has a negative length, for a door whose
    speed is not zero and that is on track or at rest at the start. *)
Theorem door_stays_on_track (es : EntitySystem Entity) d steps es' d' :
  speed d ≠ 0 →
  (0 < timeLeftInSeconds d → onTrack d) →
  run es d steps = (es', d') →
  speed d' = speed d ∧ (0 < timeLeftInSeconds d' → onTrack d').
Proof.
  intros _. revert es d. induction steps as [|st steps IH]; intros es d Hd; simpl.
  - by intros [= <- <-].
  - pose proof (door_step_onTrack es d st Hd) as [Hs Ht].
    destruct (step es d st) as [es1 d1]. cbn [snd] in Hs, Ht. intros Hrun.
    apply (IH _ _ Ht) in Hrun as [Hs' Ht']. split; [congruence|done].
Qed.

End DoorRunFacts.

Lemma door_never_comes_to_rest_witness :
  ∃ es' d',
    Entities.door_run Entities.Sample.Entity Entities.Sample.sqrt
      Entities.Sample.level
      (Entities.set_toggleState Entities.GoingToTop Entities.Sample.door)
      [Entities.DoToggle; Entities.DoTick (Entities.Sample.Q 1)]
    = (es', d') ∧
    Entities.underWay d' ∧
    Entities.input_toggle Entities.Sample.Entity Entities.Sample.sqrt es' d'
    = (es', d').
Proof.
  destruct (Entities.door_run Entities.Sample.Entity Entities.Sample.sqrt
              Entities.Sample.level
              (Entities.set_toggleState Entities.GoingToTop Entities.Sample.door)
              [Entities.DoToggle; Entities.DoTick (Entities.Sample.Q 1)])
    as [es' d'] eqn:Hrun.
  exists es', d'. split; [reflexivity|].
  exact (proj2 (door_never_comes_to_rest Entities.Sample.sqrt _ _ _ _ _ Hrun)
           (or_introl eq_refl)).
Defined.

Lemma door_stays_on_track_witness :
  ∃ es' d',
    Entities.door_run Entities.Sample.Entity Entities.Sample.sqrt
      Entities.Sample.level Entities.Sample.door
      [Entities.DoOpen; Entities.DoTick (Entities.Sample.Q 1 / Entities.Sample.Q 4)%Qc;
       Entities.DoClose]
    = (es', d') ∧
    Entities.speed d' = Entities.speed Entities.Sample.door ∧
    ((0 < Entities.timeLeftInSeconds d')%Qc → Entities.onTrack d').
Proof.
  destruct (Entities.door_run Entities.Sample.Entity Entities.Sample.sqrt
              Entities.Sample.level Entities.Sample.door
              [Entities.DoOpen;
               Entities.DoTick (Entities.Sample.Q 1 / Entities.Sample.Q 4)%Qc;
               Entities.DoClose])
    as [es' d'] eqn:Hrun.
  exists es', d'. split; [reflexivity|].
  refine (door_stays_on_track Entities.Sample.sqrt _ _ _ _ _ _ _ Hrun).
  - intros H. apply (f_equal this) in H. vm_compute in H. discriminate H.
  - intros H. vm_compute in H. discriminate H.
Defined.

(** ** Counters between their bounds *)

Section CounterRangeFacts.

Import Entities.
Local Open Scope Qc_scope.

Context {Entity : Type}.

Local Abbreviation update := (updateValue Entity).

Lemma clampMax_bound (es : EntitySystem Entity) c es' c' :
  clampMax Entity es c = (es', c') →
  max c ≠ 0 →
  counter_value c' <= max c ∧
  (max c <= counter_value c → counter_value c' = max c).
Proof.
  unfold clampMax. intros H Hmax. rewrite decide_True in H by done.
  destruct (decide (max c <= counter_value c)) as [Hle|Hgt]; simpl in H.
  - destruct (maxEdgeState c); simpl in H; injection H as <- <-; simpl;
      (split; [apply Qcle_refl|done]).
  - injection H as <- <-. simpl. split; [|done].
    apply Qclt_le_weak. by apply Qcnot_le_lt.
Qed.

Lemma clampMin_bound (es : EntitySystem Entity) c es' c' :
  clampMin Entity es c = (es', c') →
  min c ≠ 0 →
  min c <= counter_value c' ∧
  (counter_value c <= min c → counter_value c' = min c).
Proof.
  unfold clampMin. intros H Hmin. rewrite decide_True in H by done.
  destruct (decide (counter_value c <= min c)) as [Hle|Hgt]; simpl in H.
  - destruct (minEdgeState c); simpl in H; injection H as <- <-; simpl;
      (split; [apply Qcle_refl|done]).
  - injection H as <- <-. simpl. split; [|done].
    apply Qclt_le_weak. by apply Qcnot_le_lt.
Qed.

(** X12. After an update the value of a counter is at least its [min] if
    that is not zero, and at most its [max] if that is not zero and the
    bounds are in order. With both bounds set and [max] not above [min] the
    lower bound wins, because it is applied last: the value is [min]
    whatever was asked for. A value strictly between the bounds is stored as
    it comes. The bounds themselves do not change. *)
Theorem counter_value_stays_in_range (es : EntitySystem Entity) c v es' c' :
  update es c v = (es', c') →
  min c' = min c ∧ max c' = max c ∧
  (min c ≠ 0 → min c <= counter_value c') ∧
  (max c ≠ 0 → min c = 0 ∨ min c <= max c → counter_value c' <= max c) ∧
  (max c ≠ 0 → min c ≠ 0 → max c <= min c → counter_value c' = min c) ∧
  (max c = 0 ∨ v < max c → min c = 0 ∨ min c < v → counter_value c' = v).
Proof.
  unfold updateValue.
  destruct (clampMax Entity es (set_value v c)) as [es1 c1] eqn:Hmax.
  destruct (clampMin Entity es1 c1) as [es2 c2] eqn:Hmin.
  intros [= <- <-].
  pose proof (clampMax_bound _ _ _ _ Hmax) as Hbmax.
  pose proof (clampMin_bound _ _ _ _ Hmin) as Hbmin.
  pose proof (clampMax_spec _ _ _ _ Hmax)
    as (Hmax1 & Hmin1 & _ & _ & Hle1 & Hkeep1 & _).
  pose proof (clampMin_spec _ _ _ _ Hmin)
    as (Hmax2 & Hmin2 & _ & _ & Hle2 & Hkeep2 & _).
  simpl in *. rewrite Hmin1 in *. rewrite Hmax1 in *.
  split; [congruence|]. split; [congruence|]. split; [|split; [|split]].
  - intros Hm. by apply Hbmin.
  - intros HM Horder. destruct (Hbmax HM) as [Hb1 _].
    destruct (decide (min c = 0)) as [H0|Hn0].
    + rewrite Hkeep2 by (by left). done.
    + destruct Horder as [?|Horder]; [done|].
      destruct (Hbmin Hn0) as [_ Hset].
      destruct (decide (counter_value c1 <= min c)) as [Hlow|Hhigh].
      * by rewrite Hset.
      * rewrite Hkeep2; [done|]. right. by apply Qcnot_le_lt.
  - intros HM Hm Horder. destruct (Hbmax HM) as [Hb1 _].
    destruct (Hbmin Hm) as [_ Hset]. apply Hset.
    by apply (Qcle_trans _ (max c)).
  - intros HM Hm. rewrite Hkeep1 in Hkeep2 by done.
    by rewrite Hkeep2 by done.
Qed.

(** X13. The two hit outputs of a counter fire on edges. After an update
    with a [max] that is not zero the upper edge flag tells whether the value
    asked for had reached [max], and with a [min] that is not zero the lower
    edge flag tells whether the value stored is [min]. While a flag is set
    its output is not fired again, whatever the value asked for; when the
    flag is not set, reaching the bound fires the output, before
    [outValue]. *)
Theorem counter_hit_outputs_fire_on_edges (es : EntitySystem Entity) c v es' c' :
  update es c v = (es', c') →
  (max c ≠ 0 → (maxEdgeState c' = true ↔ max c <= v)) ∧
  (min c ≠ 0 → (minEdgeState c' = true ↔ counter_value c' = min c)) ∧
  (maxEdgeState c = true →
   es' = fire Entity (output_outValue c) es "" ∨
   es' = fire Entity (output_outValue c)
           (fire Entity (output_onHitMin c) es "") "") ∧
  (minEdgeState c = true →
   es' = fire Entity (output_outValue c) es "" ∨
   es' = fire Entity (output_outValue c)
           (fire Entity (output_onHitMax c) es "") "") ∧
  (max c ≠ 0 → maxEdgeState c = false → max c <= v →
   es' = fire Entity (output_outValue c)
           (fire Entity (output_onHitMax c) es "") "" ∨
   es' = fire Entity (output_outValue c)
           (fire Entity (output_onHitMin c)
              (fire Entity (output_onHitMax c) es "") "") "") ∧
  (min c ≠ 0 → minEdgeState c = false → counter_value c' = min c →
   es' = fire Entity (output_outValue c)
           (fire Entity (output_onHitMin c) es "") "" ∨
   es' = fire Entity (output_outValue c)
           (fire Entity (output_onHitMin c)
              (fire Entity (output_onHitMax c) es "") "") "").
Proof.
  unfold updateValue, clampMax, clampMin. simpl.
  destruct (decide (max c ≠ 0)) as [HM|HM];
    [destruct (decide (max c <= v)) as [HMv|HMv];
       [destruct (maxEdgeState c) eqn:HeM|]|];
    simpl;
    (destruct (decide (min c ≠ 0)) as [Hm|Hm];
       [destruct (decide (_ <= min c)) as [Hmv|Hmv];
          [destruct (minEdgeState c) eqn:Hem|]|]);
    simpl; intros [= <- <-]; simpl;
    repeat split; try done; try (intros; by auto);
    try (intros; exfalso; congruence).
  all: try (intros ? ? ; subst; exfalso; apply Hmv; apply Qcle_refl).
  all: try (intros ? ? Heq; exfalso; apply Hmv; rewrite Heq; apply Qcle_refl).
  all: try (intros ? Heq; exfalso; apply Hmv; rewrite Heq; apply Qcle_refl).
  all: try (intros Heq; exfalso; apply Hmv; rewrite Heq; apply Qcle_refl).
Qed.

End CounterRangeFacts.

Lemma counter_value_stays_in_range_witness :
  ∃ es' c',
    Entities.updateValue Entities.Sample.Entity Entities.Sample.level
      Entities.Sample.counter (Entities.Sample.Q 12) = (es', c') ∧
    (Entities.max Entities.Sample.counter ≠ 0%Qc →
     Entities.min Entities.Sample.counter = 0%Qc ∨
     (Entities.min Entities.Sample.counter
      <= Entities.max Entities.Sample.counter)%Qc →
     (Entities.counter_value c' <= Entities.max Entities.Sample.counter)%Qc).
Proof.
  destruct (Entities.updateValue Entities.Sample.Entity Entities.Sample.level
              Entities.Sample.counter (Entities.Sample.Q 12))
    as [es' c'] eqn:Hrun.
  exists es', c'. split; [reflexivity|].
  exact (proj1 (proj2 (proj2 (proj2
           (counter_value_stays_in_range _ _ _ _ _ Hrun))))).
Defined.

Lemma counter_hit_outputs_fire_on_edges_witness :
  ∃ es' c',
    Entities.updateValue Entities.Sample.Entity Entities.Sample.level
      Entities.Sample.counter (Entities.Sample.Q 12) = (es', c') ∧
    (Entities.max Entities.Sample.counter ≠ 0%Qc →
     (Entities.maxEdgeState c' = true ↔
      (Entities.max Entities.Sample.counter <= Entities.Sample.Q 12)%Qc)).
Proof.
  destruct (Entities.updateValue Entities.Sample.Entity Entities.Sample.level
              Entities.Sample.counter (Entities.Sample.Q 12))
    as [es' c'] eqn:Hrun.
  exists es', c'. split; [reflexivity|].
  exact (proj1 (counter_hit_outputs_fire_on_edges _ _ _ _ _ Hrun)).
Defined.

(** ** Timers and triggers over any run of inputs and frames *)

Section TimerFacts.

Import Entities.
Local Open Scope Qc_scope.

Context {Entity : Type}.

Local Abbreviation step := (timer_step Entity).
Local Abbreviation run := (timer_run Entity).

Lemma timer_step_spec (es : EntitySystem Entity) t st es1 t1 fired :
  step es t st = (es1, t1, fired) →
  refiretime t1 = refiretime t ∧
  timer_enabled t1 = match st with
                     | TimerEnable => true
                     | TimerDisable => false
                     | TimerFrame _ => timer_enabled t
                     end ∧
  (fired = [] ∧ nextFireTime t1 = nextFireTime t ∨
   fired = [currentTime es] ∧ nextFireTime t <= currentTime es ∧
   timer_enabled t = true ∧
   nextFireTime t1 = currentTime es + refiretime t).
Proof.
  destruct st as [| |dt]; simpl.
  - intros [= <- <- <-]. auto.
  - intros [= <- <- <-]. auto.
  - unfold timer_movement. destruct (timer_enabled t) eqn:Hen; simpl.
    + case_decide as Hdue; intros [= <- <- <-]; simpl;
        (split; [done|]); (split; [done|]); [right|left]; by repeat split.
    + intros [= <- <- <-]. auto.
Qed.

(** X14. However a timer is enabled and disabled and whatever the lengths
    of the frames, two successive firings of [onTimer] are at least its
    refire time apart on the clock of the entity system, and the first
    firing of a run does not come before the time the timer was set for. A
    disabled timer that is not enabled does not fire. *)
Theorem timer_firings_are_spaced (es : EntitySystem Entity) t steps es' t' fired :
  run es t steps = (es', t', fired) →
  (∀ l1 t1 t2 l2, fired = l1 ++ t1 :: t2 :: l2 → t1 + refiretime t <= t2) ∧
  (∀ u, head fired = Some u → nextFireTime t <= u) ∧
  (timer_enabled t = false → TimerEnable ∉ steps → fired = []).
Proof.
  revert es t es' t' fired.
  induction steps as [|st steps IH]; intros es t es' t' fired; simpl.
  - intros [= <- <- <-]. split; [|split]; [|done..].
    intros [|? [|? ?]] ? ? ? H; discriminate H.
  - destruct (step es t st) as [[es1 t1] f] eqn:Hstep.
    destruct (run es1 t1 steps) as [[es2 t2] later] eqn:Hrun.
    intros [= <- <- <-].
    apply timer_step_spec in Hstep as (Hr & Hen & Hstep).
    apply IH in Hrun as (Hspaced & Hfirst & Hoff). rewrite Hr in Hspaced.
    destruct Hstep as [[Hf Hnext]|(Hf & Hdue & Hon & Hnext)]; subst f; simpl.
    + rewrite Hnext in Hfirst. split; [done|]. split; [done|].
      intros Hdis Hnot. apply Hoff.
      * rewrite Hen. destruct st; [|done..]. exfalso. apply Hnot. left.
      * intros Hin. apply Hnot. by right.
    + rewrite Hnext in Hfirst. split; [|split].
      * intros [|u l1] a b l2 Heq; simpl in Heq.
        -- injection Heq as <- Heq. subst later. by apply Hfirst.
        -- injection Heq as _ Heq. subst later. by eapply Hspaced.
      * by intros u [= <-].
      * congruence.
Qed.

End TimerFacts.

Section TriggerFacts.

Import Entities.

Context {Entity : Type}.

Local Abbreviation step := (trigger_step Entity).
Local Abbreviation run := (trigger_run Entity).

Lemma trigger_step_spec (es : EntitySystem Entity) t st es1 t1 calls :
  step es t st = (es1, t1, calls) →
  classname t1 = classname t ∧
  trigger_enabled t1 = match st with
                       | TriggerEnable => true
                       | TriggerDisable => false
                       | TriggerFrame _ => trigger_enabled t
                       end ∧
  (trigger_alive t = false → trigger_alive t1 = false ∧ calls = []) ∧
  (trigger_enabled t = true →
   calls = [] ∧ isPlayerTouching t1 = isPlayerTouching t ∨
   calls = [OnTouch] ∧ isPlayerTouching t = false ∧
   isPlayerTouching t1 = true ∨
   calls = [OnUnTouch] ∧ isPlayerTouching t = true ∧
   isPlayerTouching t1 = false ∧
   (classname t = trigger_once → trigger_alive t1 = false)).
Proof.
  assert (Hidle :
    classname t = classname t ∧
    (trigger_alive t = false → trigger_alive t = false ∧ [] = ([] : list TouchCall)) ∧
    (trigger_enabled t = true →
     [] = ([] : list TouchCall) ∧ isPlayerTouching t = isPlayerTouching t ∨
     [] = [OnTouch] ∧ isPlayerTouching t = false ∧ isPlayerTouching t = true ∨
     [] = [OnUnTouch] ∧ isPlayerTouching t = true ∧
     isPlayerTouching t = false ∧
     (classname t = trigger_once → trigger_alive t = false))).
  { split; [done|]. split; [done|]. intros _. by left. }
  destruct Hidle as (Hi1 & Hi2 & Hi3).
  destruct st as [| |[touching|]]; simpl.
  - by intros [= <- <- <-].
  - by intros [= <- <- <-].
  - destruct (trigger_alive t) eqn:Halive;
      [|intros [= <- <- <-]; rewrite Halive; by auto].
    unfold trigger_movement, onTouch, onUnTouch.
    destruct (isPlayerTouching t) eqn:Hold, touching; simpl;
      try (by intros [= <- <- <-]);
      destruct (trigger_enabled t) eqn:Hen; simpl;
      try destruct (classname t) eqn:Hclass;
      intros [= <- <- <-]; simpl;
      (split; [done|]); (split; [done|]); (split; [done|]);
      try done; intros _; rewrite ?Hold;
      first [ left; by repeat split
            | right; left; by repeat split
            | right; right; by repeat split ].
  - destruct (trigger_alive t) eqn:Halive; intros [= <- <- <-];
      rewrite Halive; by auto.
Qed.

Lemma dead_trigger_is_silent (es : EntitySystem Entity) t steps es' t' calls :
  trigger_alive t = false →
  run es t steps = (es', t', calls) → calls = [] ∧ trigger_alive t' = false.
Proof.
  revert es t es' t' calls.
  induction steps as [|st steps IH]; intros es t es' t' calls Hdead; simpl.
  - by intros [= <- <- <-].
  - destruct (step es t st) as [[es1 t1] c] eqn:Hstep.
    destruct (run es1 t1 steps) as [[es2 t2] later] eqn:Hrun.
    intros [= <- <- <-].
    apply trigger_step_spec in Hstep as (_ & _ & Hd & _).
    destruct (Hd Hdead) as [Hdead1 ->].
    by apply (IH _ _ _ _ _ Hdead1) in Hrun as [-> ->].
Qed.

(** X15. For a trigger that is enabled and is not disabled during the run,
    the callbacks follow the changes of the touch state: the first callback
    is [onTouch] if the player was not touching and [onUnTouch] if it was,
    and after that the two alternate. For a [trigger_once] the first
    [onUnTouch] is the last callback: it removes the trigger, which makes no
    callback any more. *)
Theorem trigger_callbacks_alternate (es : EntitySystem Entity) t steps es' t' calls :
  trigger_enabled t = true →
  TriggerDisable ∉ steps →
  run es t steps = (es', t', calls) →
  (∀ c, head calls = Some c →
     c = if isPlayerTouching t then OnUnTouch else OnTouch) ∧
  (∀ l1 a b l2, calls = l1 ++ a :: b :: l2 → a ≠ b) ∧
  (classname t = trigger_once →
   ∀ l1 l2, calls = l1 ++ OnUnTouch :: l2 →
     l2 = [] ∧ trigger_alive t' = false).
Proof.
  revert es t es' t' calls.
  induction steps as [|st steps IH]; intros es t es' t' calls Hen Hnot; simpl.
  - intros [= <- <- <-]. split; [done|]. split.
    + intros [|? [|? ?]] ? ? ? H; discriminate H.
    + intros _ [|? ?] ? H; discriminate H.
  - destruct (step es t st) as [[es1 t1] c] eqn:Hstep.
    destruct (run es1 t1 steps) as [[es2 t2] later] eqn:Hrun.
    intros [= <- <- <-].
    apply trigger_step_spec in Hstep as (Hclass & Hen1 & _ & Hstep).
    assert (trigger_enabled t1 = true) as Hen1'.
    { rewrite Hen1. destruct st; [done| |done]. exfalso. apply Hnot. left. }
    assert (TriggerDisable ∉ steps) as Hnot1.
    { intros Hin. apply Hnot. by right. }
    pose proof (IH _ _ _ _ _ Hen1' Hnot1 Hrun) as (Hhead & Halt & Honce).
    rewrite Hclass in Honce.
    destruct (Hstep Hen) as [[Hc Hsame]|[(Hc & Hold & Hnew)|(Hc & Hold & Hnew & Hdead)]];
      subst c; simpl.
    + rewrite Hsame in Hhead. done.
    + rewrite Hnew in Hhead. rewrite Hold. split; [|split].
      * by intros c [= <-].
      * intros [|x l1] a b l2 Heq; simpl in Heq.
        -- injection Heq as <- Heq. subst later.
           by rewrite (Hhead b eq_refl).
        -- injection Heq as _ Heq. by eapply Halt.
      * intros Hclass1 [|x l1] l2 Heq; simpl in Heq; [discriminate Heq|].
        injection Heq as _ Heq. by eapply Honce.
    + rewrite Hnew in Hhead. rewrite Hold. split; [|split].
      * by intros c [= <-].
      * intros [|x l1] a b l2 Heq; simpl in Heq.
        -- injection Heq as <- Heq. subst later.
           by rewrite (Hhead b eq_refl).
        -- injection Heq as _ Heq. by eapply Halt.
      * intros Hclass1.
        destruct (dead_trigger_is_silent _ _ _ _ _ _ (Hdead Hclass1) Hrun)
          as [-> Hdead2].
        intros [|x [|y l1]] l2 Heq; simpl in Heq; [|discriminate Heq..].
        by injection Heq as <-.
Qed.

End TriggerFacts.

Lemma timer_firings_are_spaced_witness :
  ∃ es' t' fired,
    Entities.timer_run Entities.Sample.Entity Entities.Sample.level
      Entities.Sample.timer
      [Entities.TimerFrame (Entities.Sample.Q 1);
       Entities.TimerFrame (Entities.Sample.Q 1);
       Entities.TimerDisable; Entities.TimerEnable;
       Entities.TimerFrame (Entities.Sample.Q 1)]
    = (es', t', fired) ∧
    ∀ l1 t1 t2 l2, fired = l1 ++ t1 :: t2 :: l2 →
      (t1 + Entities.refiretime Entities.Sample.timer <= t2)%Qc.
Proof.
  destruct (Entities.timer_run Entities.Sample.Entity Entities.Sample.level
              Entities.Sample.timer
              [Entities.TimerFrame (Entities.Sample.Q 1);
               Entities.TimerFrame (Entities.Sample.Q 1);
               Entities.TimerDisable; Entities.TimerEnable;
               Entities.TimerFrame (Entities.Sample.Q 1)])
    as [[es' t'] fired] eqn:Hrun.
  exists es', t', fired. split; [reflexivity|].
  exact (proj1 (timer_firings_are_spaced _ _ _ _ _ _ Hrun)).
Defined.

Lemma trigger_callbacks_alternate_witness :
  ∃ es' t' calls,
    Entities.trigger_run Entities.Sample.Entity Entities.Sample.level
      Entities.Sample.once
      [Entities.TriggerFrame (Some true); Entities.TriggerFrame (Some true);
       Entities.TriggerFrame (Some false); Entities.TriggerFrame (Some true)]
    = (es', t', calls) ∧
    (∀ c, head calls = Some c → c = Entities.OnTouch) ∧
    (∀ l1 a b l2, calls = l1 ++ a :: b :: l2 → a ≠ b) ∧
    (∀ l1 l2, calls = l1 ++ Entities.OnUnTouch :: l2 →
       l2 = [] ∧ Entities.trigger_alive t' = false).
Proof.
  destruct (Entities.trigger_run Entities.Sample.Entity Entities.Sample.level
              Entities.Sample.once
              [Entities.TriggerFrame (Some true); Entities.TriggerFrame (Some true);
               Entities.TriggerFrame (Some false); Entities.TriggerFrame (Some true)])
    as [[es' t'] calls] eqn:Hrun.
  exists es', t', calls. split; [reflexivity|].
  assert (Hnot : Entities.TriggerDisable ∉
            [Entities.TriggerFrame (Some true); Entities.TriggerFrame (Some true);
             Entities.TriggerFrame (Some false); Entities.TriggerFrame (Some true)]).
  { intros Hin. repeat (apply elem_of_cons in Hin as [Hin|Hin]; [discriminate Hin|]).
    by apply elem_of_nil in Hin. }
  destruct (trigger_callbacks_alternate Entities.Sample.level
              Entities.Sample.once _ _ _ _ eq_refl Hnot Hrun)
    as (Hhead & Halt & Honce).
  exact (conj Hhead (conj Halt (Honce eq_refl))).
Defined.

(** ** Joint matrices along the scene graph *)

Section HierarchyFacts.

Import J3D.

Context {AABB : Type}.
Variable bones : list (Bone AABB).
Variable bbox_transform : AABB → mat4 → AABB.
Variable frustum_intersect : AABB → IntersectionState.
Variable calcJointMatrix : Z → option mat4.

Local Abbreviation update :=
  (updateJointMatrixHierarchy bones bbox_transform frustum_intersect calcJointMatrix).
Local Abbreviation jointAt := (J3D.jointAt bones calcJointMatrix).
Local Abbreviation placed :=
  (J3D.placed bones bbox_transform frustum_intersect calcJointMatrix).
Local Abbreviation node_ok :=
  (J3D.node_ok bones bbox_transform frustum_intersect calcJointMatrix).

Lemma HierarchyNode_ind_children (P : HierarchyNode → Prop) :
  (∀ type children, Forall P children → P (Node type children)) →
  ∀ node, P node.
Proof.
  intros H. fix IH 1. intros [type children]. apply H.
  induction children as [|child children IHchildren]; constructor;
    [apply IH|apply IHchildren].
Qed.

Lemma lookupZ_Some_nonneg {A} (l : list A) (i : Z) x :
  lookupZ l i = Some x → 0 ≤ i ∧ (Z.to_nat i < length l)%nat.
Proof.
  unfold lookupZ. destruct (Z.ltb_spec i 0) as [Hneg|Hpos]; [done|].
  intros Hl. apply lookup_lt_Some in Hl. lia.
Qed.

Lemma lookupZ_insert_eq {A} (l : list A) (i : Z) x y :
  lookupZ l i = Some y → lookupZ (<[Z.to_nat i := x]> l) i = Some x.
Proof.
  intros Hl. apply lookupZ_Some_nonneg in Hl as [Hi Hlt].
  rewrite lookupZ_nonneg by done. by apply list_lookup_insert_eq.
Qed.

Lemma lookupZ_insert_ne {A} (l : list A) (i j : Z) x :
  0 ≤ i → j ≠ i → lookupZ (<[Z.to_nat i := x]> l) j = lookupZ l j.
Proof.
  intros Hi Hne. unfold lookupZ.
  destruct (Z.ltb_spec j 0) as [Hneg|Hpos]; [done|].
  apply list_lookup_insert_ne. lia.
Qed.

Lemma untouched_refl J (st : Joints) : untouched J st st.
Proof. by repeat split. Qed.

Lemma untouched_trans J1 J2 J (st1 st2 st3 : Joints) :
  untouched J1 st1 st2 → untouched J2 st2 st3 →
  (∀ j, j ∉ J → (j ∉ J1) ∧ (j ∉ J2)) → untouched J st1 st3.
Proof.
  intros (Hm1 & Hv1 & H1) (Hm2 & Hv2 & H2) HJ.
  split; [congruence|]. split; [congruence|]. intros j Hj.
  destruct (HJ j Hj) as [Hj1 Hj2].
  destruct (H1 j Hj1) as [<- <-]. by apply H2.
Qed.

Lemma elem_of_flat_map_2 {A B} (f : A → list B) (l : list A) (x : B) (y : A) :
  y ∈ l → x ∈ f y → x ∈ flat_map f l.
Proof.
  intros Hy Hx. apply list_elem_of_In, in_flat_map.
  exists y. split; by apply list_elem_of_In.
Qed.

Lemma jointAt_index node parent j b m :
  jointAt node parent j b m → j ∈ jointIndices node ∧ lookupZ bones j = Some b.
Proof.
  induction 1 as [j cs p bone Hb|j0 cs p bone c j b m Hb Hc _ [IH1 IH2]
                  |ty cs p c j b m Hty Hc _ [IH1 IH2]]; simpl.
  - split; [left|done].
  - split; [|done]. right. by eapply elem_of_flat_map_2.
  - split; [|done].
    assert (j ∈ flat_map jointIndices cs) as Hin
      by (by eapply elem_of_flat_map_2).
    destruct ty; [by destruct (Hty jointIdx)|done..].
Qed.

Lemma readMatrix_untouched J parent (st st' : Joints) pv :
  untouched J st st' →
  (∀ jp, parent = JointMatrix jp → jp ∉ J) →
  readMatrix parent st = Some pv → readMatrix parent st' = Some pv.
Proof.
  intros (_ & _ & H) Hp. destruct parent as [m|jp]; simpl; [done|].
  intros <-. by apply H, Hp.
Qed.

Lemma children_ok (children : list HierarchyNode) :
  Forall node_ok children →
  ∀ parent st st' pv,
    visitChildren (λ child, update child parent) children st = Done st' →
    NoDup (flat_map jointIndices children) →
    length (visibility st) = length (matrices st) →
    readMatrix parent st = Some pv →
    (∀ jp, parent = JointMatrix jp → jp ∉ flat_map jointIndices children) →
    untouched (flat_map jointIndices children) st st' ∧
    ∀ child, child ∈ children → placed child pv st'.
Proof.
  induction 1 as [|child children Hchild _ IH];
    intros parent st st' pv; simpl.
  - intros [= <-] _ _ _ _. split; [apply untouched_refl|].
    intros child Hin. by apply elem_of_nil in Hin.
  - destruct (update child parent st) as [st1| |] eqn:Hrun1; simpl; [|done..].
    intros Hrun Hnodup Hlen Hpv Hparent.
    apply list.NoDup_app in Hnodup as (Hnd1 & Hdisj & Hnd2).
    destruct (Hchild _ _ _ _ Hrun1 Hnd1 Hlen Hpv) as [Hu1 Hp1].
    { intros jp Hjp Hin. apply (Hparent jp Hjp), elem_of_app. by left. }
    assert (Hlen1 : length (visibility st1) = length (matrices st1)).
    { destruct Hu1 as (-> & -> & _). done. }
    assert (Hpv1 : readMatrix parent st1 = Some pv).
    { eapply readMatrix_untouched; [exact Hu1| |done].
      intros jp Hjp Hin. apply (Hparent jp Hjp), elem_of_app. by left. }
    destruct (IH _ _ _ _ Hrun Hnd2 Hlen1 Hpv1) as [Hu2 Hp2].
    { intros jp Hjp Hin. apply (Hparent jp Hjp), elem_of_app. by right. }
    split.
    + eapply untouched_trans; [exact Hu1|exact Hu2|].
      intros j Hj. rewrite elem_of_app in Hj. tauto.
    + intros c Hc. apply elem_of_cons in Hc as [->|Hc]; [|by apply Hp2].
      intros j b m Hat. destruct (Hp1 j b m Hat) as [Hm Hv].
      apply jointAt_index in Hat as [Hin _].
      destruct Hu2 as (_ & _ & Hkeep).
      destruct (Hkeep j (Hdisj j Hin)) as [-> ->]. done.
Qed.

Lemma every_node_ok (node : HierarchyNode) : node_ok node.
Proof.
  induction node as [type children IH] using HierarchyNode_ind_children.
  intros parent st st' pv Hrun Hnodup Hlen Hpv Hparent.
  assert (Hpass :
    (∀ jointIdx, type ≠ Joint jointIdx) →
    jointIndices (Node type children) = flat_map jointIndices children →
    visitChildren (λ child, update child parent) children st = Done st' →
    untouched (jointIndices (Node type children)) st st' ∧
    placed (Node type children) pv st').
  { intros Hty Heq Hvisit. rewrite Heq in *.
    destruct (children_ok children IH _ _ _ _ Hvisit Hnodup Hlen Hpv Hparent)
      as [Hu Hp].
    split; [done|]. intros j b m Hat.
    inversion Hat; subst; try (exfalso; by eapply Hty).
    match goal with
    | Hc : ?c ∈ children, Hb : J3D.jointAt _ _ ?c _ _ _ _ |- _ =>
      exact (Hp c Hc _ _ _ Hb)
    end. }
  destruct type as [jointIdx|materialIdx|shapeIdx|];
    [|by apply Hpass..].
  clear Hpass. simpl in Hrun, Hnodup, Hparent.
  destruct (lookupZ bones jointIdx) as [bone|] eqn:Hbone; [|done].
  destruct (lookupZ (matrices st) jointIdx) as [old|] eqn:Hold; [|done].
  rewrite Hpv in Hrun.
  set (dst := mat4_mul pv (boneMatrix calcJointMatrix jointIdx bone)) in *.
  set (st1 := {| matrices := _; visibility := _ |}) in Hrun.
  apply list.NoDup_cons in Hnodup as [Hfresh Hnodup].
  destruct (lookupZ_Some_nonneg _ _ _ Hold) as [Hpos Hlt].
  assert (Hlen1 : length (visibility st1) = length (matrices st1)).
  { simpl. by rewrite !length_insert. }
  assert (Hm1 : lookupZ (matrices st1) jointIdx = Some dst).
  { simpl. by eapply lookupZ_insert_eq. }
  assert (Hv1 : lookupZ (visibility st1) jointIdx
                = Some (frustum_intersect (bbox_transform (bone_bbox bone) dst))).
  { simpl. rewrite lookupZ_nonneg by done. apply list_lookup_insert_eq. lia. }
  destruct (children_ok children IH (JointMatrix jointIdx) st1 st' dst
              Hrun Hnodup Hlen1 Hm1) as [Hu Hp].
  { by intros jp [= <-]. }
  split.
  - destruct Hu as (Hlm & Hlv & Hkeep). simpl in Hlm, Hlv.
    rewrite length_insert in Hlm. rewrite length_insert in Hlv.
    split; [done|]. split; [done|]. intros j Hj.
    apply not_elem_of_cons in Hj as [Hne Hj].
    destruct (Hkeep j Hj) as [-> ->]. simpl.
    by rewrite !lookupZ_insert_ne by done.
  - intros j b m Hat.
    inversion Hat; subst;
      try match goal with
          | Hty : ∀ jointIdx, Joint _ ≠ Joint jointIdx |- _ =>
            exfalso; by eapply Hty
          end;
      match goal with
      | Hb : lookupZ bones _ = Some ?b' |- _ =>
        rewrite Hbone in Hb; injection Hb as <-
      end.
    + destruct Hu as (_ & _ & Hkeep).
      destruct (Hkeep j Hfresh) as [-> ->]. done.
    + match goal with
      | Hc : ?c ∈ children, Hb : J3D.jointAt _ _ ?c _ _ _ _ |- _ =>
        exact (Hp c Hc _ _ _ Hb)
      end.
Qed.

(** X16. In a scene graph in which no joint index occurs twice, a completed
    traversal leaves in [jointMatrices], for every joint of the graph, the
    matrix of the nearest enclosing joint (or the matrix the traversal
    started from) times the bone matrix of the joint, and in
    [jointVisibility] the answer of the frustum for the bounding box of the
    bone moved by that matrix. The entries of all other indices are what
    they were. Passing the parent matrix by reference changes nothing in
    such a graph. *)
Theorem joint_matrices_follow_the_scene_graph (node : HierarchyNode)
    (start : mat4) (st st' : Joints) :
  NoDup (jointIndices node) →
  length (visibility st) = length (matrices st) →
  update node (Scratch start) st = Done st' →
  (∀ j b m, jointAt node start j b m →
     lookupZ (matrices st') j = Some m ∧
     lookupZ (visibility st') j
     = Some (frustum_intersect (bbox_transform (bone_bbox b) m))) ∧
  untouched (jointIndices node) st st'.
Proof.
  intros Hnodup Hlen Hrun.
  destruct (every_node_ok node (Scratch start) st st' start Hrun Hnodup Hlen
              eq_refl) as [Hu Hp]; [done|].
  split; [exact Hp|exact Hu].
Qed.

End HierarchyFacts.

Lemma joint_matrices_follow_the_scene_graph_witness :
  ∃ st',
    J3D.updateJointMatrixHierarchy J3D.Sample.skeletonBones
      J3D.Sample.bbox_transform J3D.Sample.frustum_intersect
      J3D.Sample.calcJointMatrix J3D.Sample.sceneGraph
      (J3D.Scratch J3D.mat4_identity) J3D.Sample.bindPose = Done st' ∧
    (∀ j b m,
       J3D.jointAt J3D.Sample.skeletonBones J3D.Sample.calcJointMatrix
         J3D.Sample.sceneGraph J3D.mat4_identity j b m →
       lookupZ (J3D.matrices st') j = Some m ∧
       lookupZ (J3D.visibility st') j
       = Some (J3D.Sample.frustum_intersect
                 (J3D.Sample.bbox_transform (J3D.bone_bbox b) m))) ∧
    J3D.untouched (J3D.jointIndices J3D.Sample.sceneGraph)
      J3D.Sample.bindPose st'.
Proof.
  destruct (J3D.updateJointMatrixHierarchy J3D.Sample.skeletonBones
              J3D.Sample.bbox_transform J3D.Sample.frustum_intersect
              J3D.Sample.calcJointMatrix J3D.Sample.sceneGraph
              (J3D.Scratch J3D.mat4_identity) J3D.Sample.bindPose)
    as [st'| |] eqn:Hrun;
    [|vm_compute in Hrun; discriminate Hrun..].
  exists st'. split; [reflexivity|].
  refine (joint_matrices_follow_the_scene_graph _ _ _ _ _ _ _ _ _ _ Hrun).
  - apply NoDup_cons_2; [|apply NoDup_cons_2; [|apply NoDup_nil_2]].
    + intros Hin. apply elem_of_cons in Hin as [Hin|Hin]; [discriminate Hin|].
      by apply elem_of_nil in Hin.
    + apply not_elem_of_nil.
  - reflexivity.
Defined.
